(** * AI-VOICE: the audio engine of [src/App.tsx]

    A shallow embedding of the WAV encoder ([writeString],
    [audioBufferToWav]), of the playback handlers ([playAudio],
    [handleStop]), of the parameter effect and of the karaoke loop
    ([updateKaraoke]) of the React component [App], with the properties its
    specification states about them. *)

From Stdlib Require Import ZArith QArith Qround Lia String Ascii Sorted.
From stdpp Require Import base option list.

Local Open Scope Z_scope.

(** ** JavaScript numbers

    The numbers the engine computes with are samples read from a
    [Float32Array], the constants [-1], [1], [0x8000], [0x7FFF], and clock
    readings.  A finite value is modelled by the rational it denotes.  For
    the encoder this is exact: a [Float32Array] element has a 24-bit
    significand, so its product with [0x8000] (a power of two) or with
    [0x7FFF] (15 bits) is representable in binary64 and the multiplication
    does not round.  For the karaoke loop the quotients and products are the
    exact ones; the rounding of binary64 is not modelled.  The two zeros are
    identified: both are written as the integer 0. *)
Module JS.

Inductive number : Type :=
  | Fin (q : Q)
  | NaN
  | PosInf
  | NegInf.

Definition of_Z (z : Z) : number := Fin (inject_Z z).

(** [Math.min(a, b)] *)
Definition Math_min (a b : number) : number :=
  match a, b with
  | NaN, _ | _, NaN => NaN
  | NegInf, _ | _, NegInf => NegInf
  | PosInf, x | x, PosInf => x
  | Fin p, Fin q => if Qle_bool p q then Fin p else Fin q
  end.

(** [Math.max(a, b)] *)
Definition Math_max (a b : number) : number :=
  match a, b with
  | NaN, _ | _, NaN => NaN
  | PosInf, _ | _, PosInf => PosInf
  | NegInf, x | x, NegInf => x
  | Fin p, Fin q => if Qle_bool p q then Fin q else Fin p
  end.

(** [a < b]; false as soon as one side is [NaN] *)
Definition lt (a b : number) : bool :=
  match a, b with
  | NaN, _ | _, NaN => false
  | _, NegInf => false
  | NegInf, _ => true
  | PosInf, _ => false
  | _, PosInf => true
  | Fin p, Fin q => negb (Qle_bool q p)
  end.

Definition Qsgn (q : Q) : Z := Z.sgn (Qnum q).

(** [a * b] *)
Definition mul (a b : number) : number :=
  let inf (neg : bool) := if neg then NegInf else PosInf in
  let inf_times (neg : bool) (q : Q) :=
    match Qsgn q with
    | 0 => NaN
    | Zpos _ => inf neg
    | Zneg _ => inf (negb neg)
    end in
  match a, b with
  | NaN, _ | _, NaN => NaN
  | Fin p, Fin q => Fin (p * q)
  | PosInf, Fin q | Fin q, PosInf => inf_times false q
  | NegInf, Fin q | Fin q, NegInf => inf_times true q
  | PosInf, PosInf | NegInf, NegInf => PosInf
  | PosInf, NegInf | NegInf, PosInf => NegInf
  end.

(** Truncation toward zero of a rational. *)
Definition Qtrunc (q : Q) : Z := Z.quot (Qnum q) (Zpos (Qden q)).

(** The integer a number converts to before it is reduced to a field width
    (the first steps of [ToInt16], [ToUint16], [ToUint32]): not-a-number and
    the infinities give 0, a finite value is truncated toward zero. *)
Definition to_integer (x : number) : Z :=
  match x with
  | Fin q => Qtrunc q
  | NaN | PosInf | NegInf => 0
  end.

(** [a - b] *)
Definition sub (a b : number) : number :=
  match a, b with
  | NaN, _ | _, NaN => NaN
  | Fin p, Fin q => Fin (p - q)
  | PosInf, PosInf | NegInf, NegInf => NaN
  | PosInf, _ | _, NegInf => PosInf
  | NegInf, _ | _, PosInf => NegInf
  end.

(** [a / b]; a finite value over zero is an infinity, zero over zero is
    [NaN]. *)
Definition div (a b : number) : number :=
  let inf (neg : bool) := if neg then NegInf else PosInf in
  match a, b with
  | NaN, _ | _, NaN => NaN
  | Fin p, Fin q =>
      match Qsgn q with
      | 0 => match Qsgn p with 0 => NaN | Zpos _ => PosInf | Zneg _ => NegInf end
      | _ => Fin (p / q)
      end
  | Fin _, (PosInf | NegInf) => Fin 0
  | (PosInf | NegInf), (PosInf | NegInf) => NaN
  | PosInf, Fin q => inf (Qsgn q <? 0)
  | NegInf, Fin q => inf (0 <=? Qsgn q)
  end.

(** [Math.floor(a)] *)
Definition Math_floor (a : number) : number :=
  match a with
  | Fin q => of_Z (Qfloor q)
  | _ => a
  end.

End JS.

(** ** DataView over an ArrayBuffer

    The buffer is the list of its bytes, each a [Z] in [0, 256).  A setter
    whose range does not lie inside the buffer throws [RangeError]: [None].
    All multi-byte accesses of the source are little-endian (their last
    argument is [true]). *)
Module DataView.

Definition t := list Z.

(** [new ArrayBuffer(n)]: [n] zero bytes. *)
Definition new_ArrayBuffer (n : nat) : t := replicate n 0.

(** Store the bytes [bs] from index [offset] on. *)
Fixpoint store (view : t) (offset : nat) (bs : list Z) : t :=
  match bs with
  | [] => view
  | b :: bs' => store (<[offset := b]> view) (S offset) bs'
  end.

Definition set_bytes (view : t) (offset : nat) (bs : list Z) : option t :=
  if decide (offset + length bs <= length view)%nat
  then Some (store view offset bs)
  else None.

(** The [w] low bytes of [v], least significant first. *)
Fixpoint le_bytes (w : nat) (v : Z) : list Z :=
  match w with
  | O => []
  | S w' => v mod 256 :: le_bytes w' (v / 256)
  end.

Definition setUint8 (view : t) (offset : nat) (value : Z) : option t :=
  set_bytes view offset (le_bytes 1 value).

Definition setUint16 (view : t) (offset : nat) (value : Z) : option t :=
  set_bytes view offset (le_bytes 2 value).

Definition setUint32 (view : t) (offset : nat) (value : Z) : option t :=
  set_bytes view offset (le_bytes 4 value).

(** [setInt16] takes the number itself: the encoder passes it a product that
    is not an integer. *)
Definition setInt16 (view : t) (offset : nat) (value : JS.number) : option t :=
  set_bytes view offset (le_bytes 2 (JS.to_integer value)).

(** Readers, used to state what a written file declares. *)
Definition get_bytes (view : t) (offset w : nat) : option (list Z) :=
  if decide (offset + w <= length view)%nat
  then Some (take w (drop offset view))
  else None.

Fixpoint le_value (bs : list Z) : Z :=
  match bs with
  | [] => 0
  | b :: bs' => b + 256 * le_value bs'
  end.

Definition getUint16 (view : t) (offset : nat) : option Z :=
  le_value <$> get_bytes view offset 2.

Definition getUint32 (view : t) (offset : nat) : option Z :=
  le_value <$> get_bytes view offset 4.

Definition getInt16 (view : t) (offset : nat) : option Z :=
  (fun u => if decide (u < 32768) then u else u - 65536) <$> getUint16 view offset.

End DataView.

(** ** Counted loops

    [for (let i = 0; i < n; i++) body] over a state [S], where the body may
    throw. *)
Fixpoint for_from {S : Type} (i n : nat) (body : nat -> S -> option S) (s : S)
  : option S :=
  match n with
  | O => Some s
  | Datatypes.S n' => s' ← body i s; for_from (Datatypes.S i) n' body s'
  end.

Definition for_range {S : Type} (n : nat) (body : nat -> S -> option S) (s : S)
  : option S :=
  for_from 0 n body s.

(** ** The WAV encoder *)
Module Wav.
Import DataView.

(** The [AudioBuffer] of the host, as far as the encoder and the karaoke loop
    read it.  [numberOfChannels] is the number of channel arrays. *)
Record AudioBuffer : Type := mkAudioBuffer {
  sampleRate : Z;
  buffer_length : nat;
  channels : list (list JS.number)
}.

Definition numberOfChannels (buffer : AudioBuffer) : nat :=
  length (channels buffer).

(** [buffer.getChannelData(i)]; the encoder calls it below
    [numberOfChannels] only. *)
Definition getChannelData (buffer : AudioBuffer) (i : nat) : list JS.number :=
  default [] (channels buffer !! i).

(** [data[i]] on a typed array: outside the array the read is [undefined],
    which [Math.min] converts to [NaN]. *)
Definition typed_get (data : list JS.number) (i : nat) : JS.number :=
  default JS.NaN (data !! i).

(** [string.charCodeAt(i)] for [i < string.length]. *)
Definition charCodeAt (s : string) (i : nat) : Z :=
  match String.get i s with
  | Some c => Z.of_nat (nat_of_ascii c)
  | None => 0
  end.

Definition writeString (view : t) (offset : nat) (s : string) : option t :=
  for_range (String.length s)
    (fun i view => setUint8 view (offset + i) (charCodeAt s i)) view.

(** The argument of [setInt16] in the inner loop:
    [s < 0 ? s * 0x8000 : s * 0x7FFF] with
    [s = Math.max(-1, Math.min(1, sample))]. *)
Definition scaled (sample : JS.number) : JS.number :=
  let s := JS.Math_max (JS.of_Z (-1)) (JS.Math_min (JS.of_Z 1) sample) in
  if JS.lt s (JS.of_Z 0) then JS.mul s (JS.of_Z 32768) else JS.mul s (JS.of_Z 32767).

Definition audioBufferToWav (buffer : AudioBuffer) : option (list Z) :=
  let numChannels := numberOfChannels buffer in
  let sampleRate := sampleRate buffer in
  let format := 1 in
  let bitDepth := 16 in
  let length := (buffer_length buffer * numChannels * 2)%nat in
  let view := new_ArrayBuffer (44 + length) in
  view ← writeString view 0 "RIFF";
  view ← setUint32 view 4 (36 + Z.of_nat length);
  view ← writeString view 8 "WAVE";
  view ← writeString view 12 "fmt ";
  view ← setUint32 view 16 16;
  view ← setUint16 view 20 format;
  view ← setUint16 view 22 (Z.of_nat numChannels);
  view ← setUint32 view 24 sampleRate;
  view ← setUint32 view 28 (sampleRate * Z.of_nat numChannels * 2);
  view ← setUint16 view 32 (Z.of_nat numChannels * 2);
  view ← setUint16 view 34 bitDepth;
  view ← writeString view 36 "data";
  view ← setUint32 view 40 (Z.of_nat length);
  let channelData := getChannelData buffer <$> seq 0 numChannels in
  st ← for_range (buffer_length buffer) (fun i =>
          for_range numChannels (fun ch '(view, offset) =>
            let sample := typed_get (default [] (channelData !! ch)) i in
            view ← setInt16 view offset (scaled sample);
            Some (view, (offset + 2)%nat)))
        (view, 44%nat);
  Some st.1.

End Wav.

(** ** The encoder as a function from the buffer to the bytes

    [header_bytes] and [data_bytes] say what the writes of [audioBufferToWav]
    add up to; [audioBufferToWav_bytes] below proves that they do. *)
Module WavBytes.
Import DataView Wav.

Definition string_bytes (s : string) : list Z :=
  (fun i => charCodeAt s i mod 256) <$> seq 0 (String.length s).

Definition data_length (buffer : AudioBuffer) : nat :=
  (buffer_length buffer * numberOfChannels buffer * 2)%nat.

Definition header_bytes (buffer : AudioBuffer) : list Z :=
  let c := Z.of_nat (numberOfChannels buffer) in
  let rate := sampleRate buffer in
  let len := Z.of_nat (data_length buffer) in
  string_bytes "RIFF" ++ le_bytes 4 (36 + len) ++
  string_bytes "WAVE" ++
  string_bytes "fmt " ++ le_bytes 4 16 ++
  le_bytes 2 1 ++ le_bytes 2 c ++ le_bytes 4 rate ++
  le_bytes 4 (rate * c * 2) ++ le_bytes 2 (c * 2) ++ le_bytes 2 16 ++
  string_bytes "data" ++ le_bytes 4 len.

(** The two bytes of the sample of channel [ch] in frame [i]. *)
Definition sample_bytes (buffer : AudioBuffer) (i ch : nat) : list Z :=
  le_bytes 2 (JS.to_integer (scaled (typed_get (getChannelData buffer ch) i))).

Definition frame_bytes (buffer : AudioBuffer) (i : nat) : list Z :=
  flat_map (sample_bytes buffer i) (seq 0 (numberOfChannels buffer)).

Definition data_bytes (buffer : AudioBuffer) : list Z :=
  flat_map (frame_bytes buffer) (seq 0 (buffer_length buffer)).

(** The header fields are wide enough for the buffer's figures. *)
Definition header_fits (buffer : AudioBuffer) : Prop :=
  let c := Z.of_nat (numberOfChannels buffer) in
  0 <= sampleRate buffer < 2 ^ 32 /\
  sampleRate buffer * c * 2 < 2 ^ 32 /\
  c * 2 < 2 ^ 16 /\
  36 + Z.of_nat (data_length buffer) < 2 ^ 32.

(** The buffer with the sample of channel [ch] in frame [i] replaced. *)
Definition set_sample (buffer : AudioBuffer) (ch i : nat) (x : JS.number)
  : AudioBuffer :=
  mkAudioBuffer (sampleRate buffer) (buffer_length buffer)
    (alter (fun data => <[i := x]> data) ch (channels buffer)).

Definition sample_witness_buffer : AudioBuffer :=
  mkAudioBuffer 24000 2 [[JS.Fin (1 # 2); JS.Fin (- (3 # 2))]].

End WavBytes.


(** ** Strings of the component: UTF-16 code units *)
Module Text.

Definition jsstring := list Z.

Definition of_string (s : string) : jsstring :=
  (fun c => Z.of_nat (nat_of_ascii c)) <$> list_ascii_of_string s.

(** White space of the regular expression class [\s]. *)
Definition is_space (c : Z) : bool :=
  bool_decide (c ∈ [9; 10; 11; 12; 13; 32; 160; 5760; 8232; 8233; 8239; 8287;
                    12288; 65279])
  || ((8192 <=? c) && (c <=? 8202)).

Definition lt_sign : Z := 60.
Definition gt_sign : Z := 62.

Definition has_gt (s : jsstring) : bool := bool_decide (gt_sign ∈ s).

(** [s.replace(/<[^>]*>/g, '')]: a [<] starts a match when a [>] follows
    somewhere; the match ends at the first such [>]. *)
Fixpoint strip_tags_from (inside : bool) (s : jsstring) : jsstring :=
  match s with
  | [] => []
  | c :: s' =>
      if inside then
        strip_tags_from (negb (c =? gt_sign)) s'
      else if (c =? lt_sign) && has_gt s' then
        strip_tags_from true s'
      else
        c :: strip_tags_from false s'
  end.

Definition strip_tags (s : jsstring) : jsstring := strip_tags_from false s.

(** [s.split(/\s+/)]: [cur] is the word being read, in reverse; [in_ws]
    says that the previous unit was white space. *)
Fixpoint split_ws_from (cur : jsstring) (in_ws : bool) (s : jsstring)
  : list jsstring :=
  match s with
  | [] => [reverse cur]
  | c :: s' =>
      if is_space c then
        if in_ws then split_ws_from cur true s'
        else reverse cur :: split_ws_from [] true s'
      else split_ws_from (c :: cur) false s'
  end.

Definition split_ws (s : jsstring) : list jsstring := split_ws_from [] false s.

End Text.

(** ** The component [App]: state, host and handlers *)
Module App.
Import JS.

(** *** State of the component ([useState]) *)

(** An [AudioBuffer] object: [buf_id] is its identity, which is what the
    dependency arrays of the effects compare. *)
Record BufferObj : Type := mkBufferObj {
  buf_id : nat;
  buf : Wav.AudioBuffer
}.

(** [audioBuffer.duration] *)
Definition duration (b : BufferObj) : number :=
  div (of_Z (Z.of_nat (Wav.buffer_length (buf b)))) (of_Z (Wav.sampleRate (buf b))).

Record State : Type := mkState {
  text : Text.jsstring;
  playbackRate : Q;
  pitchShift : Q;
  emphasis : Q;
  audioContext : option nat;
  sourceNode : option nat;
  filterNode : option nat;
  isPlaying : bool;
  audioBuffer : option BufferObj;
  currentWordIndex : number
}.

(** *** The host: audio nodes, clock and animation frames *)

Inductive PlaybackState : Type := Unscheduled | Playing | Finished.

#[global] Instance PlaybackState_eq_dec : EqDecision PlaybackState.
Proof. solve_decision. Defined.

Record SourceNode : Type := mkSourceNode {
  src_buffer : option BufferObj;
  src_playbackRate : Q;
  src_detune : Q;
  src_output : option nat;       (* the filter it is connected to *)
  src_onended : bool;            (* [() => setIsPlaying(false)] installed *)
  src_state : PlaybackState;
  src_ended_queued : bool        (* its [ended] event waits for delivery *)
}.

Record FilterNode : Type := mkFilterNode {
  flt_type : string;
  flt_frequency : Q;
  flt_Q : Q;
  flt_gain : Q;
  flt_to_destination : bool
}.

(** What [updateKaraoke] closes over. *)
Record Closure : Type := mkClosure {
  cl_duration : number;
  cl_words : list Text.jsstring
}.

Inductive HostCall : Type :=
  | CallStart (source : nat)
  | CallStop (source : nat).

Record World : Type := mkWorld {
  st : State;
  startTimeRef : Q;
  animationFrameRef : nat;
  currentTime : Q;
  contexts : nat;                           (* audio contexts created *)
  sources : list SourceNode;                (* a node's id is its index *)
  filters : list FilterNode;
  frames : list (nat * Closure);            (* requested animation frames *)
  next_frame : nat;
  calls : list HostCall;                    (* start and stop calls, oldest first *)
  stop_twice_throws : bool                  (* the host rejects [stop()] on a finished source *)
}.

Definition with_st (f : State -> State) (w : World) : World :=
  mkWorld (f (st w)) (startTimeRef w) (animationFrameRef w) (currentTime w)
    (contexts w) (sources w) (filters w) (frames w) (next_frame w) (calls w)
    (stop_twice_throws w).

Definition with_startTimeRef (t : Q) (w : World) : World :=
  mkWorld (st w) t (animationFrameRef w) (currentTime w)
    (contexts w) (sources w) (filters w) (frames w) (next_frame w) (calls w)
    (stop_twice_throws w).

Definition with_animationFrameRef (id : nat) (w : World) : World :=
  mkWorld (st w) (startTimeRef w) id (currentTime w)
    (contexts w) (sources w) (filters w) (frames w) (next_frame w) (calls w)
    (stop_twice_throws w).

Definition with_currentTime (t : Q) (w : World) : World :=
  mkWorld (st w) (startTimeRef w) (animationFrameRef w) t
    (contexts w) (sources w) (filters w) (frames w) (next_frame w) (calls w)
    (stop_twice_throws w).

Definition with_contexts (n : nat) (w : World) : World :=
  mkWorld (st w) (startTimeRef w) (animationFrameRef w) (currentTime w)
    n (sources w) (filters w) (frames w) (next_frame w) (calls w)
    (stop_twice_throws w).

Definition with_sources (f : list SourceNode -> list SourceNode) (w : World) : World :=
  mkWorld (st w) (startTimeRef w) (animationFrameRef w) (currentTime w)
    (contexts w) (f (sources w)) (filters w) (frames w) (next_frame w) (calls w)
    (stop_twice_throws w).

Definition with_filters (f : list FilterNode -> list FilterNode) (w : World) : World :=
  mkWorld (st w) (startTimeRef w) (animationFrameRef w) (currentTime w)
    (contexts w) (sources w) (f (filters w)) (frames w) (next_frame w) (calls w)
    (stop_twice_throws w).

Definition with_frames (f : list (nat * Closure) -> list (nat * Closure))
    (next : nat) (w : World) : World :=
  mkWorld (st w) (startTimeRef w) (animationFrameRef w) (currentTime w)
    (contexts w) (sources w) (filters w) (f (frames w)) next (calls w)
    (stop_twice_throws w).

Definition with_call (c : HostCall) (w : World) : World :=
  mkWorld (st w) (startTimeRef w) (animationFrameRef w) (currentTime w)
    (contexts w) (sources w) (filters w) (frames w) (next_frame w) (calls w ++ [c])
    (stop_twice_throws w).

Arguments with_st f w /.
Arguments with_startTimeRef t w /.
Arguments with_animationFrameRef id w /.
Arguments with_currentTime t w /.
Arguments with_contexts n w /.
Arguments with_sources f w /.
Arguments with_filters f w /.
Arguments with_frames f next w /.
Arguments with_call c w /.

(** *** Computations that may throw *)

Inductive exn : Type := InvalidStateError.

Inductive outcome (A : Type) : Type :=
  | Ok (a : A) (w : World)
  | Throw (e : exn) (w : World).
Arguments Ok {A} a w.
Arguments Throw {A} e w.

Definition M (A : Type) : Type := World -> outcome A.

Definition ret {A} (a : A) : M A := fun w => Ok a w.

Definition bind {A B} (m : M A) (k : A -> M B) : M B :=
  fun w => match m w with
           | Ok a w' => k a w'
           | Throw e w' => Throw e w'
           end.

#[global] Instance M_ret : MRet M := @ret.
#[global] Instance M_bind : MBind M := fun A B k m => bind m k.

Definition get {A} (f : World -> A) : M A := fun w => Ok (f w) w.
Definition modify (f : World -> World) : M unit := fun w => Ok tt (f w).
Definition throw {A} (e : exn) : M A := fun w => Throw e w.

(** [try { m } catch (e) {}] *)
Definition try_catch (m : M unit) : M unit :=
  fun w => match m w with
           | Ok a w' => Ok a w'
           | Throw _ w' => Ok tt w'
           end.

(** The world a computation leaves, thrown or not. *)
Definition world_of {A} (o : outcome A) : World :=
  match o with Ok _ w | Throw _ w => w end.

Definition raised {A} (o : outcome A) : bool :=
  match o with Ok _ _ => false | Throw _ _ => true end.

(** *** State setters ([setX] of [useState]) *)

Definition set_text (v : Text.jsstring) (s : State) : State :=
  mkState v (playbackRate s) (pitchShift s) (emphasis s) (audioContext s)
    (sourceNode s) (filterNode s) (isPlaying s) (audioBuffer s) (currentWordIndex s).
Definition set_playbackRate (v : Q) (s : State) : State :=
  mkState (text s) v (pitchShift s) (emphasis s) (audioContext s)
    (sourceNode s) (filterNode s) (isPlaying s) (audioBuffer s) (currentWordIndex s).
Definition set_pitchShift (v : Q) (s : State) : State :=
  mkState (text s) (playbackRate s) v (emphasis s) (audioContext s)
    (sourceNode s) (filterNode s) (isPlaying s) (audioBuffer s) (currentWordIndex s).
Definition set_emphasis (v : Q) (s : State) : State :=
  mkState (text s) (playbackRate s) (pitchShift s) v (audioContext s)
    (sourceNode s) (filterNode s) (isPlaying s) (audioBuffer s) (currentWordIndex s).
Definition set_audioContext (v : option nat) (s : State) : State :=
  mkState (text s) (playbackRate s) (pitchShift s) (emphasis s) v
    (sourceNode s) (filterNode s) (isPlaying s) (audioBuffer s) (currentWordIndex s).
Definition set_sourceNode (v : option nat) (s : State) : State :=
  mkState (text s) (playbackRate s) (pitchShift s) (emphasis s) (audioContext s)
    v (filterNode s) (isPlaying s) (audioBuffer s) (currentWordIndex s).
Definition set_filterNode (v : option nat) (s : State) : State :=
  mkState (text s) (playbackRate s) (pitchShift s) (emphasis s) (audioContext s)
    (sourceNode s) v (isPlaying s) (audioBuffer s) (currentWordIndex s).
Definition set_isPlaying (v : bool) (s : State) : State :=
  mkState (text s) (playbackRate s) (pitchShift s) (emphasis s) (audioContext s)
    (sourceNode s) (filterNode s) v (audioBuffer s) (currentWordIndex s).
Definition set_audioBuffer (v : option BufferObj) (s : State) : State :=
  mkState (text s) (playbackRate s) (pitchShift s) (emphasis s) (audioContext s)
    (sourceNode s) (filterNode s) (isPlaying s) v (currentWordIndex s).
Definition set_currentWordIndex (v : number) (s : State) : State :=
  mkState (text s) (playbackRate s) (pitchShift s) (emphasis s) (audioContext s)
    (sourceNode s) (filterNode s) (isPlaying s) (audioBuffer s) v.

Definition setText v : M unit := modify (with_st (set_text v)).
Definition setPlaybackRate v : M unit := modify (with_st (set_playbackRate v)).
Definition setPitchShift v : M unit := modify (with_st (set_pitchShift v)).
Definition setEmphasis v : M unit := modify (with_st (set_emphasis v)).
Definition setAudioContext v : M unit := modify (with_st (set_audioContext v)).
Definition setSourceNode v : M unit := modify (with_st (set_sourceNode v)).
Definition setFilterNode v : M unit := modify (with_st (set_filterNode v)).
Definition setIsPlaying v : M unit := modify (with_st (set_isPlaying v)).
Definition setAudioBuffer v : M unit := modify (with_st (set_audioBuffer v)).
Definition setCurrentWordIndex v : M unit := modify (with_st (set_currentWordIndex v)).

(** *** Host calls *)

Definition src_set_buffer (b : BufferObj) (s : SourceNode) : SourceNode :=
  mkSourceNode (Some b) (src_playbackRate s) (src_detune s) (src_output s)
    (src_onended s) (src_state s) (src_ended_queued s).
Definition src_set_playbackRate (v : Q) (s : SourceNode) : SourceNode :=
  mkSourceNode (src_buffer s) v (src_detune s) (src_output s)
    (src_onended s) (src_state s) (src_ended_queued s).
Definition src_set_detune (v : Q) (s : SourceNode) : SourceNode :=
  mkSourceNode (src_buffer s) (src_playbackRate s) v (src_output s)
    (src_onended s) (src_state s) (src_ended_queued s).
Definition src_set_output (f : nat) (s : SourceNode) : SourceNode :=
  mkSourceNode (src_buffer s) (src_playbackRate s) (src_detune s) (Some f)
    (src_onended s) (src_state s) (src_ended_queued s).
Definition src_set_onended (s : SourceNode) : SourceNode :=
  mkSourceNode (src_buffer s) (src_playbackRate s) (src_detune s) (src_output s)
    true (src_state s) (src_ended_queued s).
Definition src_set_state (v : PlaybackState) (queued : bool) (s : SourceNode)
  : SourceNode :=
  mkSourceNode (src_buffer s) (src_playbackRate s) (src_detune s) (src_output s)
    (src_onended s) v queued.

Definition flt_set_type (v : string) (f : FilterNode) : FilterNode :=
  mkFilterNode v (flt_frequency f) (flt_Q f) (flt_gain f) (flt_to_destination f).
Definition flt_set_frequency (v : Q) (f : FilterNode) : FilterNode :=
  mkFilterNode (flt_type f) v (flt_Q f) (flt_gain f) (flt_to_destination f).
Definition flt_set_Q (v : Q) (f : FilterNode) : FilterNode :=
  mkFilterNode (flt_type f) (flt_frequency f) v (flt_gain f) (flt_to_destination f).
Definition flt_set_gain (v : Q) (f : FilterNode) : FilterNode :=
  mkFilterNode (flt_type f) (flt_frequency f) (flt_Q f) v (flt_to_destination f).
Definition flt_connect_destination (f : FilterNode) : FilterNode :=
  mkFilterNode (flt_type f) (flt_frequency f) (flt_Q f) (flt_gain f) true.

(** [new AudioContext({sampleRate: 24000})] *)
Definition new_AudioContext : M nat :=
  fun w => Ok (contexts w) (with_contexts (S (contexts w)) w).

(** [ctx.createBiquadFilter()], with the defaults of the Web Audio API. *)
Definition createBiquadFilter : M nat :=
  fun w => Ok (length (filters w))
              (with_filters (fun fs => fs ++ [mkFilterNode "lowpass" 350 1 0 false]) w).

(** [ctx.createBufferSource()] *)
Definition createBufferSource : M nat :=
  fun w => Ok (length (sources w))
              (with_sources
                 (fun ss => ss ++ [mkSourceNode None 1 0 None false Unscheduled false]) w).

Definition update_source (id : nat) (f : SourceNode -> SourceNode) : M unit :=
  modify (with_sources (alter f id)).

Definition update_filter (id : nat) (f : FilterNode -> FilterNode) : M unit :=
  modify (with_filters (alter f id)).

(** [source.start()]: a second start throws. *)
Definition source_start (id : nat) : M unit :=
  fun w =>
    let w := with_call (CallStart id) w in
    match src_state <$> sources w !! id with
    | Some Unscheduled => Ok tt (with_sources (alter (src_set_state Playing false) id) w)
    | Some _ => Throw InvalidStateError w
    | None => Ok tt w
    end.

(** [source.stop()]: throws on a source that was never started; ends a
    playing source, whose [ended] event is then queued; on a finished source
    it does nothing, or throws on hosts that reject it. *)
Definition source_stop (id : nat) : M unit :=
  fun w =>
    let w := with_call (CallStop id) w in
    match src_state <$> sources w !! id with
    | Some Unscheduled => Throw InvalidStateError w
    | Some Playing => Ok tt (with_sources (alter (src_set_state Finished true) id) w)
    | Some Finished => if stop_twice_throws w then Throw InvalidStateError w else Ok tt w
    | None => Ok tt w
    end.

(** [requestAnimationFrame(updateKaraoke)] *)
Definition requestAnimationFrame (cl : Closure) : M nat :=
  fun w => Ok (next_frame w)
              (with_frames (fun fs => fs ++ [(next_frame w, cl)]) (S (next_frame w)) w).

(** [cancelAnimationFrame(id)] *)
Definition cancelAnimationFrame (id : nat) : M unit :=
  fun w => Ok tt (with_frames (filter (fun f => f.1 <> id)) (next_frame w) w).

(** *** Handlers of [src/App.tsx]

    A handler reads the state of the render it was created in: [props]. *)

Definition initAudio (props : State) : M unit :=
  match audioContext props with
  | None =>
      ctx ← new_AudioContext;
      setAudioContext (Some ctx);;
      filter ← createBiquadFilter;
      update_filter filter (flt_set_type "peaking");;
      update_filter filter (flt_set_frequency 3000);;
      update_filter filter (flt_set_Q 1);;
      update_filter filter (flt_set_gain 0);;
      update_filter filter flt_connect_destination;;
      setFilterNode (Some filter)
  | Some _ => ret tt
  end.

Definition playAudio (props : State) (buffer : option BufferObj) (ctx : option nat)
  : M unit :=
  match buffer, ctx with
  | Some buffer, Some ctx =>
      match sourceNode props with
      | Some s => try_catch (source_stop s)
      | None => ret tt
      end;;
      filter ← match filterNode props with
               | Some filter => ret filter
               | None =>
                   filter ← createBiquadFilter;
                   update_filter filter (flt_set_type "peaking");;
                   update_filter filter (flt_set_frequency 3000);;
                   update_filter filter (flt_set_Q 1);;
                   update_filter filter flt_connect_destination;;
                   setFilterNode (Some filter);;
                   ret filter
               end;
      source ← createBufferSource;
      update_source source (src_set_buffer buffer);;
      update_source source (src_set_playbackRate (playbackRate props));;
      update_source source (src_set_detune (pitchShift props));;
      update_source source (src_set_output filter);;
      update_source source src_set_onended;;
      now ← get currentTime;
      modify (with_startTimeRef now);;
      source_start source;;
      setSourceNode (Some source);;
      setIsPlaying true
  | _, _ => ret tt
  end.

Definition handleStop (props : State) : M unit :=
  match sourceNode props with
  | Some s => try_catch (source_stop s);; setIsPlaying false
  | None => ret tt
  end.

(** *** Effects *)

(** "Update Audio Params in Real-time" *)
Definition paramEffect (props : State) : M unit :=
  match sourceNode props with
  | Some s =>
      try_catch (update_source s (src_set_playbackRate (playbackRate props));;
                 update_source s (src_set_detune (pitchShift props)))
  | None => ret tt
  end;;
  match filterNode props with
  | Some f => update_filter f (flt_set_gain (emphasis props))
  | None => ret tt
  end.

(** The frame callback of the karaoke loop. *)
Definition updateKaraoke (cl : Closure) : M unit :=
  now ← get currentTime;
  start ← get startTimeRef;
  let elapsed := sub (Fin now) (Fin start) in
  let progress := Math_min (of_Z 1) (div elapsed (cl_duration cl)) in
  let index := Math_floor (mul progress (of_Z (Z.of_nat (length (cl_words cl))))) in
  setCurrentWordIndex index;;
  if lt elapsed (cl_duration cl) then
    id ← requestAnimationFrame cl;
    modify (with_animationFrameRef id)
  else ret tt.

(** [words] and [duration] of the karaoke effect. *)
Definition karaoke_closure (props : State) (b : BufferObj) : Closure :=
  mkClosure (div (duration b) (Fin (playbackRate props)))
            (Text.split_ws (Text.strip_tags (text props))).

(** "Karaoke Loop" *)
Definition karaokeEffect (props : State) : M unit :=
  match isPlaying props, audioBuffer props, audioContext props with
  | true, Some b, Some _ =>
      id ← requestAnimationFrame (karaoke_closure props b);
      modify (with_animationFrameRef id)
  | _, _, _ =>
      id ← get animationFrameRef;
      cancelAnimationFrame id;;
      setCurrentWordIndex (of_Z (-1))
  end.

(** Its clean-up function. *)
Definition karaokeCleanup : M unit :=
  id ← get animationFrameRef;
  cancelAnimationFrame id.

(** *** Rendering: which effects run after a state change *)

Definition same_buffer (a b : option BufferObj) : bool :=
  bool_decide (buf_id <$> a = buf_id <$> b).

Definition param_deps_same (prev next : State) : bool :=
  Qeq_bool (playbackRate prev) (playbackRate next)
  && Qeq_bool (pitchShift prev) (pitchShift next)
  && Qeq_bool (emphasis prev) (emphasis next)
  && bool_decide (sourceNode prev = sourceNode next)
  && bool_decide (filterNode prev = filterNode next).

Definition karaoke_deps_same (prev next : State) : bool :=
  bool_decide (isPlaying prev = isPlaying next)
  && bool_decide (audioContext prev = audioContext next)
  && same_buffer (audioBuffer prev) (audioBuffer next)
  && bool_decide (text prev = text next)
  && Qeq_bool (playbackRate prev) (playbackRate next).

(** After a render whose state differs from [prev]: the clean-up of every
    effect with a changed dependency, then their bodies in source order.
    What the karaoke effect sets ([currentWordIndex]) is no dependency, so
    the render it causes runs no effect. *)
Definition flush (prev : State) : M unit :=
  next ← get st;
  (if karaoke_deps_same prev next then ret tt else karaokeCleanup);;
  (if param_deps_same prev next then ret tt else paramEffect next);;
  (if karaoke_deps_same prev next then ret tt else karaokeEffect next).

(** Run [h], then render. *)
Definition invoke (h : M unit) : M unit :=
  prev ← get st;
  h;;
  flush prev.

(** Run a handler of the current render. *)
Definition dispatch (h : State -> M unit) : M unit :=
  props ← get st;
  invoke (h props).

(** *** What happens to the component

    [initAudio] and [handleStop] run from the current render.  [playAudio]
    is called by [handleSynthesis] alone, after its request has returned,
    from the render of the click: [render] of [EPlay]. *)

Inductive event : Type :=
  | EInitAudio
  | EPlay (render : State) (buffer : option BufferObj) (ctx : option nat)
  | EStop
  | ESetPlaybackRate (v : Q)
  | ESetPitchShift (v : Q)
  | ESetEmphasis (v : Q)
  | ESetText (v : Text.jsstring)
  | ESetAudioBuffer (v : option BufferObj)
  | EFinish (source : nat)       (* a playing source reaches the end of its buffer *)
  | EEnded (source : nat)        (* its [ended] event is delivered *)
  | EAdvance (d : Q)             (* the clock moves on by [d >= 0] *)
  | EFrame.                      (* the display refreshes *)

Definition source_finish (id : nat) : M unit :=
  fun w =>
    match src_state <$> sources w !! id with
    | Some Playing => Ok tt (with_sources (alter (src_set_state Finished true) id) w)
    | _ => Ok tt w
    end.

Definition deliver_ended (id : nat) : M unit :=
  fun w =>
    match sources w !! id with
    | Some s =>
        if src_ended_queued s then
          (update_source id (src_set_state (src_state s) false);;
           if src_onended s then invoke (setIsPlaying false) else ret tt) w
        else Ok tt w
    | None => Ok tt w
    end.

Definition advance (d : Q) : M unit :=
  fun w => if Qle_bool 0 d then Ok tt (with_currentTime (currentTime w + d) w)
           else Ok tt w.

Fixpoint run_callbacks (cbs : list (nat * Closure)) : M unit :=
  match cbs with
  | [] => ret tt
  | (_, cl) :: rest => invoke (updateKaraoke cl);; run_callbacks rest
  end.

(** The callbacks requested before the frame run; what they request is for
    the next frame. *)
Definition animation_frame : M unit :=
  fun w => run_callbacks (frames w) (with_frames (fun _ => []) (next_frame w) w).

Definition step (e : event) : M unit :=
  match e with
  | EInitAudio => dispatch initAudio
  | EPlay render buffer ctx => invoke (playAudio render buffer ctx)
  | EStop => dispatch handleStop
  | ESetPlaybackRate v => invoke (setPlaybackRate v)
  | ESetPitchShift v => invoke (setPitchShift v)
  | ESetEmphasis v => invoke (setEmphasis v)
  | ESetText v => invoke (setText v)
  | ESetAudioBuffer v => invoke (setAudioBuffer v)
  | EFinish s => source_finish s
  | EEnded s => deliver_ended s
  | EAdvance d => advance d
  | EFrame => animation_frame
  end.

Fixpoint run (es : list event) : M unit :=
  match es with
  | [] => ret tt
  | e :: es' => step e;; run es'
  end.

(** The component after its first render; its effects leave it as it is. *)
Definition initial (strict : bool) : World :=
  mkWorld (mkState [] 1 0 0 None None None false None (of_Z (-1)))
          0 0 0 0 [] [] [] 1 [] strict.

(** The button of [handleSynthesis] is disabled while a synthesis runs, and
    nothing but [playAudio] sets the source node: the render a call of
    [playAudio] comes from holds the source node the state holds.  Its other
    fields may be older. *)
Definition enabled (e : event) (w : World) : bool :=
  match e with
  | EPlay render _ _ => bool_decide (sourceNode render = sourceNode (st w))
  | _ => true
  end.

Fixpoint enabled_run (es : list event) (w : World) : bool :=
  match es with
  | [] => true
  | e :: es' => enabled e w && enabled_run es' (world_of (step e w))
  end.

Definition reachable (w : World) : Prop :=
  exists strict es,
    enabled_run es (initial strict) = true /\ run es (initial strict) = Ok tt w.

(** The sources that are playing. *)
Definition active (w : World) : list nat :=
  filter (fun id => src_state <$> sources w !! id = Some Playing)
         (seq 0 (length (sources w))).

End App.

(** ** Quantisation of one sample, as the specification words it *)
Module Quantize.

Definition Qlt_bool (x y : Q) : bool := negb (Qle_bool y x).

(** Clamp to [-1, 1]. *)
Definition clamp_unit (x : Q) : Q :=
  if Qlt_bool x (-1) then -1 else if Qlt_bool 1 x then 1 else x.

(** A negative clamped value is scaled by 32768, a non-negative one by
    32767; the 16-bit integer is the product without its fraction. *)
Definition pcm16_of_clamped (s : Q) : Z :=
  if Qlt_bool s 0 then JS.Qtrunc (s * 32768) else JS.Qtrunc (s * 32767).

(** The clamped value of a sample that is a number; the infinities clamp to
    the ends of the range. *)
Definition clamped (x : JS.number) : option Q :=
  match x with
  | JS.Fin q => Some (clamp_unit q)
  | JS.PosInf => Some 1%Q
  | JS.NegInf => Some (-1)%Q
  | JS.NaN => None
  end.

End Quantize.

(** ** The karaoke index, as the specification words it *)
Module KaraokeSpec.
Import Quantize.

Definition clamp (x lo hi : Q) : Q :=
  if Qlt_bool x lo then lo else if Qlt_bool hi x then hi else x.

(** [index = floor(clamp(elapsed / duration, 0, 1) * wordCount)] *)
Definition index (elapsed duration : Q) (wordCount : nat) : Z :=
  Qfloor (clamp (elapsed / duration) 0 1 * inject_Z (Z.of_nat wordCount)).

End KaraokeSpec.

(** ** The component as a function on worlds

    What each handler, effect and event does to the world when it returns;
    [step_ok] below proves that every event returns, and returns this world.
    With them: the invariants of the reachable worlds and the observations the
    properties are stated with. *)
Module AppWorld.
Import JS App.

(** The index [updateKaraoke] computes, for an elapsed time and a positive
    duration. *)
Definition tick_index (elapsed duration : Q) (n : nat) : number :=
  Math_floor
    (mul (Math_min (of_Z 1) (div (Fin elapsed) (Fin duration)))
         (of_Z (Z.of_nat n))).

(** The world after the frame callback. *)
Definition tick_world (cl : Closure) (w : World) : World :=
  let elapsed := (currentTime w - startTimeRef w)%Q in
  let index :=
    Math_floor
      (mul (Math_min (of_Z 1) (div (Fin elapsed) (cl_duration cl)))
           (of_Z (Z.of_nat (length (cl_words cl))))) in
  let w1 := with_st (set_currentWordIndex index) w in
  if lt (Fin elapsed) (cl_duration cl) then
    with_animationFrameRef (next_frame w)
      (with_frames (fun fs => fs ++ [(next_frame w, cl)]) (S (next_frame w)) w1)
  else w1.

(** [try { source.stop() } catch (e) {}] *)
Definition stop_world (s : nat) (w : World) : World :=
  let w := with_call (CallStop s) w in
  match src_state <$> sources w !! s with
  | Some Playing => with_sources (alter (src_set_state Finished true) s) w
  | _ => w
  end.

Definition paramEffect_world (props : State) (w : World) : World :=
  let w1 :=
    match sourceNode props with
    | Some s =>
        with_sources (alter (src_set_detune (pitchShift props)) s)
          (with_sources (alter (src_set_playbackRate (playbackRate props)) s) w)
    | None => w
    end in
  match filterNode props with
  | Some f => with_filters (alter (flt_set_gain (emphasis props)) f) w1
  | None => w1
  end.

Definition cancel_world (w : World) : World :=
  with_frames (filter (fun f => f.1 <> animationFrameRef w)) (next_frame w) w.

Definition request_world (cl : Closure) (w : World) : World :=
  with_animationFrameRef (next_frame w)
    (with_frames (fun fs => fs ++ [(next_frame w, cl)]) (S (next_frame w)) w).

Definition karaokeEffect_world (props : State) (w : World) : World :=
  match isPlaying props, audioBuffer props, audioContext props with
  | true, Some b, Some _ => request_world (karaoke_closure props b) w
  | _, _, _ => with_st (set_currentWordIndex (of_Z (-1))) (cancel_world w)
  end.

Definition flush_world (prev : State) (w : World) : World :=
  let next := st w in
  let w1 := if karaoke_deps_same prev next then w else cancel_world w in
  let w2 := if param_deps_same prev next then w1 else paramEffect_world next w1 in
  if karaoke_deps_same prev next then w2 else karaokeEffect_world next w2.

Definition handleStop_world (props : State) (w : World) : World :=
  match sourceNode props with
  | Some s => with_st (set_isPlaying false) (stop_world s w)
  | None => w
  end.

Definition initAudio_world (props : State) (w : World) : World :=
  match audioContext props with
  | None =>
      with_st (set_filterNode (Some (length (filters w))))
        (with_filters (fun fs => fs ++ [mkFilterNode "peaking" 3000 1 0 true])
           (with_st (set_audioContext (Some (contexts w)))
              (with_contexts (S (contexts w)) w)))
  | Some _ => w
  end.

Definition playAudio_world (props : State) (buffer : BufferObj) (w : World) : World :=
  let w1 := match sourceNode props with Some s => stop_world s w | None => w end in
  let filter := default (length (filters w1)) (filterNode props) in
  let w2 :=
    match filterNode props with
    | Some _ => w1
    | None =>
        with_st (set_filterNode (Some filter))
          (with_filters (fun fs => fs ++ [mkFilterNode "peaking" 3000 1 0 true]) w1)
    end in
  let source := length (sources w2) in
  with_st (fun s => set_isPlaying true (set_sourceNode (Some source) s))
    (with_call (CallStart source)
       (with_startTimeRef (currentTime w2)
          (with_sources
             (fun ss => ss ++ [mkSourceNode (Some buffer) (playbackRate props)
                                 (pitchShift props) (Some filter) true
                                 Playing false])
             w2))).

Definition finish_world (s : nat) (w : World) : World :=
  match src_state <$> sources w !! s with
  | Some Playing => with_sources (alter (src_set_state Finished true) s) w
  | _ => w
  end.

Definition ended_world (s : nat) (w : World) : World :=
  match sources w !! s with
  | Some src =>
      if src_ended_queued src then
        let w1 := with_sources (alter (src_set_state (src_state src) false) s) w in
        if src_onended src
        then flush_world (st w1) (with_st (set_isPlaying false) w1)
        else w1
      else w
  | None => w
  end.

Definition advance_world (d : Q) (w : World) : World :=
  if Qle_bool 0 d then with_currentTime (currentTime w + d) w else w.

Definition callbacks_world (cbs : list (nat * Closure)) (w : World) : World :=
  foldl (fun w cb => tick_world cb.2 w) w cbs.

Definition frame_world (w : World) : World :=
  callbacks_world (frames w) (with_frames (fun _ => []) (next_frame w) w).

Definition step_world (e : event) (w : World) : World :=
  match e with
  | EInitAudio => flush_world (st w) (initAudio_world (st w) w)
  | EPlay render (Some buffer) (Some _) =>
      flush_world (st w) (playAudio_world render buffer w)
  | EPlay _ _ _ => flush_world (st w) w
  | EStop => flush_world (st w) (handleStop_world (st w) w)
  | ESetPlaybackRate v => flush_world (st w) (with_st (set_playbackRate v) w)
  | ESetPitchShift v => flush_world (st w) (with_st (set_pitchShift v) w)
  | ESetEmphasis v => flush_world (st w) (with_st (set_emphasis v) w)
  | ESetText v => flush_world (st w) (with_st (set_text v) w)
  | ESetAudioBuffer v => flush_world (st w) (with_st (set_audioBuffer v) w)
  | EFinish s => finish_world s w
  | EEnded s => ended_world s w
  | EAdvance d => advance_world d w
  | EFrame => frame_world w
  end.

Definition run_world (es : list event) (w : World) : World :=
  foldl (fun w e => step_world e w) w es.

(** The playback states of the source nodes. *)
Definition statuses (w : World) : list PlaybackState := src_state <$> sources w.

Definition is_playing (w : World) (id : nat) : Prop :=
  statuses w !! id = Some Playing.

Record Inv (w : World) : Prop := mkInv {
  inv_active : forall id, is_playing w id -> sourceNode (st w) = Some id;
  inv_frames : frames w = [] \/ exists cl, frames w = [(animationFrameRef w, cl)];
  inv_idle : isPlaying (st w) = false ->
             frames w = [] /\ currentWordIndex (st w) = of_Z (-1);
  inv_clock : (startTimeRef w <= currentTime w)%Q
}.

Definition one_frame (w : World) : Prop :=
  frames w = [] \/ exists cl, frames w = [(animationFrameRef w, cl)].

Record Inv2 (w : World) : Prop := mkInv2 {
  inv_source : forall s, sourceNode (st w) = Some s -> (s < length (sources w))%nat;
  inv_filter : forall f, filterNode (st w) = Some f -> (f < length (filters w))%nat;
  inv_onended : forall id src, sources w !! id = Some src -> src_onended src = true;
  inv_playing : isPlaying (st w) = true -> is_Some (sourceNode (st w))
}.

Definition shape (w : World) : nat * nat * list bool :=
  (length (sources w), length (filters w), src_onended <$> sources w).

(** The world with its log of host calls left out. *)
Definition engine (w : World) : World :=
  mkWorld (st w) (startTimeRef w) (animationFrameRef w) (currentTime w)
    (contexts w) (sources w) (filters w) (frames w) (next_frame w) []
    (stop_twice_throws w).

(** The world [playAudio] stops the previous source in. *)
Definition stopped_world (w : World) : World :=
  match sourceNode (st w) with Some s => stop_world s w | None => w end.

(** A buffer of two silent frames. *)
Definition two_frames : BufferObj :=
  mkBufferObj 0 (Wav.mkAudioBuffer 24000 2 [[Fin 0; Fin 0]]).

(** The render of the first click: no audio node exists yet. *)
Definition first_render : State := st (initial false).

(** The component while it plays that buffer. *)
Definition playing_world : World :=
  run_world [EInitAudio; EPlay first_render (Some two_frames) (Some 0%nat)]
    (initial false).

(** A source that was played to its end on a host that rejects a second
    [stop()]. *)
Definition ended_world_example : World :=
  run_world [EInitAudio; EPlay first_render (Some two_frames) (Some 0%nat);
             EFinish 0; EEnded 0]
    (initial true).

(** Events that only let time pass. *)
Definition time_event (e : event) : Prop :=
  e = EFrame \/ exists d, e = EAdvance d.

(** The indices the frame callbacks emit while [es] happen. *)
Fixpoint ticks (es : list event) (w : World) : list number :=
  match es with
  | [] => []
  | e :: es' =>
      let w' := world_of (step e w) in
      match e, frames w with
      | EFrame, _ :: _ => currentWordIndex (st w') :: ticks es' w'
      | _, _ => ticks es' w'
      end
  end.

Definition positive_duration (cl : Closure) : Prop :=
  exists d, cl_duration cl = Fin d /\ (0 < d)%Q.

(** The transcript A B C D and a 4 s buffer at 24000 Hz, two seconds into
    their playback. *)
Definition four_seconds : BufferObj :=
  mkBufferObj 0 (Wav.mkAudioBuffer 24000 (Z.to_nat 96000) [[]]).

Definition scenario_B : World :=
  run_world [ESetText (Text.of_string "A B C D");
             EInitAudio;
             ESetAudioBuffer (Some four_seconds);
             EPlay (set_text (Text.of_string "A B C D") first_render)
               (Some four_seconds) (Some 0%nat);
             EAdvance 2]
    (initial false).

(** Scenario B, six seconds into the playback of its four seconds. *)
Definition scenario_B_late : World := run_world [EAdvance 4] scenario_B.



Definition apply_source_params (props : State) (ss : list SourceNode)
  : list SourceNode :=
  match sourceNode props with
  | Some s =>
      alter (src_set_detune (pitchShift props)) s
        (alter (src_set_playbackRate (playbackRate props)) s ss)
  | None => ss
  end.

Definition apply_filter_params (props : State) (fs : list FilterNode)
  : list FilterNode :=
  match filterNode props with
  | Some f => alter (flt_set_gain (emphasis props)) f fs
  | None => fs
  end.


End AppWorld.

(** ** Loops whose body cannot throw *)
Fixpoint iter_from {S : Type} (i n : nat) (body : nat -> S -> S) (s : S) : S :=
  match n with
  | O => s
  | Datatypes.S n' => iter_from (Datatypes.S i) n' body (body i s)
  end.

(** ** The encoder of the audio worker ([workerCode]) *)
Module Worker.
Import DataView Wav.

(** [encodeWAV(samples, sampleRate)]: one channel, the samples of a
    [Float32Array]. *)
Definition encodeWAV (samples : list JS.number) (sampleRate : Z)
  : option (list Z) :=
  let numChannels := 1 in
  let format := 1 in
  let bitDepth := 16 in
  let length := (List.length samples * 1 * 2)%nat in
  let view := new_ArrayBuffer (44 + length) in
  view ← writeString view 0 "RIFF";
  view ← setUint32 view 4 (36 + Z.of_nat length);
  view ← writeString view 8 "WAVE";
  view ← writeString view 12 "fmt ";
  view ← setUint32 view 16 16;
  view ← setUint16 view 20 format;
  view ← setUint16 view 22 numChannels;
  view ← setUint32 view 24 sampleRate;
  view ← setUint32 view 28 (sampleRate * numChannels * 2);
  view ← setUint16 view 32 (numChannels * 2);
  view ← setUint16 view 34 bitDepth;
  view ← writeString view 36 "data";
  view ← setUint32 view 40 (Z.of_nat length);
  st ← for_range (List.length samples) (fun i '(view, offset) =>
          view ← setInt16 view offset (scaled (typed_get samples i));
          Some (view, (offset + 2)%nat))
        (view, 44%nat);
  Some st.1.

(** What the worker posts back. *)
Inductive reply : Type :=
  | WAV_READY (blob : list Z).

(** [self.onmessage]: [None] when the encoder throws. *)
Definition onmessage (type : string) (data : list JS.number) (sampleRate : Z)
  : option (list reply) :=
  if String.eqb type "ENCODE_WAV" then
    wavBlob ← encodeWAV data sampleRate;
    Some [WAV_READY wavBlob]
  else Some [].

End Worker.

(** ** [services/geminiService]: from the response to the [AudioBuffer]

    The request itself is outside: the stream of the response is taken as
    the list of its chunks, each with the base64 text of its first part when
    it has one.  [atob] is the host's; it returns the binary string, or
    throws.  Typed arrays are the lists of their elements; an [Int16Array]
    over a buffer reads it in the byte order of the host, which is
    little-endian. *)
Module Gemini.
Import DataView Wav.

Inductive error : Type :=
  | ApiKeyRequired          (* [Error("API Key is required")] *)
  | NoAudioData             (* [Error("No audio data generated")] *)
  | InvalidCharacterError   (* [atob] on text that is not base64 *)
  | RangeError              (* a typed array that does not fit its buffer *)
  | NotSupportedError.      (* [createBuffer] *)

Inductive result (A : Type) : Type :=
  | Done (a : A)
  | Fail (e : error).
Arguments Done {A} a.
Arguments Fail {A} e.

#[global] Instance result_ret : MRet result := @Done.
#[global] Instance result_bind : MBind result :=
  fun A B k m => match m with Done a => k a | Fail e => Fail e end.

(** [bytes[i] = v] on a [Uint8Array]: the value modulo 256; outside the array
    nothing is written. *)
Definition Uint8Array_set (bytes : list Z) (i : nat) (v : Z) : list Z :=
  <[i := v mod 256]> bytes.

(** [s.charCodeAt(i)] for [i < s.length]. *)
Definition charCodeAt (s : Text.jsstring) (i : nat) : Z := default 0 (s !! i).

Definition decodeBase64 (atob : Text.jsstring -> option Text.jsstring)
    (base64 : Text.jsstring) : result (list Z) :=
  match atob base64 with
  | None => Fail InvalidCharacterError
  | Some binaryString =>
      let len := length binaryString in
      let bytes := replicate len 0 in
      Done (iter_from 0 len
              (fun i bytes => Uint8Array_set bytes i (charCodeAt binaryString i))
              bytes)
  end.

(** [new Int16Array(data.buffer)], for an array [data] that spans its
    buffer, as the one [synthesizeSpeech] passes does: the 16-bit elements,
    and [RangeError] when the bytes do not pair up. *)
Definition int16s (data : list Z) : list Z :=
  (fun k => default 0 (getInt16 data (2 * k))) <$> seq 0 (length data / 2).

Definition Int16Array_of (data : list Z) : result (list Z) :=
  if decide (length data `mod` 2 = 0)%nat
  then Done (int16s data)
  else Fail RangeError.

(** What [createBuffer] accepts beyond what every host must: at least 32
    channels and the rates from 8000 to 96000 Hz. *)
Record Host : Type := mkHost {
  max_channels : nat;
  supports_rate : Z -> bool
}.

Definition conforming (h : Host) : Prop :=
  (32 <= max_channels h)%nat /\
  forall rate, 8000 <= rate <= 96000 -> supports_rate h rate = true.

(** The conversion of a number to an [unsigned long] argument. *)
Definition to_uint32 (x : JS.number) : Z := JS.to_integer x mod 2 ^ 32.

(** [audioContext.createBuffer(numberOfChannels, length, sampleRate)]: the
    channels are filled with zeros. *)
Definition createBuffer (h : Host) (numberOfChannels : nat) (length : JS.number)
    (sampleRate : Z) : result AudioBuffer :=
  let len := Z.to_nat (to_uint32 length) in
  if bool_decide (numberOfChannels = 0%nat)
     || bool_decide (max_channels h < numberOfChannels)%nat
     || bool_decide (len = 0%nat)
     || negb (supports_rate h sampleRate)
  then Fail NotSupportedError
  else Done (mkAudioBuffer sampleRate len
               (replicate numberOfChannels (replicate len (JS.Fin 0)))).

(** How often the body of [for (let i = 0; i < x; i++)] runs.  An infinite
    bound does not get that far: [createBuffer] has thrown. *)
Definition count_below (x : JS.number) : nat :=
  match x with
  | JS.Fin q => Z.to_nat (Qceiling q)
  | _ => 0%nat
  end.

(** [dataInt16[j]]: outside the array the read is [undefined]. *)
Definition Int16Array_get (dataInt16 : list Z) (j : nat) : JS.number :=
  typed_get (JS.of_Z <$> dataInt16) j.

(** The quotients by 32768 are sixteenth-bit fractions: storing them in a
    [Float32Array] does not round them. *)
Definition pcmToAudioBuffer (h : Host) (data : list Z) (sampleRate : Z)
    (numChannels : nat) : result AudioBuffer :=
  dataInt16 ← Int16Array_of data;
  let frameCount :=
    JS.div (JS.of_Z (Z.of_nat (length dataInt16)))
           (JS.of_Z (Z.of_nat numChannels)) in
  buffer ← createBuffer h numChannels frameCount sampleRate;
  Done (iter_from 0 numChannels (fun channel buffer =>
          iter_from 0 (count_below frameCount) (fun i buffer =>
            WavBytes.set_sample buffer channel i
              (JS.div (Int16Array_get dataInt16 (i * numChannels + channel))
                      (JS.of_Z 32768)))
            buffer)
          buffer).

(** The loop over the response: a chunk whose first part has no data, or
    empty data, is passed over. *)
Fixpoint collect (atob : Text.jsstring -> option Text.jsstring)
    (stream : list (option Text.jsstring)) (chunks : list (list Z))
  : result (list (list Z)) :=
  match stream with
  | [] => Done chunks
  | Some (c :: base64Part) :: rest =>
      bytes ← decodeBase64 atob (c :: base64Part);
      collect atob rest (chunks ++ [bytes])
  | _ :: rest => collect atob rest chunks
  end.

(** [combinedBytes.set(chunk, offset)] *)
Definition Uint8Array_set_all (bytes : list Z) (chunk : list Z) (offset : nat)
  : result (list Z) :=
  match set_bytes bytes offset chunk with
  | Some bytes' => Done bytes'
  | None => Fail RangeError
  end.

Fixpoint copy_chunks (chunks : list (list Z)) (combinedBytes : list Z)
    (offset : nat) : result (list Z) :=
  match chunks with
  | [] => Done combinedBytes
  | chunk :: rest =>
      combinedBytes ← Uint8Array_set_all combinedBytes chunk offset;
      copy_chunks rest combinedBytes (offset + length chunk)
  end.

Definition combine (chunks : list (list Z)) : result (list Z) :=
  let totalLength := foldl (fun acc curr => (acc + length curr)%nat) 0%nat chunks in
  copy_chunks chunks (replicate totalLength 0) 0.

(** [synthesizeSpeech], from the key check on. *)
Definition synthesizeSpeech (h : Host)
    (atob : Text.jsstring -> option Text.jsstring)
    (apiKey : Text.jsstring) (stream : list (option Text.jsstring))
  : result AudioBuffer :=
  match apiKey with
  | [] => Fail ApiKeyRequired
  | _ :: _ =>
      chunks ← collect atob stream [];
      match chunks with
      | [] => Fail NoAudioData
      | _ :: _ =>
          combinedBytes ← combine chunks;
          pcmToAudioBuffer h combinedBytes 24000 1
      end
  end.

(** What the loops of [pcmToAudioBuffer] add up to: channel [c] holds the
    elements [c], [c + n], [c + 2 n], ... of the [Int16Array], each over
    32768. *)
Definition deinterleaved (data : list Z) (numChannels : nat)
  : list (list JS.number) :=
  (fun c =>
     (fun i => JS.Fin (default 0 (int16s data !! (i * numChannels + c)%nat) # 32768))
       <$> seq 0 (length (int16s data) / numChannels))
    <$> seq 0 numChannels.

(** The bytes [decodeBase64] makes of a binary string. *)
Definition bytes_of (binaryString : Text.jsstring) : list Z :=
  (fun c => c mod 256) <$> binaryString.

(** The base64 texts the loop of [synthesizeSpeech] decodes. *)
Definition data_parts (stream : list (option Text.jsstring))
  : list Text.jsstring :=
  omap (fun part => match part with
                    | Some (c :: base64Part) => Some (c :: base64Part)
                    | _ => None
                    end) stream.

(** A host that accepts what it must and no more. *)
Definition minimal_host : Host :=
  mkHost 32 (fun rate => (8000 <=? rate) && (rate <=? 96000)).

End Gemini.

(** ** The pattern of [stripSSML] *)
Module Tags.
Import Text.

(** [/<[^>]*>/.test(s)]: some [<] has a [>] after it. *)
Fixpoint has_tag (s : jsstring) : bool :=
  match s with
  | [] => false
  | c :: s' => (c =? lt_sign) && has_gt s' || has_tag s'
  end.

(** Only the first and the last of the words may be empty. *)
Definition inner_nonempty (words : list jsstring) : Prop :=
  forall i w, words !! i = Some w -> (0 < i)%nat -> (S i < length words)%nat ->
    w <> [].

End Tags.

(** ** The nodes and the sliders *)
Module Tuning.
Import JS App AppWorld.

(** The source node of the state runs at the stored rate and detune. *)
Definition source_tuned (props : State) (ss : list SourceNode) : Prop :=
  forall s, sourceNode props = Some s ->
    exists src, ss !! s = Some src /\
      (src_playbackRate src == playbackRate props)%Q /\
      (src_detune src == pitchShift props)%Q.

(** The filter node of the state has the stored gain. *)
Definition filter_tuned (props : State) (fs : list FilterNode) : Prop :=
  forall f, filterNode props = Some f ->
    exists flt, fs !! f = Some flt /\ (flt_gain flt == emphasis props)%Q.

(** A filter as [initAudio] and [playAudio] set it up. *)
Definition peaking (flt : FilterNode) : Prop :=
  flt_type flt = "peaking"%string /\ flt_frequency flt = 3000%Q /\
  flt_Q flt = 1%Q /\ flt_to_destination flt = true.

Definition in_tune (w : World) : Prop :=
  source_tuned (st w) (sources w) /\ filter_tuned (st w) (filters w) /\
  Forall peaking (filters w).

(** What of the state and of the sources being in tune depends on. *)
Definition params (s : State) : option nat * option nat * Q * Q * Q :=
  (sourceNode s, filterNode s, playbackRate s, pitchShift s, emphasis s).

Definition tuning (w : World) : list (Q * Q) :=
  (fun src => (src_playbackRate src, src_detune src)) <$> sources w.

(** Moving the sliders and playing, in the middle of a playback. *)
Definition retuned_world : World :=
  run_world [ESetEmphasis 5; ESetPlaybackRate (3 # 2);
             EPlay (st scenario_B) (Some four_seconds) (Some 0%nat);
             ESetPitchShift 200]
    scenario_B.

End Tuning.

(** ** Example worlds of the engine *)
Module Examples.
Import JS App AppWorld.

(** A second play in the middle of the first: the first source has been
    stopped, and its [ended] event waits for delivery. *)
Definition replaced_world : World :=
  run_world [EPlay (st playing_world) (Some two_frames) (Some 0%nat)]
    playing_world.

End Examples.

(** ** The editor, the download and the API key ([src/App.tsx]) *)
Module Panel.
Import JS App.

(** [a === b] on numbers. *)
Definition strict_eq (a b : number) : bool :=
  match a, b with
  | Fin p, Fin q => Qeq_bool p q
  | PosInf, PosInf | NegInf, NegInf => true
  | _, _ => false
  end.

(** *** [renderEditor] *)

(** A word of the karaoke view: [current] stands for the classes
    [text-cyan-400 scale-105 font-bold], [spoken] for [text-gray-700]. *)
Record Span : Type := mkSpan {
  span_word : Text.jsstring;
  span_current : bool;
  span_spoken : bool
}.

Inductive Editor : Type :=
  | Karaoke (spans : list Span)
  | Textarea (value : Text.jsstring).

Definition renderEditor (props : State) : Editor :=
  if isPlaying props then
    let words := Text.split_ws (Text.strip_tags (text props)) in
    Karaoke (imap (fun i word =>
                     mkSpan word
                       (strict_eq (of_Z (Z.of_nat i)) (currentWordIndex props))
                       (lt (of_Z (Z.of_nat i)) (currentWordIndex props)))
               words)
  else Textarea (text props).

(** *** [handleDownload] *)

Inductive Format : Type := wav | ogg.

(** A file handed to the browser: [voice-<time>.<ext>] and its bytes. *)
Record Download : Type := mkDownload {
  dl_time : Z;
  dl_ext : Format;
  dl_bytes : list Z
}.

Inductive Effect : Type :=
  | Alert (message : string)
  | Save (file : Download).

(** [hasMediaRecorder] is [window.MediaRecorder] being there, [now] what
    [Date.now()] returns.  The function calls itself; [fuel] bounds the
    depth of the calls, and [None] is a throw or the bound reached. *)
Fixpoint handleDownload_at (fuel : nat) (props : State) (hasMediaRecorder : bool)
    (now : Z) (format : Format) : option (list Effect) :=
  match fuel with
  | O => None
  | S fuel' =>
      match audioBuffer props with
      | None => Some []
      | Some audioBuffer =>
          if match format with ogg => hasMediaRecorder | wav => false end then
            rest ← handleDownload_at fuel' props hasMediaRecorder now wav;
            Some (Alert "Downloading as WAV." :: rest)
          else
            wavBlob ← Wav.audioBufferToWav (buf audioBuffer);
            Some [Save (mkDownload now format wavBlob)]
      end
  end.

(** *** The API key *)

(** White space at the start of a string, dropped. *)
Fixpoint drop_space (s : Text.jsstring) : Text.jsstring :=
  match s with
  | c :: s' => if Text.is_space c then drop_space s' else s
  | [] => []
  end.

(** [s.trim()] *)
Definition trim (s : Text.jsstring) : Text.jsstring :=
  reverse (drop_space (reverse (drop_space s))).

Record Api : Type := mkApi {
  apiKey : Text.jsstring;
  tempApiKey : Text.jsstring;
  isApiConnected : bool
}.

Definition handleConnectApi (props : Api) (api : Api) : Api :=
  if decide (0 < length (trim (tempApiKey props)))%nat
  then mkApi (trim (tempApiKey props)) (tempApiKey api) true
  else api.

Definition handleDisconnectApi (api : Api) : Api := mkApi [] [] false.

Inductive api_event : Type :=
  | ETempApiKey (v : Text.jsstring)     (* typing into the key field *)
  | EConnect
  | EDisconnect.

(** The handlers run from the current render. *)
Definition api_step (e : api_event) (api : Api) : Api :=
  match e with
  | ETempApiKey v => mkApi (apiKey api) v (isApiConnected api)
  | EConnect => handleConnectApi api api
  | EDisconnect => handleDisconnectApi api
  end.

Definition api_initial : Api := mkApi [] [] false.

Definition api_reachable (api : Api) : Prop :=
  exists es, foldl (fun api e => api_step e api) api_initial es = api.

End Panel.

(** ** The handlers that call the service ([src/App.tsx])

    An [async] handler runs in segments: from the click to its first
    [await], and from each answer to the next [await] or to its end.  Every
    segment reads the state of the render of the click ([props] for the
    state of the engine, [uprops] for the rest).  The state changes of one
    segment are rendered together, after it, as React does since it batches
    the updates of every task; that is when the effects run.  The requests
    themselves are outside: what they answer is an argument of the segment
    that follows.  Of [services/historyService] only the calls are kept. *)
Module Session.
Import JS App Panel.

Inductive Emotion : Type := NEUTRAL | HAPPY | SAD | SERIOUS | STORY | NEWS.

Inductive VoiceName : Type := Puck | Charon | Kore | Fenrir | Zephyr.

Record ProcessingState : Type := mkProcessing {
  isThinking : bool;
  isSynthesizing : bool;
  progress : Z;
  statusMessage : string
}.

(** [id] is the decimal string of [item_id]. *)
Record HistoryItem : Type := mkHistoryItem {
  item_id : Z;
  item_text : Text.jsstring;
  item_originalText : Text.jsstring;
  item_emotion : Emotion;
  item_voice : VoiceName;
  item_timestamp : Z;
  item_audioBlob : list Z
}.

(** The state of the component that the engine does not read. *)
Record Ui : Type := mkUi {
  selectedEmotion : Emotion;
  selectedVoice : VoiceName;
  processing : ProcessingState;
  historyOpen : bool;
  api : Api
}.

(** What a handler does that leaves the component. *)
Inductive Entry : Type :=
  | Alerted (message : string)            (* [alert(message)] *)
  | ErrorLogged                           (* [console.error(error)] *)
  | SaveRequested (item : HistoryItem)    (* [saveHistoryItem(newItem)] *)
  | HistoryRequested                      (* [loadHistory()] *)
  | TimerSet (ms : Z).                    (* [setTimeout(..., ms)] *)

Record Shell : Type := mkShell {
  world : World;
  ui : Ui;
  log : list Entry
}.

Definition with_world (f : World -> World) (s : Shell) : Shell :=
  mkShell (f (world s)) (ui s) (log s).
Definition with_ui (f : Ui -> Ui) (s : Shell) : Shell :=
  mkShell (world s) (f (ui s)) (log s).
Definition with_entry (e : Entry) (s : Shell) : Shell :=
  mkShell (world s) (ui s) (log s ++ [e]).

Definition set_selectedEmotion (v : Emotion) (u : Ui) : Ui :=
  mkUi v (selectedVoice u) (processing u) (historyOpen u) (api u).
Definition set_selectedVoice (v : VoiceName) (u : Ui) : Ui :=
  mkUi (selectedEmotion u) v (processing u) (historyOpen u) (api u).
Definition set_processing (v : ProcessingState) (u : Ui) : Ui :=
  mkUi (selectedEmotion u) (selectedVoice u) v (historyOpen u) (api u).
Definition set_historyOpen (v : bool) (u : Ui) : Ui :=
  mkUi (selectedEmotion u) (selectedVoice u) (processing u) v (api u).

(** *** Segments that may throw *)

Inductive answer (A : Type) : Type :=
  | Returned (a : A) (s : Shell)
  | Thrown (s : Shell).
Arguments Returned {A} a s.
Arguments Thrown {A} s.

Definition H (A : Type) : Type := Shell -> answer A.

Definition hret {A} (a : A) : H A := fun s => Returned a s.

Definition hbind {A B} (m : H A) (k : A -> H B) : H B :=
  fun s => match m s with
           | Returned a s' => k a s'
           | Thrown s' => Thrown s'
           end.

#[global] Instance H_ret : MRet H := @hret.
#[global] Instance H_bind : MBind H := fun A B k m => hbind m k.

Definition hget {A} (f : Shell -> A) : H A := fun s => Returned (f s) s.
Definition hmodify (f : Shell -> Shell) : H unit := fun s => Returned tt (f s).
Definition hthrow {A} : H A := fun s => Thrown s.

(** A computation of the engine, run on the world of the component. *)
Definition lift {A} (m : M A) : H A :=
  fun s => match m (world s) with
           | Ok a w => Returned a (with_world (fun _ => w) s)
           | Throw _ w => Thrown (with_world (fun _ => w) s)
           end.

(** [try { m } catch (error) { handler }] *)
Definition try_else {A} (m : H A) (handler : H A) : H A :=
  fun s => match m s with
           | Returned a s' => Returned a s'
           | Thrown s' => handler s'
           end.

(** Run a segment, then render. *)
Definition rendered {A} (h : H A) : H A :=
  fun s =>
    let prev := st (world s) in
    match h s with
    | Returned a s' => (lift (flush prev);; hret a) s'
    | Thrown s' => (lift (flush prev);; hthrow) s'
    end.

(** The shell a segment leaves, thrown or not. *)
Definition shell_of {A} (a : answer A) : Shell :=
  match a with Returned _ s | Thrown s => s end.

Definition alert (message : string) : H unit := hmodify (with_entry (Alerted message)).
Definition console_error : H unit := hmodify (with_entry ErrorLogged).
Definition saveHistoryItem (item : HistoryItem) : H unit :=
  hmodify (with_entry (SaveRequested item)).
Definition loadHistory : H unit := hmodify (with_entry HistoryRequested).
Definition setTimeout (ms : Z) : H unit := hmodify (with_entry (TimerSet ms)).

Definition setSelectedEmotion v : H unit := hmodify (with_ui (set_selectedEmotion v)).
Definition setSelectedVoice v : H unit := hmodify (with_ui (set_selectedVoice v)).
Definition setProcessing v : H unit := hmodify (with_ui (set_processing v)).
Definition setHistoryOpen v : H unit := hmodify (with_ui (set_historyOpen v)).

(** [setProcessing(prev => f(prev))] *)
Definition updateProcessing (f : ProcessingState -> ProcessingState) : H unit :=
  hmodify (with_ui (fun u => set_processing (f (processing u)) u)).

(** [!text.trim()] *)
Definition blank (text : Text.jsstring) : bool := bool_decide (trim text = []).

(** *** [handleSynthesis] *)

(** The arguments of the call of [synthesizeSpeech]. *)
Record Request : Type := mkRequest {
  req_text : Text.jsstring;
  req_emotion : Emotion;
  req_voice : VoiceName;
  req_ctx : nat;
  req_apiKey : Text.jsstring
}.

(** Its [catch] block. *)
Definition handleSynthesis_catch : H unit :=
  console_error;;
  setProcessing (mkProcessing false false 0 "Synthesis Failed").

(** From the click to the call of [synthesizeSpeech]; [None] when the
    handler has returned before it. *)
Definition handleSynthesis_click (props : State) (uprops : Ui) : H (option Request) :=
  if negb (isApiConnected (api uprops)) then
    alert "Please connect your Gemini API Key first.";;
    mret None
  else if blank (text props) then mret None
  else
    lift (initAudio props);;
    match sourceNode props with
    | Some s => lift (try_catch (source_stop s))
    | None => mret tt
    end;;
    lift (setIsPlaying false);;
    setProcessing (mkProcessing false true 50 "Synthesizing Audio...");;
    ctx ← match audioContext props with
          | Some ctx => mret ctx
          | None => lift new_AudioContext
          end;
    match audioContext props with
    | Some _ => mret tt
    | None => lift (setAudioContext (Some ctx))
    end;;
    mret (Some (mkRequest (text props) (selectedEmotion uprops) (selectedVoice uprops)
                  ctx (apiKey (api uprops)))).

(** From the answer of [synthesizeSpeech] to the call of [saveHistoryItem].
    [id] is the identity of the buffer the service has created, [now1] and
    [now2] what the two calls of [Date.now()] return; [None] when the
    [catch] block has run. *)
Definition handleSynthesis_answer (props : State) (uprops : Ui)
    (answer : Gemini.result Wav.AudioBuffer) (id : nat) (now1 now2 : Z)
  : H (option (BufferObj * HistoryItem)) :=
  try_else
    (match answer with
     | Gemini.Fail _ => hthrow
     | Gemini.Done b =>
         let buffer := mkBufferObj id b in
         lift (setAudioBuffer (Some buffer));;
         match Wav.audioBufferToWav b with
         | None => hthrow
         | Some wavBlob =>
             let newItem :=
               mkHistoryItem now1 (text props) (Text.strip_tags (text props))
                 (selectedEmotion uprops) (selectedVoice uprops) now2 wavBlob in
             saveHistoryItem newItem;;
             mret (Some (buffer, newItem))
         end
     end)
    (handleSynthesis_catch;; mret None).

(** From the answer of [saveHistoryItem] to the end; [saved] is false when
    it has failed. *)
Definition handleSynthesis_saved (props : State) (buffer : BufferObj) (ctx : nat)
    (saved : bool) : H unit :=
  try_else
    (if saved then
       loadHistory;;
       setProcessing (mkProcessing false false 100 "Ready");;
       lift (playAudio props (Some buffer) (Some ctx))
     else hthrow)
    handleSynthesis_catch.

(** What happens to the engine between two segments. *)
Definition meanwhile (es : list event) : H unit := lift (run es).

(** One synthesis from the click on: the service answers with [stream],
    [es1] and [es2] happen while the handler waits. *)
Definition handleSynthesis (h : Gemini.Host)
    (atob : Text.jsstring -> option Text.jsstring)
    (stream : list (option Text.jsstring)) (id : nat) (now1 now2 : Z)
    (saved : bool) (es1 es2 : list event) : H unit :=
  props ← hget (fun s => st (world s));
  uprops ← hget ui;
  request ← rendered (handleSynthesis_click props uprops);
  match request with
  | None => mret tt
  | Some request =>
      meanwhile es1;;
      made ← rendered
               (handleSynthesis_answer props uprops
                  (Gemini.synthesizeSpeech h atob (req_apiKey request) stream)
                  id now1 now2);
      match made with
      | None => mret tt
      | Some (buffer, _) =>
          meanwhile es2;;
          rendered (handleSynthesis_saved props buffer (req_ctx request) saved)
      end
  end.

(** The world after the first segment of [handleSynthesis], when it has
    made its request. *)
Definition click_world (w : World) : World :=
  let props := st w in
  let w1 := AppWorld.initAudio_world props w in
  let w2 := match sourceNode props with
            | Some s => AppWorld.stop_world s w1
            | None => w1
            end in
  let w3 := with_st (set_isPlaying false) w2 in
  let w4 := match audioContext props with
            | Some _ => w3
            | None =>
                with_st (set_audioContext (Some (contexts w3)))
                  (with_contexts (S (contexts w3)) w3)
            end in
  AppWorld.flush_world props w4.

(** The invariants of the engine, and: a filter node comes with an audio
    context. *)
Definition sound (s : Shell) : Prop :=
  AppWorld.Inv (world s) /\ AppWorld.Inv2 (world s) /\
  (is_Some (filterNode (st (world s))) -> is_Some (audioContext (st (world s)))).

(** [w'] comes from [w] without the start of a source and without new
    audio. *)
Definition calm (w w' : World) : Prop :=
  (forall id, AppWorld.is_playing w' id -> AppWorld.is_playing w id) /\
  length (sources w') = length (sources w) /\
  sourceNode (st w') = sourceNode (st w) /\
  audioBuffer (st w') = audioBuffer (st w) /\
  (isPlaying (st w') = true -> isPlaying (st w) = true) /\
  (is_Some (audioContext (st w)) ->
   audioContext (st w') = audioContext (st w) /\
   filterNode (st w') = filterNode (st w)) /\
  (is_Some (filterNode (st w')) -> is_Some (audioContext (st w')) \/
   is_Some (filterNode (st w))).

(** The engine while a synthesis that was started in [w0] waits for an
    answer: nothing plays, and the source node is the one of [w0]. *)
Definition waiting (w0 w : World) : Prop :=
  AppWorld.Inv w /\ AppWorld.Inv2 w /\
  (forall id, ~ AppWorld.is_playing w id) /\
  isPlaying (st w) = false /\
  is_Some (audioContext (st w)) /\
  length (sources w) = length (sources w0) /\
  sourceNode (st w) = sourceNode (st w0) /\
  filterNode (st w)
  = match audioContext (st w0) with
    | Some _ => filterNode (st w0)
    | None => Some (length (filters w0))
    end.

(** Events that start no playback and load no audio. *)
Definition quiet (e : event) : bool :=
  match e with
  | EPlay _ _ _ | ESetAudioBuffer _ => false
  | _ => true
  end.

(** *** [handleOptimization] and the two requests of the service *)

(** The answer of [generateContent]: its [text], when it has one. *)
Inductive reply : Type :=
  | Rejected
  | Replied (text : option Text.jsstring).

(** [response.text?.trim() || text] *)
Definition trimmed_or (response : option Text.jsstring) (text : Text.jsstring)
  : Text.jsstring :=
  match trim <$> response with
  | Some (c :: s) => c :: s
  | _ => text
  end.

(** [None] is a rejected promise. *)
Definition optimizeTextWithThinking (text : Text.jsstring) (emotion : Emotion)
    (apiKey : Text.jsstring) (r : reply) : option Text.jsstring :=
  match apiKey with
  | [] => None
  | _ :: _ =>
      match r with
      | Rejected => None
      | Replied response => Some (trimmed_or response text)
      end
  end.

Definition quickPolishText (text : Text.jsstring) (apiKey : Text.jsstring)
    (r : reply) : option Text.jsstring :=
  match apiKey with
  | [] => None
  | _ :: _ =>
      match r with
      | Rejected => None
      | Replied response => Some (trimmed_or response text)
      end
  end.

(** From the click to the request; false when the handler has returned
    before it. *)
Definition handleOptimization_click (props : State) (uprops : Ui) (deep : bool)
  : H bool :=
  if negb (isApiConnected (api uprops)) then
    alert "Please connect your Gemini API Key below first.";;
    mret false
  else if blank (text props) then mret false
  else
    lift (initAudio props);;
    setProcessing
      (mkProcessing true false 30
         (if deep then "Thinking Protocol Active..." else "Polishing..."));;
    mret true.

(** From the answer of the request to the end. *)
Definition handleOptimization_answer (optimized : option Text.jsstring) : H unit :=
  try_else
    (match optimized with
     | None => hthrow
     | Some optimized =>
         lift (setText optimized);;
         updateProcessing
           (fun prev => mkProcessing false (isSynthesizing prev) 100
                          "Optimization Complete");;
         setTimeout 2000
     end)
    (console_error;;
     setProcessing (mkProcessing false false 0 "Optimization Failed")).


(** One optimisation from the click to the end of the handler; [es] happen
    while it waits. *)
Definition handleOptimization (deep : bool) (r : reply) (es : list event)
  : H unit :=
  props ← hget (fun s => st (world s));
  uprops ← hget ui;
  requested ← rendered (handleOptimization_click props uprops deep);
  if requested : bool then
    meanwhile es;;
    rendered
      (handleOptimization_answer
         (if deep
          then optimizeTextWithThinking (text props) (selectedEmotion uprops)
                 (apiKey (api uprops)) r
          else quickPolishText (text props) (apiKey (api uprops)) r))
  else mret tt.

(** The text after [es], which only [setText] changes. *)
Definition typed (es : list event) (text : Text.jsstring) : Text.jsstring :=
  foldl (fun text e => match e with ESetText v => v | _ => text end) text es.

(** *** [restoreHistoryItem] *)

(** From the click to [item.audioBlob.arrayBuffer()]. *)
Definition restoreHistoryItem_click (item : HistoryItem) : H unit :=
  lift (setText (item_text item));;
  setSelectedEmotion (item_emotion item);;
  setSelectedVoice (item_voice item).

(** From there on: [decoded] is what [decodeAudioData] makes of the blob,
    [None] when it rejects it. *)
Definition restoreHistoryItem_read (props : State) (decoded : option BufferObj)
  : H unit :=
  match audioContext props with
  | Some _ =>
      match decoded with
      | Some buffer => lift (setAudioBuffer (Some buffer))
      | None => hthrow
      end
  | None => mret tt
  end;;
  setHistoryOpen false.

Definition restoreHistoryItem (item : HistoryItem) (decoded : option BufferObj)
  : H unit :=
  props ← hget (fun s => st (world s));
  rendered (restoreHistoryItem_click item);;
  rendered (restoreHistoryItem_read props decoded).

(** *** What the buttons allow *)







(** The component after its first render. *)
Definition initial_shell (strict : bool) : Shell :=
  mkShell (initial strict)
    (mkUi NEUTRAL Puck (mkProcessing false false 0 EmptyString) false api_initial)
    [].

(** The component connected with a key, with the text A B typed. *)
Definition ready_shell : Shell :=
  mkShell (AppWorld.run_world [ESetText (Text.of_string "A B")] (initial false))
    (mkUi NEUTRAL Puck (mkProcessing false false 0 EmptyString) false
       (mkApi [75] [] true))
    [].

(** Two samples at 24000 Hz, as the service decodes the bytes 1 0 3 2. *)
Definition two_samples : Wav.AudioBuffer :=
  Wav.mkAudioBuffer 24000 2 [[Fin (1 # 32768); Fin (515 # 32768)]].

End Session.

(** ** The bars of the visualiser ([components/AudioVisualizer.tsx])

    The canvas is 600 by 128, and the analyser has an [fftSize] of 256, hence
    128 frequency bins.  With these figures every number of the loop of
    [draw] is a multiple of 1/32 far below 2^53: the doubles of the code are
    the rationals here. *)
Module Visualizer.

(** [ctx.fillRect(x, y, w, h)] *)
Record Rect : Type := mkRect {
  rect_x : Q;
  rect_y : Q;
  rect_w : Q;
  rect_h : Q
}.

Definition canvas_width : Z := 600.
Definition canvas_height : Z := 128.
Definition fftSize : Z := 256.

(** [analyser.frequencyBinCount] *)
Definition frequencyBinCount : nat := Z.to_nat (fftSize / 2).

(** The rectangles one call of [draw] fills, for the bytes that
    [getByteFrequencyData] has written to [dataArray]. *)
Definition draw (dataArray : list Z) : list Rect :=
  let bufferLength := frequencyBinCount in
  let barWidth :=
    (inject_Z canvas_width / inject_Z (Z.of_nat bufferLength) * (5 # 2))%Q in
  (iter_from 0 bufferLength
     (fun i '(x, rects) =>
        let barHeight := (inject_Z (default 0%Z (dataArray !! i)) / 2)%Q in
        ((x + (barWidth + 1))%Q,
         rects ++ [mkRect x (inject_Z canvas_height - barHeight)%Q barWidth barHeight]))
     (0%Q, [])).2.

(** The left edge of bar [i]: [x] after [i] rounds of the loop. *)
Definition bar_x (i : nat) : Q :=
  Nat.iter i
    (fun x => x + (inject_Z canvas_width / inject_Z (Z.of_nat frequencyBinCount)
                   * (5 # 2) + 1))%Q
    0%Q.

End Visualizer.

(** * Properties *)

Ltac unfold_m :=
  unfold mbind, mret, App.M_bind, App.M_ret, App.bind, App.ret, App.get,
    App.modify in *.

Ltac unfold_w :=
  cbn [App.with_st App.with_startTimeRef App.with_animationFrameRef
       App.with_currentTime App.with_contexts App.with_sources App.with_filters
       App.with_frames App.with_call
       App.st App.startTimeRef App.animationFrameRef App.currentTime App.contexts
       App.sources App.filters App.frames App.next_frame App.calls
       App.stop_twice_throws] in *.

(** ** Writes that fill a zeroed buffer from left to right *)
Section Fill.
Import DataView.

Lemma length_le_bytes w v : length (le_bytes w v) = w.
Proof. revert v; induction w as [|w IH]; intros v; simpl; [done|by rewrite IH]. Qed.

Lemma length_store bs : forall view offset,
  length (store view offset bs) = length view.
Proof.
  induction bs as [|b bs IH]; intros view offset; simpl; [done|].
  rewrite IH. apply length_insert.
Qed.

Lemma store_app_middle bs : forall (done old rest : list Z),
  length old = length bs ->
  store (done ++ old ++ rest) (length done) bs = done ++ bs ++ rest.
Proof.
  induction bs as [|b bs IH]; intros done old rest Hlen.
  - by destruct old.
  - destruct old as [|o old]; [done|]. simpl in Hlen. simpl store.
    replace (<[length done:=b]> (done ++ (o :: old) ++ rest))
      with ((done ++ [b]) ++ old ++ rest).
    + replace (S (length done)) with (length (done ++ [b]))
        by (rewrite length_app; simpl; lia).
      rewrite IH by lia. by rewrite <- app_assoc.
    + rewrite insert_app_r_alt by lia. rewrite Nat.sub_diag. simpl.
      by rewrite <- app_assoc.
Qed.

Lemma set_bytes_fill (done : list Z) (k offset : nat) (bs : list Z) :
  offset = length done ->
  (length bs <= k)%nat ->
  set_bytes (done ++ replicate k 0) offset bs
  = Some ((done ++ bs) ++ replicate (k - length bs) 0).
Proof.
  intros -> Hk. unfold set_bytes.
  rewrite decide_True by (rewrite length_app, length_replicate; lia).
  f_equal.
  replace (replicate k 0) with (replicate (length bs) 0 ++ replicate (k - length bs) 0)
    by (rewrite <- replicate_add; f_equal; lia).
  rewrite store_app_middle by (by rewrite length_replicate).
  by rewrite app_assoc.
Qed.

End Fill.

Section Loops.
Context {S : Type}.

Lemma for_from_ext (body1 body2 : nat -> S -> option S) : forall n i s,
  (forall j s', (i <= j < i + n)%nat -> body1 j s' = body2 j s') ->
  for_from i n body1 s = for_from i n body2 s.
Proof.
  induction n as [|n IH]; intros i s Hext; simpl; [done|].
  rewrite Hext by lia. destruct (body2 i s) as [s'|]; simpl; [|done].
  apply IH. intros j s'' Hj. apply Hext. lia.
Qed.

End Loops.

Section EncoderBytes.
Import DataView Wav WavBytes.

Lemma flat_map_length_const {A} (f : A -> list Z) (w : nat) (l : list A) :
  (forall x, length (f x) = w) -> length (flat_map f l) = (length l * w)%nat.
Proof.
  intros Hf. induction l as [|x l IH]; simpl; [done|].
  rewrite length_app, Hf, IH. lia.
Qed.

Lemma chars_fill (f : nat -> Z) (offset : nat) : forall n i done k,
  (offset + i)%nat = length done ->
  (n <= k)%nat ->
  for_from i n (fun j view => setUint8 view (offset + j) (f j))
    (done ++ replicate k 0)
  = Some ((done ++ ((fun j => f j mod 256) <$> seq i n)) ++ replicate (k - n) 0).
Proof.
  induction n as [|n IH]; intros i done k Hoff Hk; simpl.
  - by rewrite app_nil_r, Nat.sub_0_r.
  - unfold setUint8. rewrite set_bytes_fill by (simpl; lia). simpl.
    rewrite IH by (rewrite ?length_app; simpl; lia).
    rewrite <- (app_assoc done). simpl. do 3 f_equal. lia.
Qed.

Lemma writeString_fill (done : list Z) (k offset : nat) (s : string) :
  offset = length done ->
  (String.length s <= k)%nat ->
  writeString (done ++ replicate k 0) offset s
  = Some ((done ++ string_bytes s) ++ replicate (k - String.length s) 0).
Proof.
  intros Hoff Hk. unfold writeString, for_range.
  by rewrite chars_fill by lia.
Qed.

Lemma length_string_bytes s : length (string_bytes s) = String.length s.
Proof. unfold string_bytes. by rewrite length_fmap, length_seq. Qed.

Lemma length_sample_bytes buffer i ch : length (sample_bytes buffer i ch) = 2%nat.
Proof. apply length_le_bytes. Qed.

Lemma length_frame_bytes buffer i :
  length (frame_bytes buffer i) = (numberOfChannels buffer * 2)%nat.
Proof.
  unfold frame_bytes.
  rewrite (flat_map_length_const _ 2) by apply length_sample_bytes.
  by rewrite length_seq.
Qed.

Lemma length_data_bytes buffer : length (data_bytes buffer) = data_length buffer.
Proof.
  unfold data_bytes, data_length.
  rewrite (flat_map_length_const _ (numberOfChannels buffer * 2))
    by apply length_frame_bytes.
  rewrite length_seq. lia.
Qed.

Lemma length_header_bytes buffer : length (header_bytes buffer) = 44%nat.
Proof. reflexivity. Qed.

Lemma setInt16_fill (done : list Z) (k offset : nat) (x : JS.number) :
  offset = length done ->
  (2 <= k)%nat ->
  setInt16 (done ++ replicate k 0) offset x
  = Some ((done ++ le_bytes 2 (JS.to_integer x)) ++ replicate (k - 2) 0).
Proof.
  intros Hoff Hk. unfold setInt16.
  rewrite set_bytes_fill by (rewrite ?length_le_bytes; done).
  by rewrite length_le_bytes.
Qed.

(** The inner loop writes the samples [ch .. ch + n) of frame [i]. *)
Lemma samples_fill (g : nat -> JS.number) : forall n ch done k,
  (2 * n <= k)%nat ->
  for_from ch n
    (fun ch '(view, offset) =>
       view ← setInt16 view offset (g ch); Some (view, (offset + 2)%nat))
    (done ++ replicate k 0, length done)
  = Some ((done ++ flat_map (fun ch => le_bytes 2 (JS.to_integer (g ch))) (seq ch n))
            ++ replicate (k - 2 * n) 0,
          (length done + 2 * n)%nat).
Proof.
  induction n as [|n IH]; intros ch done k Hk; simpl for_from.
  - simpl. rewrite app_nil_r, Nat.sub_0_r, Nat.add_0_r. done.
  - rewrite setInt16_fill by (done || lia). cbn [mbind option_bind].
    replace (length done + 2)%nat with (length (done ++ le_bytes 2 (JS.to_integer (g ch))))
      by (rewrite length_app, length_le_bytes; lia).
    rewrite IH by lia. rewrite length_app, length_le_bytes.
    cbn [flat_map seq]. rewrite <- (app_assoc done).
    replace (k - 2 - 2 * n)%nat with (k - 2 * S n)%nat by lia.
    replace (length done + 2 + 2 * n)%nat with (length done + 2 * S n)%nat by lia.
    done.
Qed.

(** The outer loop writes the frames [i .. i + n). *)
Lemma frames_fill (buffer : AudioBuffer) : forall n i done k,
  (n * (numberOfChannels buffer * 2) <= k)%nat ->
  for_from i n
    (fun i =>
       for_range (numberOfChannels buffer) (fun ch '(view, offset) =>
         view ← setInt16 view offset
                  (scaled
                     (typed_get
                        (default []
                           ((getChannelData buffer <$> seq 0 (numberOfChannels buffer)) !! ch))
                        i));
         Some (view, (offset + 2)%nat)))
    (done ++ replicate k 0, length done)
  = Some ((done ++ flat_map (frame_bytes buffer) (seq i n))
            ++ replicate (k - n * (numberOfChannels buffer * 2)) 0,
          (length done + n * (numberOfChannels buffer * 2))%nat).
Proof.
  set (c := numberOfChannels buffer). unfold for_range.
  induction n as [|n IH]; intros i done k Hk; simpl for_from.
  - simpl. by rewrite app_nil_r, Nat.sub_0_r, Nat.add_0_r.
  - rewrite (for_from_ext _
      (fun ch '(view, offset) =>
         view ← setInt16 view offset (scaled (typed_get (getChannelData buffer ch) i));
         Some (view, (offset + 2)%nat))).
    2:{ intros ch [view offset] Hch. cbv zeta.
        rewrite list_lookup_fmap, lookup_seq_lt by lia. done. }
    rewrite (samples_fill (fun ch => scaled (typed_get (getChannelData buffer ch) i)))
      by lia.
    cbn [mbind option_bind]. fold (frame_bytes buffer i).
    assert (Hfl : length (frame_bytes buffer i) = (c * 2)%nat)
      by apply length_frame_bytes.
    replace (length done + 2 * c)%nat with (length (done ++ frame_bytes buffer i))
      by (rewrite length_app, Hfl; lia).
    rewrite IH by lia. rewrite length_app, Hfl.
    cbn [flat_map seq]. rewrite <- (app_assoc done).
    replace (k - 2 * c - n * (c * 2))%nat with (k - S n * (c * 2))%nat by lia.
    replace (length done + c * 2 + n * (c * 2))%nat
      with (length done + S n * (c * 2))%nat by lia.
    done.
Qed.

Lemma all_frames_fill (buffer : AudioBuffer) (done : list Z) (k offset : nat) :
  offset = length done ->
  (buffer_length buffer * (numberOfChannels buffer * 2) <= k)%nat ->
  for_range (buffer_length buffer)
    (fun i =>
       for_range (numberOfChannels buffer) (fun ch '(view, offset) =>
         view ← setInt16 view offset
                  (scaled
                     (typed_get
                        (default []
                           ((getChannelData buffer <$> seq 0 (numberOfChannels buffer)) !! ch))
                        i));
         Some (view, (offset + 2)%nat)))
    (done ++ replicate k 0, offset)
  = Some ((done ++ data_bytes buffer)
            ++ replicate (k - buffer_length buffer * (numberOfChannels buffer * 2)) 0,
          (offset + buffer_length buffer * (numberOfChannels buffer * 2))%nat).
Proof. intros -> Hk. unfold for_range at 1. by apply frames_fill. Qed.

End EncoderBytes.

Section EncoderRefinement.
Import DataView Wav WavBytes.

Local Ltac fill_step :=
  first
    [ rewrite writeString_fill by (rewrite ?length_app; simpl; lia)
    | rewrite set_bytes_fill by (rewrite ?length_app; simpl; lia) ];
  cbn [mbind option_bind].

(** The writes of [audioBufferToWav] never leave the buffer, and what they
    leave in it is the header followed by the frames. *)
Lemma audioBufferToWav_bytes (buffer : AudioBuffer) :
  audioBufferToWav buffer = Some (header_bytes buffer ++ data_bytes buffer).
Proof.
  unfold audioBufferToWav, new_ArrayBuffer, setUint32, setUint16.
  cbv zeta. fold (data_length buffer).
  set (len := data_length buffer).
  change (replicate (44 + len) 0) with ([] ++ replicate (44 + len) 0).
  do 13 fill_step.
  rewrite all_frames_fill;
    [|reflexivity|subst len; unfold data_length; simpl; lia].
  cbn [mbind option_bind fst]. f_equal.
  replace (_ - _)%nat with 0%nat by (subst len; unfold data_length; simpl; lia).
  simpl replicate. rewrite app_nil_r.
  unfold header_bytes, data_bytes. rewrite <- !app_assoc. reflexivity.
Qed.

End EncoderRefinement.



Section Rationals.
Import Quantize.

Lemma Qlt_bool_iff x y : Qlt_bool x y = true <-> (x < y)%Q.
Proof.
  unfold Qlt_bool. rewrite negb_true_iff. split.
  - intros H. apply Qnot_le_lt. intros Hle. apply Qle_bool_iff in Hle. congruence.
  - intros H. destruct (Qle_bool y x) eqn:E; [|done].
    apply Qle_bool_iff in E. exfalso. by apply (Qlt_not_le x y).
Qed.

Lemma Qlt_bool_false x y : Qlt_bool x y = false <-> (y <= x)%Q.
Proof.
  unfold Qlt_bool. rewrite negb_false_iff. apply Qle_bool_iff.
Qed.

(** Truncation toward zero is the floor of a non-negative rational and the
    ceiling of a negative one. *)
Lemma Qtrunc_nonneg q : (0 <= q)%Q -> JS.Qtrunc q = Qfloor q.
Proof.
  destruct q as [n d]. unfold Qle, JS.Qtrunc, Qfloor. simpl. intros H.
  apply Z.quot_div_nonneg; lia.
Qed.

Lemma Qtrunc_neg q : (q <= 0)%Q -> JS.Qtrunc q = Qceiling q.
Proof.
  destruct q as [n d]. unfold Qle, JS.Qtrunc, Qceiling, Qfloor. simpl. intros H.
  rewrite <- (Z.opp_involutive n) at 1.
  rewrite Z.quot_opp_l by lia. f_equal. apply Z.quot_div_nonneg; lia.
Qed.

Lemma Qtrunc_comp p q : (p == q)%Q -> JS.Qtrunc p = JS.Qtrunc q.
Proof.
  intros Heq. destruct (Qlt_le_dec p 0) as [Hneg|Hpos].
  - rewrite !Qtrunc_neg by (rewrite <- ?Heq; by apply Qlt_le_weak).
    by apply Qceiling_comp.
  - rewrite !Qtrunc_nonneg by (by rewrite <- ?Heq).
    by apply Qfloor_comp.
Qed.

Lemma Qtrunc_between (lo hi : Z) q :
  lo <= 0 <= hi -> (inject_Z lo <= q <= inject_Z hi)%Q -> lo <= JS.Qtrunc q <= hi.
Proof.
  intros Hz [Hlo Hhi]. destruct (Qlt_le_dec q 0) as [Hneg|Hpos].
  - rewrite Qtrunc_neg by (by apply Qlt_le_weak). split.
    + rewrite <- (Qceiling_Z lo). by apply Qceiling_resp_le.
    + transitivity (Qceiling 0); [|change (Qceiling 0) with 0; lia].
      apply Qceiling_resp_le. by apply Qlt_le_weak.
  - rewrite Qtrunc_nonneg by done. split.
    + transitivity (Qfloor 0); [change (Qfloor 0) with 0; lia|].
      by apply Qfloor_resp_le.
    + rewrite <- (Qfloor_Z hi). by apply Qfloor_resp_le.
Qed.

Lemma clamp_unit_range q : (-1 <= clamp_unit q <= 1)%Q.
Proof.
  unfold clamp_unit.
  destruct (Qlt_bool q (-1)) eqn:E1; [done|].
  destruct (Qlt_bool 1 q) eqn:E2; [done|].
  apply Qlt_bool_false in E1, E2. done.
Qed.

Lemma pcm16_of_clamped_range s :
  (-1 <= s <= 1)%Q -> -32768 <= pcm16_of_clamped s <= 32767.
Proof.
  intros [Hlo Hhi]. unfold pcm16_of_clamped.
  assert (H32768 : (0 <= 32768)%Q) by (unfold Qle; simpl; lia).
  assert (H32767 : (0 <= 32767)%Q) by (unfold Qle; simpl; lia).
  destruct (Qlt_bool s 0) eqn:E.
  - apply Qlt_bool_iff in E.
    assert (-32768 <= JS.Qtrunc (s * 32768) <= 0); [|lia].
    apply Qtrunc_between; [lia|]. split.
    + change (inject_Z (-32768)) with ((-1) * 32768)%Q.
      by apply Qmult_le_compat_r.
    + change (inject_Z 0) with (0 * 32768)%Q.
      apply Qmult_le_compat_r; [by apply Qlt_le_weak|done].
  - apply Qlt_bool_false in E.
    assert (0 <= JS.Qtrunc (s * 32767) <= 32767); [|lia].
    apply Qtrunc_between; [lia|]. split.
    + change (inject_Z 0) with (0 * 32767)%Q.
      by apply Qmult_le_compat_r.
    + change (inject_Z 32767) with (1 * 32767)%Q.
      by apply Qmult_le_compat_r.
Qed.

End Rationals.

Section ScaledSample.
Import Wav Quantize.

Lemma Qlt_bool_comp x x' y y' :
  (x == x')%Q -> (y == y')%Q -> Qlt_bool x y = Qlt_bool x' y'.
Proof.
  intros Hx Hy. destruct (Qlt_bool x' y') eqn:E.
  - apply Qlt_bool_iff. apply Qlt_bool_iff in E. by rewrite Hx, Hy.
  - apply Qlt_bool_false. apply Qlt_bool_false in E. by rewrite Hx, Hy.
Qed.

Lemma pcm16_of_clamped_comp s s' :
  (s == s')%Q -> pcm16_of_clamped s = pcm16_of_clamped s'.
Proof.
  intros Heq. unfold pcm16_of_clamped.
  rewrite (Qlt_bool_comp s s' 0 0) by done.
  destruct (Qlt_bool s' 0); apply Qtrunc_comp; by rewrite Heq.
Qed.

(** [Math.max(-1, Math.min(1, q))] is the clamp of the specification. *)
Lemma Math_clamp_Fin q :
  exists s, JS.Math_max (JS.of_Z (-1)) (JS.Math_min (JS.of_Z 1) (JS.Fin q)) = JS.Fin s
            /\ (s == clamp_unit q)%Q.
Proof.
  unfold JS.of_Z, JS.Math_min, clamp_unit, inject_Z.
  destruct (Qle_bool 1 q) eqn:E1.
  - (* 1 <= q *)
    exists 1%Q. split; [done|].
    apply Qle_bool_iff in E1.
    destruct (Qlt_bool q (-1)) eqn:E2.
    + apply Qlt_bool_iff in E2. exfalso.
      apply (Qlt_not_le q (-1) E2). by apply (Qle_trans _ 1%Q).
    + destruct (Qlt_bool 1 q) eqn:E3; [done|].
      apply Qlt_bool_false in E3. by apply Qle_antisym.
  - (* q < 1 *)
    assert (Hq : Qlt_bool 1 q = false).
    { unfold Qlt_bool.
      destruct (Qle_bool q 1) eqn:E; [done|]. exfalso.
      assert (H1 : ~ (1 <= q)%Q) by (intros H; apply Qle_bool_iff in H; congruence).
      assert (H2 : ~ (q <= 1)%Q) by (intros H; apply Qle_bool_iff in H; congruence).
      apply H2, Qlt_le_weak. by apply Qnot_le_lt. }
    rewrite Hq. unfold JS.Math_max.
    change (Qlt_bool q (-1)) with (negb (Qle_bool (-1) q)).
    destruct (Qle_bool (-1) q); simpl; eexists; split; done.
Qed.

Lemma scaled_spec (x : JS.number) (s : Q) :
  clamped x = Some s -> JS.to_integer (scaled x) = pcm16_of_clamped s.
Proof.
  destruct x as [q| | |]; simpl; intros Hs; simplify_eq.
  - destruct (Math_clamp_Fin q) as (s & Hcode & Heq).
    unfold scaled. rewrite Hcode.
    rewrite <- (pcm16_of_clamped_comp s) by done.
    unfold pcm16_of_clamped. simpl JS.lt.
    change (negb (Qle_bool (inject_Z 0) s)) with (Qlt_bool s 0).
    by destruct (Qlt_bool s 0).
  - reflexivity.
  - reflexivity.
Qed.

(** A sample that is not a number is written as 0. *)
Lemma scaled_NaN : JS.to_integer (scaled JS.NaN) = 0.
Proof. reflexivity. Qed.

End ScaledSample.

(** ** Reading the written file back *)
Section ReadBack.
Import DataView Wav WavBytes.

Lemma le_value_le_bytes w : forall v,
  0 <= v < 256 ^ Z.of_nat w -> le_value (le_bytes w v) = v.
Proof.
  induction w as [|w IH]; intros v Hv.
  - simpl in *. lia.
  - cbn [le_bytes le_value]. rewrite IH.
    + pose proof (Z.div_mod v 256). lia.
    + rewrite Nat2Z.inj_succ, Z.pow_succ_r in Hv by lia.
      split; [apply Z.div_pos; lia|apply Z.div_lt_upper_bound; lia].
Qed.

Lemma int16_le_bytes z :
  -32768 <= z < 32768 ->
  (fun u => if decide (u < 32768) then u else u - 65536) (le_value (le_bytes 2 z)) = z.
Proof.
  intros Hz. cbn [le_bytes le_value].
  replace (z mod 256 + 256 * ((z / 256) mod 256 + 256 * 0)) with (z mod 65536).
  - destruct (decide (0 <= z)).
    + rewrite Z.mod_small by lia. rewrite decide_True; lia.
    + replace (z mod 65536) with (z + 65536).
      * rewrite decide_False; lia.
      * apply (Z.mod_unique _ _ (-1)); lia.
  - change 65536 with (256 * 256). rewrite Z.rem_mul_r by lia. lia.
Qed.

Lemma drop_flat_map_seq (f : nat -> list Z) (w : nat) :
  (forall x, length (f x) = w) ->
  forall j a n, (j <= n)%nat ->
  drop (j * w) (flat_map f (seq a n)) = flat_map f (seq (a + j) (n - j)).
Proof.
  intros Hf. induction j as [|j IH]; intros a n Hj.
  - simpl. by rewrite Nat.add_0_r, Nat.sub_0_r.
  - destruct n as [|n]; [lia|]. cbn [seq flat_map].
    replace (S j * w)%nat with (w + j * w)%nat by lia.
    rewrite drop_app_add' by done. rewrite IH by lia.
    by replace (a + S j)%nat with (S a + j)%nat by lia.
Qed.

(** Where the sample of channel [ch] in frame [i] lies in the file. *)
Lemma get_bytes_sample (buffer : AudioBuffer) (i ch : nat) :
  (i < buffer_length buffer)%nat ->
  (ch < numberOfChannels buffer)%nat ->
  get_bytes (header_bytes buffer ++ data_bytes buffer)
    (44 + 2 * (i * numberOfChannels buffer + ch)) 2
  = Some (sample_bytes buffer i ch).
Proof.
  intros Hi Hch. set (c := numberOfChannels buffer) in *.
  assert (Hin : (i * c + ch < buffer_length buffer * c)%nat) by nia.
  unfold get_bytes. rewrite decide_True.
  2:{ rewrite length_app, length_header_bytes, length_data_bytes.
      unfold data_length. fold c. lia. }
  f_equal.
  rewrite (drop_app_add' (header_bytes buffer) _ 44) by reflexivity.
  replace (2 * (i * c + ch))%nat with (i * (c * 2) + ch * 2)%nat by lia.
  rewrite <- drop_drop. unfold data_bytes.
  rewrite (drop_flat_map_seq _ (c * 2)) by (apply length_frame_bytes || lia).
  destruct (buffer_length buffer - i)%nat as [|r] eqn:Hr; [lia|].
  cbn [seq flat_map]. rewrite Nat.add_0_l.
  rewrite drop_app_le by (rewrite length_frame_bytes; fold c; lia).
  unfold frame_bytes at 1. fold c.
  rewrite (drop_flat_map_seq _ 2) by (apply length_sample_bytes || lia).
  destruct (c - ch)%nat as [|r'] eqn:Hr'; [lia|].
  cbn [seq flat_map]. rewrite Nat.add_0_l, <- app_assoc.
  by rewrite take_app_length' by (by rewrite length_sample_bytes).
Qed.

(** A read inside the header does not depend on the samples. *)
Lemma get_bytes_header (header data : list Z) (offset w : nat) :
  (offset + w <= length header)%nat ->
  get_bytes (header ++ data) offset w = Some (take w (drop offset header)).
Proof.
  intros Hin. unfold get_bytes.
  rewrite decide_True by (rewrite length_app; lia). f_equal.
  rewrite drop_app_le by lia. rewrite take_app_le; [done|].
  rewrite length_drop. lia.
Qed.

End ReadBack.

Section WavProps.
Import DataView Wav WavBytes Quantize.

(** Buffers that agree on what the encoder reads encode to the same file. *)
Lemma audioBufferToWav_ext (b1 b2 : AudioBuffer) :
  sampleRate b1 = sampleRate b2 ->
  buffer_length b1 = buffer_length b2 ->
  numberOfChannels b1 = numberOfChannels b2 ->
  (forall i ch,
     JS.to_integer (scaled (typed_get (getChannelData b1 ch) i))
     = JS.to_integer (scaled (typed_get (getChannelData b2 ch) i))) ->
  audioBufferToWav b1 = audioBufferToWav b2.
Proof.
  intros Hrate Hlen Hc Hs. rewrite !audioBufferToWav_bytes. f_equal. f_equal.
  - unfold header_bytes, data_length. by rewrite Hrate, Hlen, Hc.
  - unfold data_bytes, frame_bytes, sample_bytes. rewrite Hlen, Hc.
    apply flat_map_ext. intros i. apply flat_map_ext. intros ch.
    by rewrite Hs.
Qed.

Lemma set_sample_encode (buffer : AudioBuffer) (ch i : nat) (x y : JS.number) :
  JS.to_integer (scaled x) = JS.to_integer (scaled y) ->
  audioBufferToWav (set_sample buffer ch i x)
  = audioBufferToWav (set_sample buffer ch i y).
Proof.
  intros Hxy. apply audioBufferToWav_ext; try done.
  - unfold numberOfChannels, set_sample. simpl. by rewrite !length_alter.
  - intros i' ch'. unfold getChannelData, set_sample, typed_get. simpl.
    rewrite !list_lookup_alter.
    destruct (decide (ch = ch')) as [->|]; [|done].
    destruct (channels buffer !! ch') as [data|]; [simpl|done].
    destruct (decide (i = i')) as [->|].
    + destruct (decide (i' < length data)%nat).
      * by rewrite !list_lookup_insert_eq by done.
      * by rewrite !list_insert_ge by lia.
    + by rewrite !list_lookup_insert_ne by done.
Qed.

(** C1: for every buffer the encoder returns, and its output has
    [44 + frameCount * c * 2] bytes; a mono buffer of 12,000 frames encodes
    to 24,044 bytes. *)
Theorem audioBufferToWav_length :
  (forall buffer : AudioBuffer, exists out,
      audioBufferToWav buffer = Some out /\
      Z.of_nat (length out)
      = 44 + Z.of_nat (buffer_length buffer) * Z.of_nat (numberOfChannels buffer) * 2) /\
  (forall (rate : Z) (data : list JS.number), exists out,
      audioBufferToWav (mkAudioBuffer rate (Z.to_nat 12000) [data]) = Some out /\
      Z.of_nat (length out) = 24044).
Proof.
  assert (Hlen : forall buffer : AudioBuffer, exists out,
      audioBufferToWav buffer = Some out /\
      Z.of_nat (length out)
      = 44 + Z.of_nat (buffer_length buffer) * Z.of_nat (numberOfChannels buffer) * 2).
  { intros buffer. eexists. split; [apply audioBufferToWav_bytes|].
    rewrite length_app, length_header_bytes, length_data_bytes.
    unfold data_length. lia. }
  split; [done|]. intros rate data.
  destruct (Hlen (mkAudioBuffer rate (Z.to_nat 12000) [data])) as (out & Hout & Hl).
  exists out. split; [done|]. rewrite Hl.
  unfold numberOfChannels. cbn [buffer_length channels length].
  rewrite Z2Nat.id; lia.
Qed.

(** C4: a sample that is a number is clamped to [-1, 1]; the 16-bit integer
    stored for it (channel [ch], frame [i]) is the clamped value scaled by
    32768 and truncated when it is negative, scaled by 32767 and truncated
    otherwise. *)
Theorem audioBufferToWav_sample
    (buffer : AudioBuffer) (i ch : nat) (data : list JS.number) (x : JS.number) :
  (i < buffer_length buffer)%nat ->
  channels buffer !! ch = Some data ->
  data !! i = Some x ->
  x <> JS.NaN ->
  exists (out : list Z) (s : Q),
    audioBufferToWav buffer = Some out /\
    clamped x = Some s /\
    (-1 <= s <= 1)%Q /\
    getInt16 out (44 + 2 * (i * numberOfChannels buffer + ch))
    = Some (if Qlt_bool s 0 then JS.Qtrunc (s * 32768) else JS.Qtrunc (s * 32767)).
Proof.
  intros Hi Hch Hx Hnan.
  assert (Hs : exists s, clamped x = Some s /\ (-1 <= s <= 1)%Q).
  { destruct x as [q| | |]; simpl; [|done| |]; eexists; (split; [done|]).
    - apply clamp_unit_range.
    - done.
    - done. }
  destruct Hs as (s & Hs & Hrange).
  exists (header_bytes buffer ++ data_bytes buffer), s.
  split; [apply audioBufferToWav_bytes|]. do 2 (split; [done|]).
  unfold getInt16, getUint16.
  rewrite get_bytes_sample; [|done|by apply lookup_lt_Some in Hch].
  unfold sample_bytes, getChannelData, typed_get. rewrite Hch. simpl default.
  rewrite Hx. simpl default. rewrite (scaled_spec x s Hs).
  cbn [fmap option_fmap option_map]. f_equal.
  pose proof (pcm16_of_clamped_range s Hrange) as Hz.
  unfold pcm16_of_clamped in *. apply int16_le_bytes. lia.
Qed.

Lemma audioBufferToWav_sample_witness :
  exists (out : list Z) (s : Q),
    audioBufferToWav sample_witness_buffer = Some out /\
    clamped (JS.Fin (- (3 # 2))) = Some s /\
    (-1 <= s <= 1)%Q /\
    getInt16 out (44 + 2 * (1 * numberOfChannels sample_witness_buffer + 0))
    = Some (if Qlt_bool s 0 then JS.Qtrunc (s * 32768) else JS.Qtrunc (s * 32767)).
Proof.
  apply (audioBufferToWav_sample sample_witness_buffer 1 0
           [JS.Fin (1 # 2); JS.Fin (- (3 # 2))] (JS.Fin (- (3 # 2)))).
  - simpl. lia.
  - reflexivity.
  - reflexivity.
  - discriminate.
Defined.

(** C5: when the figures fit their fields, the first 44 bytes are a
    RIFF/WAVE header: chunk size 36 + data length, a 16-byte [fmt ] chunk with
    format code 1, the channel count, the sample rate, byte rate
    [sampleRate * channels * 2], block align [channels * 2] and 16 bits per
    sample, then a [data] chunk of declared length
    [frameCount * channels * 2]. *)
Theorem audioBufferToWav_header (buffer : AudioBuffer) :
  header_fits buffer ->
  let c := Z.of_nat (numberOfChannels buffer) in
  let len := Z.of_nat (buffer_length buffer) * c * 2 in
  exists out : list Z,
    audioBufferToWav buffer = Some out /\
    (44 <= length out)%nat /\
    get_bytes out 0 4 = Some (string_bytes "RIFF") /\
    getUint32 out 4 = Some (36 + len) /\
    get_bytes out 8 4 = Some (string_bytes "WAVE") /\
    get_bytes out 12 4 = Some (string_bytes "fmt ") /\
    getUint32 out 16 = Some 16 /\
    getUint16 out 20 = Some 1 /\
    getUint16 out 22 = Some c /\
    getUint32 out 24 = Some (sampleRate buffer) /\
    getUint32 out 28 = Some (sampleRate buffer * c * 2) /\
    getUint16 out 32 = Some (c * 2) /\
    getUint16 out 34 = Some 16 /\
    get_bytes out 36 4 = Some (string_bytes "data") /\
    getUint32 out 40 = Some len.
Proof.
  intros (Hrate & Hbyte & Halign & Hlen) c len.
  exists (header_bytes buffer ++ data_bytes buffer).
  split; [apply audioBufferToWav_bytes|].
  split; [rewrite length_app, length_header_bytes; lia|].
  assert (Hlen' : Z.of_nat (data_length buffer) = len)
    by (unfold data_length; subst len c; lia).
  unfold getUint32, getUint16.
  rewrite !get_bytes_header by (rewrite length_header_bytes; lia).
  unfold header_bytes. rewrite Hlen' in *. fold c in Hbyte, Halign |- *.
  assert (Hc : 0 <= c) by lia. assert (Hl : 0 <= len) by lia.
  clearbody len c.
  change (2 ^ 32) with 4294967296 in *. change (2 ^ 16) with 65536 in *.
  assert (P4 : 256 ^ Z.of_nat 4 = 4294967296) by reflexivity.
  assert (P2 : 256 ^ Z.of_nat 2 = 65536) by reflexivity.
  repeat split; try reflexivity; cbn [fmap option_fmap option_map]; f_equal.
  - apply (le_value_le_bytes 4 (36 + len)). lia.
  - apply (le_value_le_bytes 2 c). lia.
  - apply (le_value_le_bytes 4 (sampleRate buffer)). lia.
  - apply (le_value_le_bytes 4 (sampleRate buffer * c * 2)). nia.
  - apply (le_value_le_bytes 2 (c * 2)). lia.
  - apply (le_value_le_bytes 4 len). lia.
Qed.

Lemma audioBufferToWav_header_witness :
  exists out : list Z,
    audioBufferToWav sample_witness_buffer = Some out /\
    (44 <= length out)%nat /\
    get_bytes out 0 4 = Some (string_bytes "RIFF") /\
    getUint32 out 4 = Some (36 + 2 * 1 * 2) /\
    get_bytes out 8 4 = Some (string_bytes "WAVE") /\
    get_bytes out 12 4 = Some (string_bytes "fmt ") /\
    getUint32 out 16 = Some 16 /\
    getUint16 out 20 = Some 1 /\
    getUint16 out 22 = Some 1 /\
    getUint32 out 24 = Some 24000 /\
    getUint32 out 28 = Some (24000 * 1 * 2) /\
    getUint16 out 32 = Some (1 * 2) /\
    getUint16 out 34 = Some 16 /\
    get_bytes out 36 4 = Some (string_bytes "data") /\
    getUint32 out 40 = Some (2 * 1 * 2).
Proof.
  apply (audioBufferToWav_header sample_witness_buffer).
  vm_compute. repeat split; (reflexivity || discriminate).
Defined.

Lemma clamp_unit_idem q : clamp_unit (clamp_unit q) = clamp_unit q.
Proof.
  unfold clamp_unit at 2 3.
  destruct (Qlt_bool q (-1)) eqn:E1; [reflexivity|].
  destruct (Qlt_bool 1 q) eqn:E2; [reflexivity|].
  unfold clamp_unit. by rewrite E1, E2.
Qed.

(** C6: a sample of 1.5 encodes as 1.0 does, a sample of -2.0 as -1.0 does,
    and every finite sample as its clamped value does. *)
Theorem audioBufferToWav_clamps (buffer : AudioBuffer) (ch i : nat) :
  audioBufferToWav (set_sample buffer ch i (JS.Fin (3 # 2)))
  = audioBufferToWav (set_sample buffer ch i (JS.Fin 1)) /\
  audioBufferToWav (set_sample buffer ch i (JS.Fin (-2)))
  = audioBufferToWav (set_sample buffer ch i (JS.Fin (-1))) /\
  (forall q : Q,
     audioBufferToWav (set_sample buffer ch i (JS.Fin q))
     = audioBufferToWav (set_sample buffer ch i (JS.Fin (clamp_unit q)))).
Proof.
  split; [|split].
  - by apply set_sample_encode.
  - by apply set_sample_encode.
  - intros q. apply set_sample_encode.
    rewrite (scaled_spec (JS.Fin q) (clamp_unit q)) by done.
    rewrite (scaled_spec (JS.Fin (clamp_unit q)) (clamp_unit (clamp_unit q))) by done.
    by rewrite clamp_unit_idem.
Qed.

End WavProps.

Section KaraokeTick.
Import JS App Quantize KaraokeSpec AppWorld.

Lemma Qsgn_pos q : (0 < q)%Q -> exists p, Qsgn q = Zpos p.
Proof.
  destruct q as [n d]. unfold Qlt, Qsgn. simpl. intros H.
  destruct n as [|p|p]; try lia. by exists 1%positive.
Qed.

Lemma div_Fin_pos p q : (0 < q)%Q -> div (Fin p) (Fin q) = Fin (p / q).
Proof. intros H. unfold div. by destruct (Qsgn_pos q H) as [x ->]. Qed.


Lemma Qdiv_nonneg p q : (0 <= p)%Q -> (0 < q)%Q -> (0 <= p / q)%Q.
Proof.
  intros Hp Hq. unfold Qdiv. apply Qmult_le_0_compat; [done|].
  apply Qlt_le_weak. by apply Qinv_lt_0_compat.
Qed.

Lemma tick_index_spec elapsed duration n :
  (0 <= elapsed)%Q -> (0 < duration)%Q ->
  tick_index elapsed duration n = of_Z (index elapsed duration n).
Proof.
  intros He Hd. unfold tick_index, index.
  rewrite div_Fin_pos by done.
  assert (Hx : (0 <= elapsed / duration)%Q) by (by apply Qdiv_nonneg).
  set (x := (elapsed / duration)%Q) in *.
  unfold Math_min, of_Z, clamp, inject_Z at 1.
  assert (Hlo : Qlt_bool x 0 = false) by (by apply Qlt_bool_false).
  rewrite Hlo.
  destruct (Qle_bool 1 x) eqn:E; cbn [mul Math_floor]; unfold of_Z; do 2 f_equal.
  - apply Qfloor_comp. apply Qmult_comp; [|done].
    apply Qle_bool_iff in E.
    destruct (Qlt_bool 1 x) eqn:E'; [done|].
    apply Qlt_bool_false in E'. by apply Qle_antisym.
  - assert (E' : Qlt_bool 1 x = false).
    { apply Qlt_bool_false. destruct (Qlt_le_dec x 1) as [H|H].
      - by apply Qlt_le_weak.
      - apply Qle_bool_iff in H. congruence. }
    by rewrite E'.
Qed.

End KaraokeTick.

(** ** The component: what its computations do to the world *)
Section Worlds.
Import JS App KaraokeSpec AppWorld.

Lemma Qeq_bool_refl' q : Qeq_bool q q = true.
Proof. apply Qeq_bool_iff. reflexivity. Qed.

Lemma param_deps_same_refl s : param_deps_same s s = true.
Proof.
  unfold param_deps_same. rewrite !Qeq_bool_refl', !bool_decide_eq_true_2; done.
Qed.

Lemma karaoke_deps_same_refl s : karaoke_deps_same s s = true.
Proof.
  unfold karaoke_deps_same, same_buffer.
  rewrite !Qeq_bool_refl', !bool_decide_eq_true_2; done.
Qed.

(** A render in which no dependency changed runs no effect. *)
Lemma flush_same prev w :
  param_deps_same prev (st w) = true ->
  karaoke_deps_same prev (st w) = true ->
  flush prev w = Ok tt w.
Proof. intros Hp Hk. unfold flush. unfold_m. by rewrite Hp, Hk. Qed.

Lemma updateKaraoke_world cl w : updateKaraoke cl w = Ok tt (tick_world cl w).
Proof.
  unfold updateKaraoke, tick_world, requestAnimationFrame, setCurrentWordIndex.
  unfold_m. cbn [sub]. by destruct (lt _ _).
Qed.

Lemma deps_same_cursor s i :
  param_deps_same s (set_currentWordIndex i s) = true /\
  karaoke_deps_same s (set_currentWordIndex i s) = true.
Proof.
  split; [apply (param_deps_same_refl s)|apply (karaoke_deps_same_refl s)].
Qed.

Lemma st_tick_world cl w :
  exists i, st (tick_world cl w) = set_currentWordIndex i (st w).
Proof. unfold tick_world. eexists. by destruct (lt _ _). Qed.

Lemma invoke_updateKaraoke cl w :
  invoke (updateKaraoke cl) w = Ok tt (tick_world cl w).
Proof.
  unfold invoke. unfold_m. rewrite updateKaraoke_world.
  destruct (st_tick_world cl w) as [i Hi].
  apply flush_same; rewrite Hi; apply deps_same_cursor.
Qed.

Lemma try_stop_world s w : try_catch (source_stop s) w = Ok tt (stop_world s w).
Proof.
  unfold try_catch, source_stop, stop_world. cbv zeta.
  destruct (src_state <$> sources (with_call (CallStop s) w) !! s) as [[| |]|];
    try done.
  by destruct (stop_twice_throws _).
Qed.

Lemma paramEffect_ok props w : paramEffect props w = Ok tt (paramEffect_world props w).
Proof.
  unfold paramEffect, paramEffect_world, update_source, update_filter.
  unfold_m. unfold try_catch. by destruct (sourceNode props), (filterNode props).
Qed.

Lemma karaokeCleanup_ok w : karaokeCleanup w = Ok tt (cancel_world w).
Proof. reflexivity. Qed.

Lemma karaokeEffect_ok props w :
  karaokeEffect props w = Ok tt (karaokeEffect_world props w).
Proof.
  unfold karaokeEffect, karaokeEffect_world.
  by destruct (isPlaying props), (audioBuffer props), (audioContext props).
Qed.

Lemma flush_ok prev w : flush prev w = Ok tt (flush_world prev w).
Proof.
  unfold flush, flush_world. unfold_m.
  destruct (karaoke_deps_same prev (st w)), (param_deps_same prev (st w));
    rewrite ?karaokeCleanup_ok, ?paramEffect_ok, ?karaokeEffect_ok; done.
Qed.

(** A computation that returns: rendering after it returns too. *)
Lemma invoke_ok (h : M unit) (w w' : World) :
  h w = Ok tt w' -> invoke h w = Ok tt (flush_world (st w) w').
Proof. intros Hh. unfold invoke. unfold_m. rewrite Hh. apply flush_ok. Qed.

Lemma handleStop_ok props w : handleStop props w = Ok tt (handleStop_world props w).
Proof.
  unfold handleStop, handleStop_world. destruct (sourceNode props); [|done].
  unfold_m. by rewrite try_stop_world.
Qed.

Lemma alter_last {A} (f : A -> A) (l : list A) (x : A) :
  alter f (length l) (l ++ [x]) = l ++ [f x].
Proof. induction l as [|y l IH]; simpl; [done|]. by rewrite <- IH. Qed.

Lemma initAudio_ok props w : initAudio props w = Ok tt (initAudio_world props w).
Proof.
  unfold initAudio, initAudio_world. destruct (audioContext props); [done|].
  unfold new_AudioContext, createBiquadFilter, update_filter, setAudioContext,
    setFilterNode.
  unfold_m. destruct w. cbn. rewrite !alter_last. done.
Qed.

Lemma playAudio_ok props buffer ctx w :
  playAudio props (Some buffer) (Some ctx) w = Ok tt (playAudio_world props buffer w).
Proof.
  unfold playAudio, playAudio_world. unfold_m. cbv zeta.
  assert (Hstop : match sourceNode props with
                  | Some s => try_catch (source_stop s)
                  | None => fun w => Ok tt w
                  end w
                  = Ok tt (match sourceNode props with
                           | Some s => stop_world s w
                           | None => w
                           end)).
  { destruct (sourceNode props); [apply try_stop_world|done]. }
  rewrite Hstop. clear Hstop.
  generalize (match sourceNode props with Some s => stop_world s w | None => w end).
  clear w. intros w.
  unfold createBiquadFilter, createBufferSource, update_filter, update_source,
    setFilterNode, setSourceNode, setIsPlaying, source_start.
  unfold_m.
  destruct (filterNode props); destruct w; cbn; rewrite !alter_last;
    rewrite list_lookup_middle by done; cbn; rewrite ?alter_last; done.
Qed.

Lemma run_callbacks_ok cbs : forall w,
  run_callbacks cbs w = Ok tt (callbacks_world cbs w).
Proof.
  induction cbs as [|[id cl] cbs IH]; intros w; [done|].
  cbn [run_callbacks]. unfold_m. rewrite invoke_updateKaraoke. apply IH.
Qed.

(** Every event runs to its end: nothing a handler or an effect calls
    throws past it. *)
Lemma step_ok e w : step e w = Ok tt (step_world e w).
Proof.
  destruct e as [|render buffer ctx| | | | | | |s|s|d|]; cbn [step step_world].
  - unfold dispatch. unfold_m. by apply invoke_ok, initAudio_ok.
  - destruct buffer as [buffer|]; [destruct ctx as [ctx|]|];
      apply invoke_ok; [apply playAudio_ok|done|by destruct ctx].
  - unfold dispatch. unfold_m. by apply invoke_ok, handleStop_ok.
  - by apply invoke_ok.
  - by apply invoke_ok.
  - by apply invoke_ok.
  - by apply invoke_ok.
  - by apply invoke_ok.
  - unfold source_finish, finish_world.
    by destruct (src_state <$> sources w !! s) as [[| |]|].
  - unfold deliver_ended, ended_world.
    destruct (sources w !! s) as [src|]; [|done].
    destruct (src_ended_queued src); [|done].
    unfold update_source. unfold_m. destruct (src_onended src); [|done].
    by apply invoke_ok.
  - unfold advance, advance_world. by destruct (Qle_bool 0 d).
  - apply run_callbacks_ok.
Qed.

Lemma run_ok es : forall w, run es w = Ok tt (run_world es w).
Proof.
  induction es as [|e es IH]; intros w; [done|].
  cbn [run]. unfold_m. rewrite step_ok. apply IH.
Qed.

Lemma enabled_run_cons e es w :
  enabled_run (e :: es) w = enabled e w && enabled_run es (step_world e w).
Proof. cbn [enabled_run]. by rewrite step_ok. Qed.

Lemma enabled_run_app es1 es2 : forall w,
  enabled_run (es1 ++ es2) w
  = enabled_run es1 w && enabled_run es2 (run_world es1 w).
Proof.
  induction es1 as [|e es1 IH]; intros w; [done|].
  rewrite <- app_comm_cons, !enabled_run_cons, IH. cbn [run_world foldl].
  by rewrite andb_assoc.
Qed.

End Worlds.

(** ** Invariants of the reachable worlds *)
Section Invariants.
Import JS App AppWorld.

Lemma statuses_alter_same (f : SourceNode -> SourceNode) (s : nat) (ss : list SourceNode) :
  (forall x, src_state (f x) = src_state x) ->
  src_state <$> alter f s ss = src_state <$> ss.
Proof.
  intros Hf. apply list_eq. intros i.
  rewrite !list_lookup_fmap, list_lookup_alter.
  destruct (decide (s = i)) as [->|]; [|done].
  destruct (ss !! i); simpl; [by rewrite Hf|done].
Qed.

Lemma statuses_paramEffect props w :
  statuses (paramEffect_world props w) = statuses w.
Proof.
  unfold paramEffect_world, statuses.
  destruct (sourceNode props), (filterNode props); unfold_w;
    rewrite ?statuses_alter_same; done.
Qed.

(** What rendering leaves alone. *)
Lemma flush_world_keeps prev w :
  let w' := flush_world prev w in
  statuses w' = statuses w /\
  set_currentWordIndex (of_Z 0) (st w') = set_currentWordIndex (of_Z 0) (st w) /\
  startTimeRef w' = startTimeRef w /\
  currentTime w' = currentTime w /\
  calls w' = calls w /\
  contexts w' = contexts w /\
  stop_twice_throws w' = stop_twice_throws w.
Proof.
  unfold flush_world. cbv zeta.
  destruct (karaoke_deps_same prev (st w)), (param_deps_same prev (st w));
    unfold karaokeEffect_world, request_world, cancel_world;
    repeat match goal with
           | |- context [match ?x with _ => _ end] => destruct x
           end;
    unfold statuses; rewrite ?statuses_paramEffect; unfold statuses;
    unfold paramEffect_world;
    repeat match goal with
           | |- context [match ?x with _ => _ end] => destruct x
           end;
    unfold_w; rewrite ?statuses_alter_same; done.
Qed.

Lemma cancel_world_frames w : one_frame w -> frames (cancel_world w) = [].
Proof.
  intros [H|[cl H]]; unfold cancel_world; unfold_w; rewrite H; [done|].
  rewrite filter_cons. cbn [fst]. by rewrite decide_False by (intros ?; done).
Qed.

Lemma paramEffect_world_karaoke props w :
  let w' := paramEffect_world props w in
  st w' = st w /\ frames w' = frames w /\
  animationFrameRef w' = animationFrameRef w /\ next_frame w' = next_frame w.
Proof.
  unfold paramEffect_world.
  by destruct (sourceNode props), (filterNode props).
Qed.

(** What rendering does to the karaoke loop. *)
Lemma flush_world_karaoke prev w :
  one_frame w ->
  let w' := flush_world prev w in
  if karaoke_deps_same prev (st w) then
    frames w' = frames w /\ animationFrameRef w' = animationFrameRef w /\
    next_frame w' = next_frame w /\ st w' = st w
  else
    match isPlaying (st w), audioBuffer (st w), audioContext (st w) with
    | true, Some b, Some _ =>
        frames w' = [(animationFrameRef w', karaoke_closure (st w) b)] /\
        st w' = st w
    | _, _, _ =>
        frames w' = [] /\ st w' = set_currentWordIndex (of_Z (-1)) (st w)
    end.
Proof.
  intros Hone. unfold flush_world. cbv zeta.
  destruct (karaoke_deps_same prev (st w)).
  - destruct (param_deps_same prev (st w)); [done|].
    destruct (paramEffect_world_karaoke (st w) w) as (? & ? & ? & ?). done.
  - pose proof (cancel_world_frames w Hone) as Hc.
    assert (Hst : st (cancel_world w) = st w) by done.
    set (w1 := cancel_world w) in *.
    assert (H2 : exists w2, (if param_deps_same prev (st w) then w1
                             else paramEffect_world (st w) w1) = w2
                            /\ st w2 = st w /\ frames w2 = []).
    { destruct (param_deps_same prev (st w)); eexists; (split; [done|]).
      - done.
      - destruct (paramEffect_world_karaoke (st w) w1) as (-> & -> & ? & ?). done. }
    destruct H2 as (w2 & -> & Hst2 & Hf2).
    unfold karaokeEffect_world.
    destruct (isPlaying (st w)), (audioBuffer (st w)), (audioContext (st w));
      unfold request_world, cancel_world; unfold_w; rewrite ?Hf2, ?Hst2; done.
Qed.

Lemma flush_inv prev w :
  (forall id, is_playing w id -> sourceNode (st w) = Some id) ->
  one_frame w ->
  (karaoke_deps_same prev (st w) = true ->
   isPlaying (st w) = false ->
   frames w = [] /\ currentWordIndex (st w) = of_Z (-1)) ->
  (startTimeRef w <= currentTime w)%Q ->
  Inv (flush_world prev w).
Proof.
  intros Hact Hone Hidle Hclock.
  destruct (flush_world_keeps prev w) as (Hs & Hst & Hstart & Hnow & _).
  pose proof (flush_world_karaoke prev w Hone) as Hk. cbv zeta in Hk.
  set (w' := flush_world prev w) in *.
  assert (Hsrc : sourceNode (st w') = sourceNode (st w))
    by (apply (f_equal sourceNode) in Hst; done).
  assert (Hplay : isPlaying (st w') = isPlaying (st w))
    by (apply (f_equal isPlaying) in Hst; done).
  split.
  - intros id Hid. rewrite Hsrc. apply Hact. unfold is_playing in *. by rewrite <- Hs.
  - destruct (karaoke_deps_same prev (st w)).
    + destruct Hk as (Hf & Hr & _). unfold one_frame. by rewrite Hf, Hr.
    + destruct (isPlaying (st w)), (audioBuffer (st w)), (audioContext (st w));
        destruct Hk as [Hf _]; unfold one_frame; rewrite Hf; eauto.
  - rewrite Hplay. intros Hfalse.
    destruct (karaoke_deps_same prev (st w)).
    + destruct Hk as (Hf & _ & _ & Hst'). rewrite Hf, Hst'. by apply Hidle.
    + rewrite Hfalse in Hk. destruct Hk as [Hf Hst']. by rewrite Hf, Hst'.
  - by rewrite Hstart, Hnow.
Qed.

Lemma is_playing_lookup w id :
  is_playing w id <-> exists src, sources w !! id = Some src /\ src_state src = Playing.
Proof.
  unfold is_playing, statuses. rewrite list_lookup_fmap.
  destruct (sources w !! id) as [src|]; simpl; split.
  - intros [= H]. eauto.
  - intros (src' & [= <-] & H). by rewrite H.
  - done.
  - by intros (? & ? & ?).
Qed.

Lemma is_playing_end (s : nat) (q : bool) (w : World) (id : nat) :
  is_playing (with_sources (alter (src_set_state Finished q) s) w) id ->
  is_playing w id /\ id <> s.
Proof.
  rewrite !is_playing_lookup. unfold_w. intros (src & Hsrc & Hp).
  rewrite list_lookup_alter in Hsrc. destruct (decide (s = id)) as [->|Hne].
  - destruct (sources w !! id); simpl in Hsrc; [|done].
    injection Hsrc as <-. done.
  - split; [eauto|done].
Qed.

Lemma stop_world_playing s w id :
  is_playing (stop_world s w) id -> is_playing w id /\ id <> s.
Proof.
  unfold stop_world. cbv zeta.
  destruct (src_state <$> sources (with_call (CallStop s) w) !! s)
    as [[| |]|] eqn:E; intros H.
  - split; [done|]. intros ->. apply is_playing_lookup in H as (src & Hs & Hp).
    unfold_w. rewrite Hs in E. simpl in E. congruence.
  - by apply is_playing_end in H.
  - split; [done|]. intros ->. apply is_playing_lookup in H as (src & Hs & Hp).
    unfold_w. rewrite Hs in E. simpl in E. congruence.
  - split; [done|]. intros ->. apply is_playing_lookup in H as (src & Hs & Hp).
    unfold_w. rewrite Hs in E. simpl in E. congruence.
Qed.

Lemma stop_world_keeps s w :
  st (stop_world s w) = st w /\ frames (stop_world s w) = frames w /\
  animationFrameRef (stop_world s w) = animationFrameRef w /\
  startTimeRef (stop_world s w) = startTimeRef w /\
  currentTime (stop_world s w) = currentTime w /\
  filters (stop_world s w) = filters w /\
  length (sources (stop_world s w)) = length (sources w).
Proof.
  unfold stop_world. cbv zeta.
  destruct (src_state <$> sources (with_call (CallStop s) w) !! s) as [[| |]|];
    unfold_w; rewrite ?length_alter; done.
Qed.

Lemma karaoke_deps_same_isPlaying prev next :
  karaoke_deps_same prev next = true -> isPlaying prev = isPlaying next.
Proof.
  unfold karaoke_deps_same. rewrite !andb_true_iff.
  intros ((((H & _) & _) & _) & _). by apply bool_decide_eq_true in H.
Qed.

(** A handler that leaves the sources, the frames, the refs, the clock and
    the cursor alone keeps the invariant. *)
Lemma flush_inv_state (f : State -> State) (w : World) :
  Inv w ->
  (forall s, sourceNode (f s) = sourceNode s) ->
  (forall s, isPlaying (f s) = isPlaying s) ->
  (forall s, currentWordIndex (f s) = currentWordIndex s) ->
  Inv (flush_world (st w) (with_st f w)).
Proof.
  intros [Hact Hone Hidle Hclock] Hsrc Hplay Hcur. apply flush_inv; unfold_w.
  - intros id Hid. rewrite Hsrc. by apply Hact.
  - done.
  - intros _. rewrite Hplay, Hcur. done.
  - done.
Qed.

Lemma flush_inv_same (w : World) : Inv w -> Inv (flush_world (st w) w).
Proof. intros [Hact Hone Hidle Hclock]. by apply flush_inv. Qed.

Lemma initial_inv strict : Inv (initial strict).
Proof.
  split.
  - intros id. unfold is_playing, statuses. cbn. by rewrite lookup_nil.
  - by left.
  - done.
  - apply Qle_refl.
Qed.

Lemma tick_world_keeps cl w :
  let w' := tick_world cl w in
  sources w' = sources w /\ startTimeRef w' = startTimeRef w /\
  currentTime w' = currentTime w /\
  set_currentWordIndex (of_Z 0) (st w') = set_currentWordIndex (of_Z 0) (st w).
Proof. unfold tick_world. cbv zeta. by destruct (lt _ _). Qed.

Lemma step_inv e w : enabled e w = true -> Inv w -> Inv (step_world e w).
Proof.
  intros Hen HI. pose proof HI as [Hact Hone Hidle Hclock].
  destruct e as [|render buffer ctx| | | | | | |s|s|d|]; cbn [step_world].
  - (* initAudio *)
    unfold initAudio_world. destruct (audioContext (st w)).
    + by apply flush_inv_same.
    + apply flush_inv; unfold_w; done.
  - (* playAudio *)
    destruct buffer as [buffer|]; [destruct ctx as [ctx|]|];
      try by apply flush_inv_same.
    apply bool_decide_eq_true in Hen.
    apply flush_inv.
    + intros id Hid. unfold playAudio_world in *. cbv zeta in *.
      rewrite Hen in Hid |- *.
      set (w1 := match sourceNode (st w) with
                 | Some s => stop_world s w
                 | None => w
                 end) in *.
      assert (Hw1 : forall id, ~ is_playing w1 id).
      { intros id' Hid'. subst w1. destruct (sourceNode (st w)) as [s|] eqn:Es.
        - apply stop_world_playing in Hid' as [Hp Hne].
          apply Hact in Hp. congruence.
        - apply Hact in Hid'. congruence. }
      set (w2 := match filterNode render with
                 | Some _ => w1
                 | None => _
                 end) in *.
      assert (Hw2 : sources w2 = sources w1)
        by (subst w2; by destruct (filterNode render)).
      apply is_playing_lookup in Hid as (src & Hsrc & Hp).
      unfold_w. rewrite Hw2 in *.
      destruct (decide (id < length (sources w1))%nat) as [Hlt|Hge].
      * rewrite lookup_app_l in Hsrc by done.
        exfalso. apply (Hw1 id). apply is_playing_lookup. eauto.
      * destruct (decide (id = length (sources w1))) as [->|Hne]; [done|].
        rewrite lookup_ge_None_2 in Hsrc; [done|].
        rewrite length_app. simpl. lia.
    + unfold playAudio_world. cbv zeta.
      destruct (sourceNode render) as [s|], (filterNode render);
        unfold one_frame; unfold_w;
        rewrite ?(proj1 (proj2 (stop_world_keeps _ _)));
        rewrite ?(proj1 (proj2 (proj2 (stop_world_keeps _ _)))); done.
    + intros _. unfold playAudio_world. cbv zeta. done.
    + unfold playAudio_world. cbv zeta. unfold_w. apply Qle_refl.
  - (* handleStop *)
    unfold handleStop_world. destruct (sourceNode (st w)) as [s|] eqn:Es.
    + destruct (stop_world_keeps s w) as (Hst & Hf & Hr & Hs & Hn & _).
      apply flush_inv; unfold_w.
      * intros id Hid. rewrite Hst. cbn. rewrite Es. f_equal.
        assert (Hid' : is_playing (stop_world s w) id) by done.
        apply stop_world_playing in Hid' as [Hp _]. apply Hact in Hp. congruence.
      * unfold one_frame. unfold_w. by rewrite Hf, Hr.
      * intros Hsame _. apply karaoke_deps_same_isPlaying in Hsame.
        rewrite Hst in *. cbn in Hsame. rewrite Hf. cbn. by apply Hidle.
      * by rewrite Hs, Hn.
    + by apply flush_inv_same.
  - by apply (flush_inv_state (set_playbackRate v)).
  - by apply (flush_inv_state (set_pitchShift v)).
  - by apply (flush_inv_state (set_emphasis v)).
  - by apply (flush_inv_state (set_text v)).
  - by apply (flush_inv_state (set_audioBuffer v)).
  - (* a source reaches its end *)
    unfold finish_world. destruct (src_state <$> sources w !! s) as [[| |]|]; try done.
    split; try done. intros id Hid. apply is_playing_end in Hid as [Hp _].
    by apply Hact.
  - (* the ended event *)
    unfold ended_world. destruct (sources w !! s) as [src|] eqn:Es; [|done].
    destruct (src_ended_queued src); [|done].
    assert (Hsame : forall id,
               is_playing (with_sources (alter (src_set_state (src_state src) false) s) w) id
               -> is_playing w id).
    { intros id. rewrite !is_playing_lookup. unfold_w.
      rewrite list_lookup_alter. destruct (decide (s = id)) as [->|]; [|done].
      rewrite Es. simpl. intros (src' & [= <-] & Hp). eauto. }
    destruct (src_onended src).
    + apply flush_inv; unfold_w.
      * intros id Hid. cbn. apply Hact. by apply Hsame.
      * done.
      * intros Hk _. apply karaoke_deps_same_isPlaying in Hk. cbn in Hk.
        cbn. by apply Hidle.
      * done.
    + split; try done. intros id Hid. apply Hact. by apply Hsame.
  - (* the clock *)
    unfold advance_world. destruct (Qle_bool 0 d) eqn:Ed; [|done].
    apply Qle_bool_iff in Ed. split; try done. unfold_w.
    apply (Qle_trans _ (currentTime w + 0)).
    + by rewrite Qplus_0_r.
    + by apply Qplus_le_r.
  - (* a frame *)
    unfold frame_world, callbacks_world.
    destruct Hone as [Hf|[cl Hf]]; rewrite Hf; cbn [foldl snd].
    + split; try done; unfold_w; [by left|]. intros Hp.
      split; [done|]. by apply Hidle.
    + set (w0 := with_frames (fun _ => []) (next_frame w) w).
      destruct (tick_world_keeps cl w0) as (Hs & Hstart & Hnow & Hst).
      assert (Hplay : isPlaying (st w) = true).
      { destruct (isPlaying (st w)) eqn:E; [done|].
        destruct (Hidle eq_refl) as [Hnil _]. by rewrite Hnil in Hf. }
      split.
      * intros id Hid. apply (f_equal sourceNode) in Hst. cbn in Hst.
        rewrite Hst. apply Hact. apply is_playing_lookup in Hid.
        rewrite Hs in Hid. by apply is_playing_lookup.
      * unfold tick_world. cbv zeta. destruct (lt _ _); unfold one_frame; unfold_w; eauto.
      * apply (f_equal isPlaying) in Hst. cbn in Hst. rewrite Hst.
        subst w0. unfold_w. congruence.
      * by rewrite Hstart, Hnow.
Qed.

Lemma run_world_inv es : forall w,
  enabled_run es w = true -> Inv w -> Inv (run_world es w).
Proof.
  induction es as [|e es IH]; intros w Hen HI; [done|].
  rewrite enabled_run_cons in Hen. apply andb_true_iff in Hen as [He Hes].
  cbn. apply IH; [done|]. by apply step_inv.
Qed.

Lemma reachable_inv w : reachable w -> Inv w.
Proof.
  intros (strict & es & Hen & Hrun). rewrite run_ok in Hrun. injection Hrun as <-.
  apply run_world_inv; [done|apply initial_inv].
Qed.

(** *** Node ids held by the state are ids of nodes *)

Lemma onended_alter_same (f : SourceNode -> SourceNode) (s : nat) (ss : list SourceNode) :
  (forall x, src_onended (f x) = src_onended x) ->
  src_onended <$> alter f s ss = src_onended <$> ss.
Proof.
  intros Hf. apply list_eq. intros i.
  rewrite !list_lookup_fmap, list_lookup_alter.
  destruct (decide (s = i)) as [->|]; [|done].
  destruct (ss !! i); simpl; [by rewrite Hf|done].
Qed.

Lemma shape_alter_source f s w :
  (forall x, src_onended (f x) = src_onended x) ->
  shape (with_sources (alter f s) w) = shape w.
Proof.
  intros Hf. unfold shape. unfold_w.
  by rewrite length_alter, onended_alter_same.
Qed.

Lemma shape_paramEffect props w : shape (paramEffect_world props w) = shape w.
Proof.
  unfold paramEffect_world.
  destruct (sourceNode props), (filterNode props); unfold shape; unfold_w;
    rewrite ?length_alter, ?onended_alter_same; done.
Qed.

Lemma shape_flush prev w : shape (flush_world prev w) = shape w.
Proof.
  unfold flush_world. cbv zeta.
  assert (Hc : shape (cancel_world w) = shape w) by done.
  destruct (karaoke_deps_same prev (st w)), (param_deps_same prev (st w));
    rewrite ?shape_paramEffect; try done;
    unfold karaokeEffect_world;
    repeat match goal with
           | |- context [match ?x with _ => _ end] => destruct x
           end;
    unfold request_world, cancel_world, shape; unfold_w;
    try (change (sources (paramEffect_world ?p ?x)) with (sources (paramEffect_world p x)));
    try done.
  all: pose proof (shape_paramEffect (st w) (cancel_world w)) as Hp;
    unfold shape, cancel_world in Hp; unfold_w; done.
Qed.

Lemma shape_stop s w : shape (stop_world s w) = shape w.
Proof.
  unfold stop_world. cbv zeta.
  destruct (src_state <$> sources (with_call (CallStop s) w) !! s) as [[| |]|];
    try done.
  by rewrite shape_alter_source.
Qed.

Lemma shape_inv2 w w' :
  shape w' = shape w ->
  sourceNode (st w') = sourceNode (st w) ->
  filterNode (st w') = filterNode (st w) ->
  (isPlaying (st w') = true -> isPlaying (st w) = true) ->
  Inv2 w -> Inv2 w'.
Proof.
  unfold shape. intros [= Hs Hf Ho] Hsrc Hflt Hplay [H1 H2 H3 H4]. split.
  - rewrite Hsrc, Hs. done.
  - rewrite Hflt, Hf. done.
  - intros id src Hid.
    assert (Hl : (src_onended <$> sources w') !! id = Some (src_onended src))
      by (by rewrite list_lookup_fmap, Hid).
    rewrite Ho, list_lookup_fmap in Hl.
    destruct (sources w !! id) as [src0|] eqn:E; [|done].
    simpl in Hl. injection Hl as <-. by apply (H3 id).
  - intros Hp. rewrite Hsrc. by apply H4, Hplay.
Qed.

Lemma flush_inv2 prev w : Inv2 w -> Inv2 (flush_world prev w).
Proof.
  destruct (flush_world_keeps prev w) as (_ & Hst & _).
  apply shape_inv2.
  - apply shape_flush.
  - by apply (f_equal sourceNode) in Hst.
  - by apply (f_equal filterNode) in Hst.
  - apply (f_equal isPlaying) in Hst. cbn in Hst. by rewrite Hst.
Qed.

Lemma initial_inv2 strict : Inv2 (initial strict).
Proof.
  split; cbn; try done; try (intros id src; by rewrite lookup_nil).
Qed.

Lemma step_inv2 e w : Inv2 w -> Inv2 (step_world e w).
Proof.
  intros HI. pose proof HI as [Hsrc Hflt Hon Hplay].
  destruct e as [|render buffer ctx| | | | | | |s|s|d|]; cbn [step_world];
    try (apply flush_inv2; by apply (shape_inv2 w)).
  - (* initAudio *)
    apply flush_inv2. unfold initAudio_world.
    destruct (audioContext (st w)); [done|]. split; unfold_w; cbn.
    + done.
    + intros f [= <-]. rewrite length_app. simpl. lia.
    + done.
    + done.
  - (* playAudio *)
    destruct buffer as [buffer|]; [destruct ctx as [ctx|]|];
      try by apply flush_inv2.
    apply flush_inv2. unfold playAudio_world. cbv zeta.
    set (w1 := match sourceNode render with
               | Some s => stop_world s w
               | None => w
               end).
    assert (Hw1 : Inv2 w1).
    { subst w1. destruct (sourceNode render) as [s|]; [|done].
      destruct (stop_world_keeps s w) as (Hst & _).
      apply (shape_inv2 w); rewrite ?Hst; try done. apply shape_stop. }
    assert (Hst1 : st w1 = st w).
    { subst w1. destruct (sourceNode render) as [s|]; [|done].
      apply stop_world_keeps. }
    clearbody w1. destruct Hw1 as [H1 H2 H3 H4].
    destruct (filterNode render) as [f|] eqn:Ef; split; unfold_w; cbn.
    + intros s [= <-]. rewrite length_app. simpl. lia.
    + exact H2.
    + intros id src Hid. apply lookup_app_Some in Hid as [Hid|[_ Hid]].
      * by apply (H3 id).
      * apply list_lookup_singleton_Some in Hid as [_ <-]. done.
    + eauto.
    + intros s [= <-]. rewrite length_app. simpl. lia.
    + intros f [= <-]. rewrite length_app. simpl. lia.
    + intros id src Hid. apply lookup_app_Some in Hid as [Hid|[_ Hid]].
      * by apply (H3 id).
      * apply list_lookup_singleton_Some in Hid as [_ <-]. done.
    + eauto.
  - (* handleStop *)
    apply flush_inv2. unfold handleStop_world.
    destruct (sourceNode (st w)) as [s|] eqn:Es; [|done].
    destruct (stop_world_keeps s w) as (Hst & _).
    apply (shape_inv2 w); unfold_w; rewrite ?Hst; try done.
    apply shape_stop.
  - (* a source reaches its end *)
    unfold finish_world. destruct (src_state <$> sources w !! s) as [[| |]|]; try done.
    apply (shape_inv2 w); try done. by apply shape_alter_source.
  - (* the ended event *)
    unfold ended_world. destruct (sources w !! s) as [src|] eqn:Es; [|done].
    destruct (src_ended_queued src); [|done].
    assert (H1 : Inv2 (with_sources (alter (src_set_state (src_state src) false) s) w)).
    { apply (shape_inv2 w); try done. by apply shape_alter_source. }
    destruct (src_onended src); [|done].
    apply flush_inv2. revert H1. by apply shape_inv2.
  - (* the clock *)
    unfold advance_world. by destruct (Qle_bool 0 d).
  - (* a frame *)
    unfold frame_world, callbacks_world.
    assert (H0 : Inv2 (with_frames (fun _ => []) (next_frame w) w))
      by (by apply (shape_inv2 w)).
    revert H0. generalize (with_frames (fun _ => []) (next_frame w) w).
    induction (frames w) as [|[id cl] fs IH]; intros w0 H0; [done|].
    cbn [foldl snd]. apply IH.
    destruct (tick_world_keeps cl w0) as (Hs & _ & _ & Hst).
    revert H0. apply shape_inv2.
    + unfold shape. rewrite Hs. f_equal. f_equal.
      unfold tick_world. cbv zeta. by destruct (lt _ _).
    + by apply (f_equal sourceNode) in Hst.
    + by apply (f_equal filterNode) in Hst.
    + apply (f_equal isPlaying) in Hst. cbn in Hst. by rewrite Hst.
Qed.

Lemma reachable_inv2 w : reachable w -> Inv2 w.
Proof.
  intros (strict & es & _ & Hrun). rewrite run_ok in Hrun. injection Hrun as <-.
  generalize (initial_inv2 strict). generalize (initial strict).
  induction es as [|e es IH]; intros w HI; [done|].
  cbn. apply IH. by apply step_inv2.
Qed.

Lemma reachable_step e w :
  reachable w -> enabled e w = true -> reachable (step_world e w).
Proof.
  intros (strict & es & Hen & Hrun) He. exists strict, (es ++ [e]).
  rewrite run_ok in *. injection Hrun as <-. split.
  - rewrite enabled_run_app, Hen, enabled_run_cons, He. done.
  - unfold run_world. by rewrite foldl_app.
Qed.

End Invariants.

(** ** The playback engine *)
Section Engine.
Import JS App AppWorld.

Lemma flush_world_same prev w :
  param_deps_same prev (st w) = true ->
  karaoke_deps_same prev (st w) = true ->
  flush_world prev w = w.
Proof.
  intros Hp Hk. pose proof (flush_same prev w Hp Hk) as H.
  rewrite flush_ok in H. by injection H.
Qed.

Lemma flush_world_refl w : flush_world (st w) w = w.
Proof.
  apply flush_world_same; [apply param_deps_same_refl|apply karaoke_deps_same_refl].
Qed.

Lemma active_elem w id : id ∈ active w <-> is_playing w id.
Proof.
  unfold active, is_playing, statuses.
  rewrite list_elem_of_filter, elem_of_seq, list_lookup_fmap. split; [by intros [? _]|].
  intros H. split; [done|]. split; [lia|]. simpl.
  destruct (sources w !! id) eqn:E; [|done]. by apply lookup_lt_Some in E.
Qed.

Lemma active_NoDup w : NoDup (active w).
Proof. unfold active. apply NoDup_filter, NoDup_seq. Qed.

Lemma active_nil w : active w = [] <-> forall id, ~ is_playing w id.
Proof.
  split.
  - intros H id Hid. apply active_elem in Hid. rewrite H in Hid.
    by apply not_elem_of_nil in Hid.
  - intros H. destruct (active w) as [|a l] eqn:E; [done|]. exfalso.
    apply (H a), active_elem. rewrite E. by left.
Qed.

Lemma active_singleton w n :
  is_playing w n -> (forall id, is_playing w id -> id = n) -> active w = [n].
Proof.
  intros Hn Honly. pose proof (active_NoDup w) as Hnd.
  assert (Hall : forall id, id ∈ active w -> id = n)
    by (intros id Hid; by apply Honly, active_elem).
  apply active_elem in Hn.
  destruct (active w) as [|a [|b l]].
  - by apply not_elem_of_nil in Hn.
  - f_equal. apply Hall. by left.
  - exfalso. assert (a = n) as -> by (apply Hall; by left).
    assert (b = n) as -> by (apply Hall; right; by left).
    apply NoDup_cons in Hnd as [Hnot _]. apply Hnot. by left.
Qed.


Lemma set_isPlaying_same s : isPlaying s = false -> set_isPlaying false s = s.
Proof. destruct s. cbn. by intros ->. Qed.

Lemma stop_world_idle s w :
  ~ is_playing w s -> stop_world s w = with_call (CallStop s) w.
Proof.
  intros Hs. unfold stop_world. cbv zeta.
  destruct (src_state <$> sources (with_call (CallStop s) w) !! s)
    as [[| |]|] eqn:E; try done.
  exfalso. apply Hs. unfold is_playing, statuses. by rewrite list_lookup_fmap.
Qed.

Lemma handleStop_idle w :
  active w = [] -> isPlaying (st w) = false ->
  step_world EStop w = w \/
  exists s, sourceNode (st w) = Some s /\ step_world EStop w = with_call (CallStop s) w.
Proof.
  intros Hact Hplay. cbn [step_world]. unfold handleStop_world.
  destruct (sourceNode (st w)) as [s|] eqn:Es.
  - right. exists s. split; [done|].
    rewrite stop_world_idle by (by apply active_nil).
    assert (Hw : with_st (set_isPlaying false) (with_call (CallStop s) w)
                 = with_call (CallStop s) w).
    { unfold_w. by rewrite set_isPlaying_same. }
    rewrite Hw. apply (flush_world_refl (with_call (CallStop s) w)).
  - left. apply flush_world_refl.
Qed.

Lemma stopped_world_keeps w :
  st (stopped_world w) = st w /\
  length (sources (stopped_world w)) = length (sources w) /\
  filters (stopped_world w) = filters w /\
  currentTime (stopped_world w) = currentTime w /\
  calls (stopped_world w)
  = calls w ++ match sourceNode (st w) with Some s => [CallStop s] | None => [] end.
Proof.
  unfold stopped_world. destruct (sourceNode (st w)) as [s|].
  - destruct (stop_world_keeps s w) as (? & ? & ? & ? & ? & ? & ?).
    repeat split; try done. unfold stop_world. cbv zeta.
    by destruct (src_state <$> sources (with_call (CallStop s) w) !! s) as [[| |]|].
  - by rewrite app_nil_r.
Qed.

Lemma stopped_world_silent w :
  Inv w ->
  (forall id, ~ is_playing (stopped_world w) id) /\
  (forall s, is_playing w s -> statuses (stopped_world w) !! s = Some Finished).
Proof.
  intros [Hact _ _ _]. unfold stopped_world.
  destruct (sourceNode (st w)) as [s|] eqn:Es; split.
  - intros id Hid. apply stop_world_playing in Hid as [Hp Hne].
    apply Hact in Hp. congruence.
  - intros s' Hs'. pose proof (Hact s' Hs') as [= ->].
    unfold stop_world. cbv zeta. unfold is_playing, statuses in Hs'.
    rewrite list_lookup_fmap in Hs'. unfold_w. rewrite Hs'.
    unfold statuses. unfold_w. rewrite list_lookup_fmap, list_lookup_alter_eq.
    by destruct (sources w !! s').
  - intros id Hid. apply Hact in Hid. congruence.
  - intros s' Hs'. apply Hact in Hs'. congruence.
Qed.

Lemma playAudio_world_sources props buffer w :
  let w1 := match sourceNode props with Some s => stop_world s w | None => w end in
  let filter := default (length (filters w1)) (filterNode props) in
  sources (playAudio_world props buffer w)
  = sources w1 ++ [mkSourceNode (Some buffer) (playbackRate props) (pitchShift props)
                     (Some filter) true Playing false].
Proof. unfold playAudio_world. cbv zeta. by destruct (filterNode props). Qed.

(** One call of [playAudio] from a render that holds the source node of the
    state. *)
Lemma play_step (w : World) (render : State) (buffer : BufferObj) (ctx : nat) :
  Inv w ->
  sourceNode render = sourceNode (st w) ->
  let w' := step_world (EPlay render (Some buffer) (Some ctx)) w in
  let n := length (sources w) in
  sourceNode (st w') = Some n /\
  active w' = [n] /\
  calls w'
  = calls w ++ match sourceNode (st w) with Some s => [CallStop s] | None => [] end
            ++ [CallStart n] /\
  (forall s, is_playing w s -> statuses w' !! s = Some Finished) /\
  length (sources w') = S n.
Proof.
  intros HI Hrender. cbn [step_world]. cbv zeta.
  destruct (flush_world_keeps (st w) (playAudio_world render buffer w))
    as (Hs & Hst & _ & _ & Hc & _).
  pose proof (shape_flush (st w) (playAudio_world render buffer w)) as Hsh.
  set (w' := flush_world _ _) in *.
  destruct (stopped_world_keeps w) as (Hst1 & Hlen1 & Hf1 & Hn1 & Hc1).
  destruct (stopped_world_silent w HI) as (Hnone & Hfin).
  pose proof (playAudio_world_sources render buffer w) as Hsrc. cbv zeta in Hsrc.
  rewrite Hrender in Hsrc. fold (stopped_world w) in Hsrc.
  assert (Hstat : statuses w' = statuses (stopped_world w) ++ [Playing]).
  { rewrite Hs. unfold statuses. rewrite Hsrc. by rewrite fmap_app. }
  assert (Hl : length (statuses (stopped_world w)) = length (sources w))
    by (unfold statuses; by rewrite length_fmap).
  assert (Hplay : forall id, is_playing w' id <-> id = length (sources w)).
  { intros id. unfold is_playing. rewrite Hstat. split.
    - intros Hid. apply lookup_app_Some in Hid as [Hid|[Hge Hid]].
      + by apply Hnone in Hid.
      + apply list_lookup_singleton_Some in Hid as [Hid _]. lia.
    - intros ->. rewrite <- Hl. by rewrite list_lookup_middle. }
  split; [|split; [|split; [|split]]].
  - apply (f_equal sourceNode) in Hst. cbn in Hst. rewrite Hst.
    unfold playAudio_world. cbv zeta. rewrite Hrender. fold (stopped_world w).
    destruct (filterNode render); unfold_w; cbn; by rewrite Hlen1.
  - apply active_singleton; [by apply Hplay|]. intros id. by apply Hplay.
  - rewrite Hc. unfold playAudio_world. cbv zeta. rewrite Hrender.
    fold (stopped_world w).
    destruct (filterNode render); unfold_w; rewrite Hc1, Hlen1, <- app_assoc; done.
  - intros s Hs'. rewrite Hstat. apply Hfin in Hs'.
    rewrite lookup_app_l; [done|]. by apply lookup_lt_Some in Hs'.
  - assert (Hlen : length (sources w')
                   = length (sources (playAudio_world render buffer w)))
      by (unfold shape in Hsh; congruence).
    rewrite Hlen, Hsrc, length_app. simpl. lia.
Qed.

End Engine.

Section EngineProperties.
Import JS App AppWorld.



(** The render matters: [playAudio] stops the source node of the render it
    was created in.  Two calls from one and the same render, here the first,
    would leave both of their sources playing; the second of them is a call
    the component does not make. *)
Example playAudio_twice_from_one_render :
  exists w1 w2,
    step (EPlay first_render (Some two_frames) (Some 0%nat)) (initial false)
      = Ok tt w1 /\
    enabled (EPlay first_render (Some two_frames) (Some 0%nat)) w1 = false /\
    step (EPlay first_render (Some two_frames) (Some 0%nat)) w1 = Ok tt w2 /\
    active w1 = [0%nat] /\ active w2 = [0%nat; 1%nat].
Proof.
  set (play := step (EPlay first_render (Some two_frames) (Some 0%nat))).
  exists (world_of (play (initial false))),
    (world_of (play (world_of (play (initial false))))).
  split; [|split; [|split; [|split]]]; vm_compute; reflexivity.
Qed.

(** C8: with no source playing and [isPlaying] false (nothing was played,
    or the source was stopped, or its [onended] callback has run),
    [handleStop] returns without raising and leaves the engine as it is,
    however often it is called. *)
Theorem handleStop_without_active_source (w : World) :
  active w = [] ->
  isPlaying (st w) = false ->
  exists w' w'',
    step EStop w = Ok tt w' /\ engine w' = engine w /\
    step EStop w' = Ok tt w'' /\ engine w'' = engine w.
Proof.
  intros Hact Hplay.
  assert (Hstep : forall w, active w = [] -> isPlaying (st w) = false ->
            engine (step_world EStop w) = engine w /\
            active (step_world EStop w) = [] /\
            isPlaying (st (step_world EStop w)) = false).
  { clear. intros w Hact Hplay.
    destruct (handleStop_idle w Hact Hplay) as [->|(s & _ & ->)]; done. }
  destruct (Hstep w Hact Hplay) as (He & Ha & Hp).
  destruct (Hstep _ Ha Hp) as (He' & _ & _).
  exists (step_world EStop w), (step_world EStop (step_world EStop w)).
  repeat split; try apply step_ok; congruence.
Qed.

Lemma handleStop_without_active_source_witness :
  exists w' w'',
    step EStop ended_world_example = Ok tt w' /\
    engine w' = engine ended_world_example /\
    step EStop w' = Ok tt w'' /\ engine w'' = engine ended_world_example.
Proof.
  apply handleStop_without_active_source; reflexivity.
Defined.

(** There the host call itself throws; [handleStop] swallows it. *)
Example source_stop_throws_on_ended_source :
  raised (source_stop 0 ended_world_example) = true /\
  raised (handleStop (st ended_world_example) ended_world_example) = false.
Proof. split; reflexivity. Qed.

End EngineProperties.

(** ** The karaoke loop *)
Section Karaoke.
Import JS App Quantize KaraokeSpec AppWorld.



Lemma clamp_mono x y lo hi :
  (lo <= hi)%Q -> (x <= y)%Q -> (clamp x lo hi <= clamp y lo hi)%Q.
Proof.
  intros Hlh Hxy. unfold clamp.
  destruct (Qlt_bool x lo) eqn:E1, (Qlt_bool y lo) eqn:E2;
    destruct (Qlt_bool hi x) eqn:E3, (Qlt_bool hi y) eqn:E4;
    rewrite ?Qlt_bool_iff, ?Qlt_bool_false in *;
    try apply Qle_refl; try done.
  all: try (exfalso; apply (Qlt_irrefl lo)).
  all: try (by apply (Qle_lt_trans _ y); [apply (Qle_trans _ x)|]).
  all: try (by apply (Qle_lt_trans _ hi); [|apply (Qlt_le_trans _ x)]).
  all: try (by apply (Qle_trans _ y)).
  all: try (by apply (Qle_lt_trans _ x); [|apply (Qle_lt_trans _ y)]).
  all: try (by apply Qlt_le_weak).
  all: try (by apply (Qle_trans _ x)).
  all: exfalso; apply (Qlt_irrefl hi).
  all: try (by apply (Qlt_le_trans _ x); [|apply (Qle_trans _ y)]).
Qed.

Lemma index_mono e1 e2 d n :
  (0 < d)%Q -> (e1 <= e2)%Q -> index e1 d n <= index e2 d n.
Proof.
  intros Hd He. unfold index. apply Qfloor_resp_le.
  apply Qmult_le_compat_r.
  - apply clamp_mono; [done|]. unfold Qdiv. apply Qmult_le_compat_r; [done|].
    apply Qlt_le_weak. by apply Qinv_lt_0_compat.
  - change 0%Q with (inject_Z 0). rewrite <- Zle_Qle. lia.
Qed.

Lemma elapsed_nonneg w : Inv w -> (0 <= currentTime w - startTimeRef w)%Q.
Proof.
  intros [_ _ _ Hclock]. unfold Qminus. by rewrite <- Qle_minus_iff.
Qed.

(** The cursor after a tick, for a closure whose duration is a positive
    number. *)
Lemma tick_world_index cl d w :
  Inv w -> cl_duration cl = Fin d -> (0 < d)%Q ->
  currentWordIndex (st (tick_world cl w))
  = of_Z (index (currentTime w - startTimeRef w) d (length (cl_words cl))).
Proof.
  intros HI Hd Hpos. unfold tick_world. cbv zeta. rewrite Hd.
  rewrite <- tick_index_spec by (done || by apply elapsed_nonneg).
  by destruct (lt _ _).
Qed.


Lemma world_of_step e w : world_of (step e w) = step_world e w.
Proof. by rewrite step_ok. Qed.

Lemma frame_world_one id cl w :
  frames w = [(id, cl)] ->
  frame_world w = tick_world cl (with_frames (fun _ => []) (next_frame w) w).
Proof. intros Hf. unfold frame_world, callbacks_world. by rewrite Hf. Qed.

Lemma frame_world_none w :
  frames w = [] -> frame_world w = with_frames (fun _ => []) (next_frame w) w.
Proof. intros Hf. unfold frame_world, callbacks_world. by rewrite Hf. Qed.

Lemma time_event_enabled e w : time_event e -> enabled e w = true.
Proof. by intros [->|[d ->]]. Qed.

Lemma time_events_enabled es : forall w,
  Forall time_event es -> enabled_run es w = true.
Proof.
  induction es as [|e es IH]; intros w Hes; [done|].
  apply Forall_cons in Hes as [He Hes].
  rewrite enabled_run_cons, (time_event_enabled e w He). by apply IH.
Qed.

(** Without a requested frame, time passing changes neither the state nor
    the frames. *)
Lemma time_event_idle e w :
  time_event e -> frames w = [] ->
  st (step_world e w) = st w /\ frames (step_world e w) = [].
Proof.
  intros [->|[d ->]] Hf; cbn [step_world].
  - by rewrite frame_world_none.
  - unfold advance_world. by destruct (Qle_bool 0 d).
Qed.

Lemma time_events_idle es : forall w,
  Forall time_event es -> frames w = [] ->
  st (run_world es w) = st w /\ frames (run_world es w) = [] /\ ticks es w = [].
Proof.
  induction es as [|e es IH]; intros w Hes Hf; [done|].
  apply Forall_cons in Hes as [He Hes].
  destruct (time_event_idle e w He Hf) as [Hst Hf'].
  destruct (IH (step_world e w) Hes Hf') as (Hst2 & Hf2 & Ht).
  cbn [run_world foldl ticks]. rewrite world_of_step. fold (run_world es (step_world e w)).
  rewrite Hf. split; [congruence|]. split; [done|].
  by destruct e.
Qed.

Lemma tick_world_frames cl w :
  frames w = [] ->
  frames (tick_world cl w) = [] \/
  frames (tick_world cl w) = [(animationFrameRef (tick_world cl w), cl)].
Proof.
  intros Hf. unfold tick_world. cbv zeta.
  destruct (lt _ _); unfold_w; rewrite Hf; [by right|by left].
Qed.

(** The indices of one playback never decrease. *)
Lemma ticks_sorted es : forall w,
  Inv w ->
  (forall id cl, (id, cl) ∈ frames w -> positive_duration cl) ->
  Forall time_event es ->
  exists zs,
    ticks es w = of_Z <$> zs /\
    StronglySorted Z.le zs /\
    (forall id cl d, frames w = [(id, cl)] -> cl_duration cl = Fin d ->
       Forall (fun z => index (currentTime w - startTimeRef w) d
                          (length (cl_words cl)) <= z) zs).
Proof.
  induction es as [|e es IH]; intros w HI Hpos Hes.
  - exists []. repeat split; try constructor.
  - apply Forall_cons in Hes as [He Hes].
    assert (HI' : Inv (step_world e w))
      by (apply step_inv; [by apply time_event_enabled|done]).
    cbn [ticks]. rewrite world_of_step.
    destruct (inv_frames w HI) as [Hf|[cl Hf]].
    + (* no frame is requested *)
      destruct (time_event_idle e w He Hf) as [_ Hf'].
      destruct (time_events_idle es (step_world e w) Hes Hf') as (_ & _ & ->).
      exists []. rewrite Hf. repeat split; try constructor; by destruct e.
    + destruct (Hpos (animationFrameRef w) cl) as (d & Hd & Hdpos);
        [rewrite Hf; by left|].
      destruct He as [->|[dt ->]].
      * (* the frame callback runs *)
        rewrite Hf. cbn [step_world]. rewrite (frame_world_one _ cl w Hf).
        set (w0 := with_frames (fun _ => []) (next_frame w) w).
        assert (HI0 : Inv w0).
        { destruct HI as [H1 H2 H3 H4]. split; try done; [by left|].
          intros Hp. destruct (H3 Hp) as [Hnil _]. by rewrite Hnil in Hf. }
        assert (Hidx := tick_world_index cl d w0 HI0 Hd Hdpos).
        change (currentTime w0) with (currentTime w) in Hidx.
        change (startTimeRef w0) with (startTimeRef w) in Hidx.
        cbn [step_world] in HI'. rewrite (frame_world_one _ cl w Hf) in HI'.
        fold w0 in HI'.
        destruct (tick_world_keeps cl w0) as (_ & Hstart & Hnow & _).
        change (currentTime w0) with (currentTime w) in Hnow.
        change (startTimeRef w0) with (startTimeRef w) in Hstart.
        destruct (tick_world_frames cl w0 eq_refl) as [Hnil|Hone].
        -- destruct (time_events_idle es _ Hes Hnil) as (_ & _ & ->).
           exists [index (currentTime w - startTimeRef w) d (length (cl_words cl))].
           rewrite Hidx. repeat split.
           ++ repeat constructor.
           ++ intros id cl' d' [= _ <-] Hd'. rewrite Hd in Hd'.
              injection Hd' as <-. repeat constructor. lia.
        -- destruct (IH (tick_world cl w0) HI') as (zs & Hzs & Hsorted & Hlow).
           { intros id cl' Hin. rewrite Hone in Hin.
             apply list_elem_of_singleton in Hin as [= _ ->]. by exists d. }
           { done. }
           specialize (Hlow _ cl d Hone Hd). rewrite Hstart, Hnow in Hlow.
           exists (index (currentTime w - startTimeRef w) d (length (cl_words cl)) :: zs).
           rewrite Hidx, Hzs. repeat split.
           ++ by constructor.
           ++ intros id cl' d' [= _ <-] Hd'. rewrite Hd in Hd'.
              injection Hd' as <-. constructor; [lia|done].
      * (* the clock moves on *)
        rewrite Hf. cbn [step_world] in *.
        destruct (IH (advance_world dt w) HI') as (zs & Hzs & Hsorted & Hlow).
        { intros id cl' Hin. apply (Hpos id cl').
          unfold advance_world in Hin. by destruct (Qle_bool 0 dt). }
        { done. }
        exists zs. split; [done|]. split; [done|].
        intros id cl' d' [= _ <-] Hd'. rewrite Hd in Hd'. injection Hd' as <-.
        assert (Hf' : frames (advance_world dt w) = [(animationFrameRef w, cl)])
          by (unfold advance_world; by destruct (Qle_bool 0 dt)).
        specialize (Hlow _ cl d Hf' Hd).
        eapply Forall_impl; [exact Hlow|]. intros z Hz. cbv beta in Hz.
        etrans; [|exact Hz]. apply index_mono; [done|].
        unfold advance_world. destruct (Qle_bool 0 dt) eqn:Edt; [|apply Qle_refl].
        apply Qle_bool_iff in Edt. unfold_w. unfold Qminus.
        apply Qplus_le_l. apply (Qle_trans _ (currentTime w + 0)).
        -- rewrite Qplus_0_r. apply Qle_refl.
        -- by apply Qplus_le_r.
Qed.

End Karaoke.

Section KaraokeProperties.
Import JS App Quantize KaraokeSpec AppWorld.

Lemma karaoke_deps_changed prev next :
  isPlaying prev <> isPlaying next -> karaoke_deps_same prev next = false.
Proof.
  intros H. unfold karaoke_deps_same. by rewrite bool_decide_eq_false_2.
Qed.

(** Rendering after [isPlaying] went from true to false stops the loop. *)
Lemma flush_world_stops prev w :
  one_frame w -> isPlaying prev = true -> isPlaying (st w) = false ->
  let w' := flush_world prev w in
  isPlaying (st w') = false /\ currentWordIndex (st w') = of_Z (-1) /\
  frames w' = [].
Proof.
  intros Hone Hprev Hnext. cbv zeta.
  pose proof (flush_world_karaoke prev w Hone) as Hk. cbv zeta in Hk.
  rewrite karaoke_deps_changed in Hk by congruence.
  rewrite Hnext in Hk. destruct Hk as [Hf Hst]. rewrite Hf, Hst.
  by rewrite <- Hnext.
Qed.

Lemma stop_resets w :
  Inv w -> Inv2 w -> isPlaying (st w) = true ->
  let w' := step_world EStop w in
  isPlaying (st w') = false /\ currentWordIndex (st w') = of_Z (-1) /\
  frames w' = [].
Proof.
  intros HI HI2 Hplay. cbn [step_world]. unfold handleStop_world.
  destruct (inv_playing w HI2 Hplay) as [s Hs]. rewrite Hs.
  destruct (stop_world_keeps s w) as (Hst & Hf & Hr & _).
  apply flush_world_stops; unfold_w; try done.
  unfold one_frame. unfold_w. rewrite Hf, Hr. apply (inv_frames w HI).
Qed.

Lemma natural_end_resets w s :
  Inv w -> Inv2 w -> isPlaying (st w) = true -> is_playing w s ->
  let w' := run_world [EFinish s; EEnded s] w in
  isPlaying (st w') = false /\ currentWordIndex (st w') = of_Z (-1) /\
  frames w' = [].
Proof.
  intros HI HI2 Hplay Hs. cbn [run_world foldl step_world].
  apply is_playing_lookup in Hs as (src & Hsrc & Hp).
  unfold finish_world. rewrite Hsrc. cbn [fmap option_fmap option_map]. rewrite Hp.
  unfold ended_world. unfold_w. rewrite list_lookup_alter_eq, Hsrc.
  cbn [fmap option_fmap option_map src_set_state src_ended_queued src_onended
       src_state].
  rewrite (inv_onended w HI2 s src Hsrc).
  apply flush_world_stops; unfold_w; try done.
  apply (inv_frames w HI).
Qed.


Lemma scenario_B_reachable : reachable scenario_B.
Proof.
  eexists false, _. split; [|apply run_ok]. vm_compute. reflexivity.
Qed.


Lemma run_world_reachable es w :
  reachable w -> enabled_run es w = true -> reachable (run_world es w).
Proof.
  revert w. induction es as [|e es IH]; intros w Hw Hen; [done|].
  rewrite enabled_run_cons in Hen. apply andb_true_iff in Hen as [He Hes].
  cbn. apply IH; [|done]. by apply reachable_step.
Qed.

(** C7: while only time passes, the indices the ticks emit never decrease;
    and when playback stops, by [handleStop] or because the source reached
    its end and its [onended] ran, the cursor is -1 and no tick is pending. *)
Theorem karaoke_cursor_monotone_and_reset (w : World) (es : list event) (s : nat) :
  reachable w ->
  (forall id cl, (id, cl) ∈ frames w -> positive_duration cl) ->
  Forall time_event es ->
  isPlaying (st w) = true ->
  is_playing w s ->
  (exists zs, ticks es w = of_Z <$> zs /\ StronglySorted Z.le zs) /\
  (exists w',
     step EStop w = Ok tt w' /\ isPlaying (st w') = false /\
     currentWordIndex (st w') = of_Z (-1) /\ frames w' = []) /\
  (exists w',
     run [EFinish s; EEnded s] w = Ok tt w' /\ isPlaying (st w') = false /\
     currentWordIndex (st w') = of_Z (-1) /\ frames w' = []).
Proof.
  intros Hreach Hpos Hes Hplay Hs.
  pose proof (reachable_inv w Hreach) as HI.
  pose proof (reachable_inv2 w Hreach) as HI2.
  split; [|split].
  - destruct (ticks_sorted es w HI Hpos Hes) as (zs & Hzs & Hsorted & _). eauto.
  - eexists. split; [apply step_ok|]. by apply stop_resets.
  - eexists. split; [apply run_ok|]. by apply natural_end_resets.
Qed.

Lemma scenario_B_frames :
  frames scenario_B = [(1%nat, karaoke_closure (st scenario_B) four_seconds)].
Proof. vm_compute. reflexivity. Qed.

Lemma scenario_B_positive id cl :
  (id, cl) ∈ frames scenario_B -> positive_duration cl.
Proof.
  rewrite scenario_B_frames. intros Hin.
  apply list_elem_of_singleton in Hin as [= _ ->].
  exists (96000 # 24000). split; [vm_compute; reflexivity|reflexivity].
Qed.

Lemma time_events_example :
  Forall time_event [EFrame; EAdvance 1; EFrame; EAdvance 5; EFrame; EFrame].
Proof.
  repeat (apply List.Forall_cons; [(by left) || (right; eauto)|]).
  apply List.Forall_nil.
Qed.

Lemma karaoke_cursor_monotone_and_reset_witness :
  (exists zs,
     ticks [EFrame; EAdvance 1; EFrame; EAdvance 5; EFrame; EFrame] scenario_B
     = of_Z <$> zs /\ StronglySorted Z.le zs) /\
  (exists w',
     step EStop scenario_B = Ok tt w' /\ isPlaying (st w') = false /\
     currentWordIndex (st w') = of_Z (-1) /\ frames w' = []) /\
  (exists w',
     run [EFinish 0; EEnded 0] scenario_B = Ok tt w' /\ isPlaying (st w') = false /\
     currentWordIndex (st w') = of_Z (-1) /\ frames w' = []).
Proof.
  apply (karaoke_cursor_monotone_and_reset scenario_B _ 0).
  - apply scenario_B_reachable.
  - apply scenario_B_positive.
  - apply time_events_example.
  - reflexivity.
  - reflexivity.
Defined.

Lemma index_full e d n : (0 < d)%Q -> (d <= e)%Q -> index e d n = Z.of_nat n.
Proof.
  intros Hd He. unfold index.
  assert (Hx : (1 <= e / d)%Q).
  { apply Qle_shift_div_l; [done|]. by rewrite Qmult_1_l. }
  assert (Hc : (clamp (e / d) 0 1 == 1)%Q).
  { unfold clamp.
    assert (H0 : Qlt_bool (e / d) 0 = false).
    { apply Qlt_bool_false. by apply (Qle_trans _ 1). }
    rewrite H0. destruct (Qlt_bool 1 (e / d)) eqn:E; [reflexivity|].
    apply Qlt_bool_false in E. by apply Qle_antisym. }
  rewrite (Qfloor_comp _ (inject_Z (Z.of_nat n))).
  - apply Qfloor_Z.
  - rewrite Hc. apply Qmult_1_l.
Qed.

(** C10: a tick at or after the end of the playback sets the cursor to the
    word count, which is no index of the transcript, and requests no further
    frame; time passing leaves it there; [handleStop] resets it to -1. *)
Theorem karaoke_index_past_end
    (w : World) (id : nat) (cl : Closure) (d : Q) (es : list event) :
  reachable w ->
  frames w = [(id, cl)] ->
  cl_duration cl = Fin d ->
  (0 < d)%Q ->
  (d <= currentTime w - startTimeRef w)%Q ->
  Forall time_event es ->
  let n := length (cl_words cl) in
  exists w1 w2 w3,
    step EFrame w = Ok tt w1 /\
    currentWordIndex (st w1) = of_Z (Z.of_nat n) /\
    cl_words cl !! n = None /\
    frames w1 = [] /\
    run es w1 = Ok tt w2 /\
    currentWordIndex (st w2) = of_Z (Z.of_nat n) /\
    step EStop w2 = Ok tt w3 /\
    currentWordIndex (st w3) = of_Z (-1).
Proof.
  intros Hreach Hf Hd Hdpos Hend Hes n.
  pose proof (reachable_inv w Hreach) as HI.
  set (w0 := with_frames (fun _ => []) (next_frame w) w).
  assert (Hplay : isPlaying (st w) = true).
  { destruct (isPlaying (st w)) eqn:E; [done|].
    destruct (inv_idle w HI E) as [Hnil _]. by rewrite Hnil in Hf. }
  assert (HI0 : Inv w0).
  { destruct HI as [H1 H2 H3 H4]. split; try done; [by left|].
    intros Hp. change (isPlaying (st w) = false) in Hp. congruence. }
  assert (Hw1 : step_world EFrame w = tick_world cl w0)
    by (cbn [step_world]; by rewrite (frame_world_one id cl w Hf)).
  assert (Hidx := tick_world_index cl d w0 HI0 Hd Hdpos).
  change (currentTime w0) with (currentTime w) in Hidx.
  change (startTimeRef w0) with (startTimeRef w) in Hidx.
  rewrite index_full in Hidx by done.
  assert (Hnil : frames (tick_world cl w0) = []).
  { unfold tick_world. cbv zeta. rewrite Hd.
    change (currentTime w0) with (currentTime w).
    change (startTimeRef w0) with (startTimeRef w).
    cbn [lt]. apply Qle_bool_iff in Hend. by rewrite Hend. }
  destruct (time_events_idle es _ Hes Hnil) as (Hst2 & _ & _).
  assert (Hr1 : reachable (tick_world cl w0))
    by (rewrite <- Hw1; by apply reachable_step).
  assert (Hr2 := run_world_reachable es _ Hr1 (time_events_enabled es _ Hes)).
  assert (Hplay2 : isPlaying (st (run_world es (tick_world cl w0))) = true).
  { rewrite Hst2. destruct (tick_world_keeps cl w0) as (_ & _ & _ & Hst).
    apply (f_equal isPlaying) in Hst. cbn in Hst. by rewrite Hst. }
  destruct (stop_resets _ (reachable_inv _ Hr2) (reachable_inv2 _ Hr2) Hplay2)
    as (_ & Hreset & _).
  exists (tick_world cl w0), (run_world es (tick_world cl w0)),
    (step_world EStop (run_world es (tick_world cl w0))).
  repeat split.
  - rewrite step_ok. by rewrite Hw1.
  - exact Hidx.
  - by apply lookup_ge_None_2.
  - exact Hnil.
  - apply run_ok.
  - by rewrite Hst2.
  - apply step_ok.
  - exact Hreset.
Qed.

Lemma karaoke_index_past_end_witness :
  exists w1 w2 w3,
    step EFrame scenario_B_late = Ok tt w1 /\
    currentWordIndex (st w1) = of_Z 4 /\
    (Text.of_string <$> ["A"; "B"; "C"; "D"]%string) !! 4%nat = None /\
    frames w1 = [] /\
    run [EAdvance 1; EFrame] w1 = Ok tt w2 /\
    currentWordIndex (st w2) = of_Z 4 /\
    step EStop w2 = Ok tt w3 /\
    currentWordIndex (st w3) = of_Z (-1).
Proof.
  apply (karaoke_index_past_end scenario_B_late 1
           (karaoke_closure (st scenario_B) four_seconds) (96000 # 24000)
           [EAdvance 1; EFrame]).
  - apply run_world_reachable; [apply scenario_B_reachable|reflexivity].
  - vm_compute. reflexivity.
  - vm_compute. reflexivity.
  - reflexivity.
  - vm_compute. discriminate.
  - repeat (apply List.Forall_cons; [(by left) || (right; eauto)|]).
    apply List.Forall_nil.
Defined.

End KaraokeProperties.

(** ** Parameter updates *)
Section Params.
Import JS App AppWorld.

Lemma fmap_alter_absorb {A B} (g : A -> B) (f : A -> A) (i : nat) (l : list A) :
  (forall x, g (f x) = g x) -> g <$> alter f i l = g <$> l.
Proof.
  intros Hf. apply list_eq. intros j.
  rewrite !list_lookup_fmap, list_lookup_alter.
  destruct (decide (i = j)) as [->|]; [|done].
  destruct (l !! j); simpl; [by rewrite Hf|done].
Qed.









Lemma paramEffect_world_nodes props w :
  sources (paramEffect_world props w) = apply_source_params props (sources w) /\
  filters (paramEffect_world props w) = apply_filter_params props (filters w).
Proof.
  unfold paramEffect_world, apply_source_params, apply_filter_params.
  by destruct (sourceNode props), (filterNode props).
Qed.

(** The nodes after a render whose parameter dependencies changed. *)
Lemma flush_world_nodes prev w :
  param_deps_same prev (st w) = false ->
  sources (flush_world prev w) = apply_source_params (st w) (sources w) /\
  filters (flush_world prev w) = apply_filter_params (st w) (filters w).
Proof.
  intros Hp. unfold flush_world. cbv zeta. rewrite Hp.
  destruct (karaoke_deps_same prev (st w)).
  - apply paramEffect_world_nodes.
  - destruct (paramEffect_world_nodes (st w) (cancel_world w)) as [Hs Hf].
    unfold karaokeEffect_world.
    destruct (isPlaying (st w)), (audioBuffer (st w)), (audioContext (st w));
      unfold request_world, cancel_world in *; unfold_w; by rewrite ?Hs, ?Hf.
Qed.

Lemma param_deps_changed prev next :
  sourceNode prev <> sourceNode next -> param_deps_same prev next = false.
Proof.
  intros H. unfold param_deps_same.
  rewrite (bool_decide_eq_false_2 (sourceNode prev = sourceNode next)) by done.
  by rewrite andb_false_r.
Qed.





End Params.

(** ** The encoder of the worker *)
Section WorkerEncoder.
Import DataView Wav WavBytes Worker.

Local Ltac fill_step :=
  first
    [ rewrite writeString_fill by (rewrite ?length_app; simpl; lia)
    | rewrite set_bytes_fill by (rewrite ?length_app; simpl; lia) ];
  cbn [mbind option_bind].

(** The frames of a buffer with one channel are its samples. *)
Lemma data_bytes_mono (rate : Z) (samples : list JS.number) :
  data_bytes (mkAudioBuffer rate (length samples) [samples])
  = flat_map (fun i => le_bytes 2 (JS.to_integer (scaled (typed_get samples i))))
      (seq 0 (length samples)).
Proof.
  unfold data_bytes. cbn [buffer_length]. apply flat_map_ext. intros i.
  unfold frame_bytes, sample_bytes, numberOfChannels, getChannelData.
  cbn [channels length seq flat_map lookup list_lookup default].
  by rewrite app_nil_r.
Qed.

Lemma encodeWAV_bytes (samples : list JS.number) (sampleRate : Z) :
  encodeWAV samples sampleRate
  = Some (header_bytes (mkAudioBuffer sampleRate (length samples) [samples])
          ++ data_bytes (mkAudioBuffer sampleRate (length samples) [samples])).
Proof.
  unfold encodeWAV, new_ArrayBuffer, setUint32, setUint16. cbv zeta.
  rewrite data_bytes_mono.
  set (n := length samples).
  change (replicate (44 + n * 1 * 2) 0) with ([] ++ replicate (44 + n * 1 * 2) 0).
  do 13 fill_step.
  unfold for_range.
  rewrite (samples_fill (fun i => scaled (typed_get samples i))) by (simpl; lia).
  cbn [mbind option_bind fst]. f_equal.
  replace (_ - _)%nat with 0%nat by (simpl; lia).
  simpl replicate. rewrite app_nil_r.
  unfold header_bytes, data_length, numberOfChannels.
  cbn [buffer_length channels Wav.sampleRate length]. fold n.
  rewrite <- !app_assoc. reflexivity.
Qed.

(** X1: the worker's [encodeWAV] and [audioBufferToWav] write the same file
    for the same samples at the same rate. *)
Theorem encodeWAV_audioBufferToWav (samples : list JS.number) (sampleRate : Z) :
  encodeWAV samples sampleRate
  = audioBufferToWav (mkAudioBuffer sampleRate (length samples) [samples]) /\
  onmessage "ENCODE_WAV" samples sampleRate
  = (fun blob => [WAV_READY blob])
      <$> audioBufferToWav (mkAudioBuffer sampleRate (length samples) [samples]).
Proof.
  assert (H : encodeWAV samples sampleRate
              = audioBufferToWav (mkAudioBuffer sampleRate (length samples) [samples]))
    by (by rewrite encodeWAV_bytes, audioBufferToWav_bytes).
  split; [done|]. unfold onmessage. cbn [String.eqb Ascii.eqb Bool.eqb].
  rewrite H. by destruct (audioBufferToWav _).
Qed.

End WorkerEncoder.

(** ** Loops that fill an array from left to right *)
Section IterFill.
Context {A : Type}.

Lemma iter_from_ext {S : Type} (body1 body2 : nat -> S -> S) : forall n i s,
  (forall j s', (i <= j < i + n)%nat -> body1 j s' = body2 j s') ->
  iter_from i n body1 s = iter_from i n body2 s.
Proof.
  induction n as [|n IH]; intros i s Hext; simpl; [done|].
  rewrite Hext by lia. apply IH. intros j s' Hj. apply Hext. lia.
Qed.

(** Writes beyond the end of an array leave it as it is. *)
Lemma insert_loop_beyond (g : nat -> A) : forall k i (l : list A),
  (length l <= i)%nat ->
  iter_from i k (fun j l => <[j := g j]> l) l = l.
Proof.
  induction k as [|k IH]; intros i l Hi; simpl; [done|].
  rewrite list_insert_ge by done. apply IH. lia.
Qed.

Lemma insert_loop_fill (g : nat -> A) : forall k (done rest : list A),
  (length rest <= k)%nat ->
  iter_from (length done) k (fun j l => <[j := g j]> l) (done ++ rest)
  = done ++ (g <$> seq (length done) (length rest)).
Proof.
  induction k as [|k IH]; intros done rest Hk.
  - destruct rest; [|simpl in Hk; lia]. done.
  - destruct rest as [|x rest].
    + simpl. rewrite app_nil_r, list_insert_ge by lia.
      apply insert_loop_beyond. lia.
    + cbn [iter_from]. rewrite insert_app_r_alt by lia.
      rewrite Nat.sub_diag. cbn [insert list_insert].
      replace (done ++ g (length done) :: rest)
        with ((done ++ [g (length done)]) ++ rest) by (by rewrite <- app_assoc).
      replace (S (length done)) with (length (done ++ [g (length done)]))
        by (rewrite length_app; simpl; lia).
      rewrite IH by (simpl in Hk; lia).
      rewrite length_app. cbn [length seq fmap list_fmap].
      rewrite <- app_assoc. by rewrite Nat.add_1_r.
Qed.

Lemma alter_loop_fill (F : nat -> A -> A) (z : A) : forall k (done : list A) m,
  (k <= m)%nat ->
  iter_from (length done) k (fun c l => alter (F c) c l) (done ++ replicate m z)
  = done ++ ((fun c => F c z) <$> seq (length done) k) ++ replicate (m - k) z.
Proof.
  induction k as [|k IH]; intros done m Hk.
  - simpl. by rewrite Nat.sub_0_r.
  - destruct m as [|m]; [lia|]. cbn [iter_from replicate].
    rewrite alter_app_r_alt by lia. rewrite Nat.sub_diag. cbn [alter list_alter].
    replace (done ++ F (length done) z :: replicate m z)
      with ((done ++ [F (length done) z]) ++ replicate m z)
      by (by rewrite <- app_assoc).
    replace (S (length done)) with (length (done ++ [F (length done) z]))
      by (rewrite length_app; simpl; lia).
    rewrite IH by lia. rewrite length_app. cbn [length seq fmap list_fmap].
    rewrite <- app_assoc. cbn [app]. by rewrite Nat.add_1_r.
Qed.

Lemma alter_alter (f g : A -> A) : forall (l : list A) i,
  alter f i (alter g i l) = alter (fun x => f (g x)) i l.
Proof.
  induction l as [|x l IH]; intros [|i]; cbn; try done. f_equal. apply IH.
Qed.

End IterFill.

(** ** From PCM bytes to the [AudioBuffer] *)
Section Pcm.
Import DataView Wav WavBytes Gemini.

Lemma set_sample_loop (c : nat) (f : nat -> JS.number) : forall k i buffer,
  iter_from i k (fun j buffer => set_sample buffer c j (f j)) buffer
  = mkAudioBuffer (sampleRate buffer) (buffer_length buffer)
      (alter (fun data => iter_from i k (fun j l => <[j := f j]> l) data) c
         (channels buffer)).
Proof.
  induction k as [|k IH]; intros i buffer; cbn [iter_from].
  - destruct buffer as [r n chs]. cbn. f_equal.
    symmetry. apply list_alter_id. done.
  - rewrite IH. unfold set_sample. cbn [sampleRate buffer_length channels].
    f_equal. apply alter_alter.
Qed.

Lemma channel_loop (rate : Z) (len : nat) (F : nat -> list JS.number -> list JS.number) :
  forall k i chs,
  iter_from i k
    (fun c buffer =>
       mkAudioBuffer (sampleRate buffer) (buffer_length buffer)
         (alter (F c) c (channels buffer)))
    (mkAudioBuffer rate len chs)
  = mkAudioBuffer rate len (iter_from i k (fun c chs => alter (F c) c chs) chs).
Proof.
  induction k as [|k IH]; intros i chs; cbn [iter_from]; [done|].
  cbn [sampleRate buffer_length channels]. apply IH.
Qed.

Lemma length_int16s data : length (int16s data) = (length data / 2)%nat.
Proof. unfold int16s. by rewrite length_fmap, length_seq. Qed.

Lemma Qdiv_inject (a : Z) (b : positive) :
  (inject_Z a / inject_Z (Zpos b))%Q = (a * 1 # 1 * b)%Q.
Proof. reflexivity. Qed.

Lemma frameCount_Fin (L n : nat) :
  (0 < n)%nat ->
  JS.div (JS.of_Z (Z.of_nat L)) (JS.of_Z (Z.of_nat n))
  = JS.Fin (inject_Z (Z.of_nat L) / inject_Z (Z.of_nat n)).
Proof.
  intros Hn. unfold JS.div, JS.of_Z, JS.Qsgn. cbn [Qnum inject_Z].
  destruct (Z.of_nat n) eqn:E; try lia. done.
Qed.

Lemma Qtrunc_quotient (L n : nat) :
  (0 < n)%nat ->
  JS.Qtrunc (inject_Z (Z.of_nat L) / inject_Z (Z.of_nat n))
  = Z.of_nat (L / n).
Proof.
  intros Hn. destruct (Z.of_nat n) as [|p|p] eqn:E; try lia.
  rewrite Qdiv_inject. unfold JS.Qtrunc. cbn [Qnum Qden].
  rewrite Z.mul_1_r, Pos.mul_1_l, <- E.
  rewrite Z.quot_div_nonneg by lia. by rewrite Nat2Z.inj_div.
Qed.

Lemma Qceiling_quotient (L n : nat) :
  (0 < n)%nat ->
  (L / n <= Z.to_nat (Qceiling (inject_Z (Z.of_nat L) / inject_Z (Z.of_nat n))))%nat.
Proof.
  intros Hn. destruct (Z.of_nat n) as [|p|p] eqn:E; try lia.
  rewrite Qdiv_inject. unfold Qceiling, Qfloor, Qopp. cbn [Qnum Qden].
  rewrite Z.mul_1_r, Pos.mul_1_l, <- E.
  assert (H : Z.of_nat L / Z.of_nat n <= - (- Z.of_nat L / Z.of_nat n)).
  { pose proof (Z.div_mod (Z.of_nat L) (Z.of_nat n)).
    pose proof (Z.div_mod (- Z.of_nat L) (Z.of_nat n)).
    pose proof (Z.mod_pos_bound (Z.of_nat L) (Z.of_nat n)).
    pose proof (Z.mod_pos_bound (- Z.of_nat L) (Z.of_nat n)). nia. }
  rewrite <- Nat2Z.inj_div in H. lia.
Qed.

(** The element an index inside the array reads, over 32768. *)
Lemma Int16Array_get_div (dataInt16 : list Z) (j : nat) :
  (j < length dataInt16)%nat ->
  JS.div (Int16Array_get dataInt16 j) (JS.of_Z 32768)
  = JS.Fin (default 0 (dataInt16 !! j) # 32768).
Proof.
  intros Hj. unfold Int16Array_get, typed_get.
  rewrite list_lookup_fmap.
  destruct (lookup_lt_is_Some_2 dataInt16 j Hj) as [v Hv]. rewrite Hv.
  cbn. rewrite (Qdiv_inject v 32768). by rewrite Z.mul_1_r.
Qed.

(** The loops of [pcmToAudioBuffer], on the zeroed buffer. *)
Lemma pcm_loops (rate : Z) (dataInt16 : list Z) (n len count : nat) :
  (0 < n)%nat -> len = (length dataInt16 / n)%nat -> (len <= count)%nat ->
  iter_from 0 n (fun channel buffer =>
    iter_from 0 count (fun i buffer =>
      set_sample buffer channel i
        (JS.div (Int16Array_get dataInt16 (i * n + channel)) (JS.of_Z 32768)))
      buffer)
    (mkAudioBuffer rate len (replicate n (replicate len (JS.Fin 0))))
  = mkAudioBuffer rate len
      ((fun c =>
          (fun i => JS.Fin (default 0 (dataInt16 !! (i * n + c)%nat) # 32768))
            <$> seq 0 len) <$> seq 0 n).
Proof.
  intros Hn Hlen Hcount.
  rewrite (iter_from_ext _
    (fun c buffer =>
       mkAudioBuffer (sampleRate buffer) (buffer_length buffer)
         (alter (fun data =>
                   iter_from 0 count
                     (fun j l =>
                        <[j := JS.div (Int16Array_get dataInt16 (j * n + c))
                                 (JS.of_Z 32768)]> l) data) c (channels buffer))))
    by (intros c b _; apply set_sample_loop).
  rewrite channel_loop. f_equal.
  pose proof (alter_loop_fill
    (fun c data =>
       iter_from 0 count
         (fun j l => <[j := JS.div (Int16Array_get dataInt16 (j * n + c))
                               (JS.of_Z 32768)]> l) data)
    (replicate len (JS.Fin 0)) n [] n (le_n n)) as H.
  cbn [length app] in H. rewrite H. clear H.
  rewrite Nat.sub_diag. cbn [replicate]. rewrite app_nil_r.
  apply list_eq_Forall2, Forall2_fmap, Forall2_same_length_lookup.
  split; [done|]. intros c x y Hx Hy.
  assert (x = y) as -> by congruence. apply lookup_seq in Hy as [-> Hc].
  cbn [Nat.add].
  pose proof (insert_loop_fill
    (fun j => JS.div (Int16Array_get dataInt16 (j * n + c)) (JS.of_Z 32768))
    count [] (replicate len (JS.Fin 0))) as H.
  cbn [length app] in H. rewrite H by (by rewrite length_replicate). clear H.
  rewrite length_replicate.
  apply list_eq_Forall2, Forall2_fmap, Forall2_same_length_lookup.
  split; [done|]. intros i x' y' Hx' Hy'.
  assert (x' = y') as -> by congruence. apply lookup_seq in Hy' as [-> Hi].
  cbn [Nat.add]. apply Int16Array_get_div.
  assert (i * n + c < length dataInt16 / n * n)%nat by nia.
  pose proof (Nat.Div0.mul_div_le (length dataInt16) n). lia.
Qed.

(** [pcmToAudioBuffer] without its loops. *)
Lemma pcmToAudioBuffer_spec (h : Host) (data : list Z) (rate : Z) (n : nat) :
  Z.of_nat (length data / 2) < 2 ^ 32 ->
  pcmToAudioBuffer h data rate n
  = if decide (length data `mod` 2 = 0)%nat then
      if bool_decide (n = 0%nat) || bool_decide (max_channels h < n)%nat
         || bool_decide (length data / 2 / n = 0)%nat
         || negb (supports_rate h rate)
      then Fail NotSupportedError
      else Done (mkAudioBuffer rate (length data / 2 / n) (deinterleaved data n))
    else Fail RangeError.
Proof.
  intros Hsize. unfold pcmToAudioBuffer, Int16Array_of.
  destruct (decide (length data `mod` 2 = 0)%nat) as [Heven|Hodd]; [|done].
  cbn [mbind result_bind]. rewrite length_int16s.
  set (L := (length data / 2)%nat) in *.
  destruct (decide (n = 0%nat)) as [->|Hn].
  { unfold createBuffer. by rewrite bool_decide_true by done. }
  rewrite frameCount_Fin by lia.
  assert (Hlen : Z.to_nat (to_uint32
                   (JS.Fin (inject_Z (Z.of_nat L) / inject_Z (Z.of_nat n))))
                 = (L / n)%nat).
  { unfold to_uint32. cbn [JS.to_integer]. rewrite Qtrunc_quotient by lia.
    rewrite Z.mod_small; [lia|].
    split; [lia|]. pose proof (Nat.Div0.div_le_upper_bound L n L).
    assert (L / n <= L)%nat by (apply Nat.Div0.div_le_upper_bound; nia). lia. }
  unfold createBuffer. rewrite Hlen.
  destruct (bool_decide (n = 0%nat) || bool_decide (max_channels h < n)%nat
            || bool_decide (L / n = 0)%nat || negb (supports_rate h rate));
    [done|].
  cbn [mbind result_bind]. f_equal.
  rewrite (pcm_loops rate (int16s data) n (L / n));
    [|lia|by rewrite length_int16s|apply Qceiling_quotient; lia].
  unfold deinterleaved. by rewrite length_int16s.
Qed.

(** X2: [pcmToAudioBuffer] throws [RangeError] on an odd number of bytes,
    whatever else it is given, and [NotSupportedError] when the bytes hold no
    whole frame: no bytes at all in particular. *)
Theorem pcmToAudioBuffer_rejects (h : Host) (data : list Z) (rate : Z) (n : nat) :
  ((length data `mod` 2 <> 0)%nat ->
   pcmToAudioBuffer h data rate n = Fail RangeError) /\
  ((length data `mod` 2 = 0)%nat -> (length data / 2 < n)%nat ->
   pcmToAudioBuffer h data rate n = Fail NotSupportedError) /\
  pcmToAudioBuffer h [] 24000 1 = Fail NotSupportedError.
Proof.
  assert (Hfew : forall data n,
            (length data `mod` 2 = 0)%nat -> (length data / 2 < n)%nat ->
            pcmToAudioBuffer h data rate n = Fail NotSupportedError).
  { clear. intros data n Heven Hfew. unfold pcmToAudioBuffer, Int16Array_of.
    rewrite decide_True by done. cbn [mbind result_bind].
    rewrite length_int16s. unfold createBuffer.
    destruct (decide (n = 0%nat)) as [->|Hn]; [by rewrite bool_decide_true by done|].
    rewrite frameCount_Fin by lia. unfold to_uint32. cbn [JS.to_integer].
    rewrite Qtrunc_quotient by lia.
    rewrite (Nat.div_small (length data / 2) n) by done.
    rewrite (bool_decide_true (Z.to_nat (Z.of_nat 0 `mod` 2 ^ 32) = 0%nat)) by done.
    by rewrite orb_true_r. }
  split; [|split].
  - intros Hodd. unfold pcmToAudioBuffer, Int16Array_of.
    by rewrite decide_False by done.
  - apply Hfew.
  - revert rate Hfew. intros _ _. unfold pcmToAudioBuffer, Int16Array_of.
    cbn [length]. rewrite decide_True by done. cbn [mbind result_bind].
    unfold createBuffer.
    rewrite (bool_decide_true (Z.to_nat _ = 0%nat)) by done.
    by rewrite orb_true_r.
Qed.

Lemma pcmToAudioBuffer_rejects_witness :
  pcmToAudioBuffer minimal_host [1; 2; 3] 24000 1 = Fail RangeError /\
  pcmToAudioBuffer minimal_host [1; 2] 24000 2 = Fail NotSupportedError.
Proof.
  destruct (pcmToAudioBuffer_rejects minimal_host [1; 2; 3] 24000 1) as (H1 & _).
  destruct (pcmToAudioBuffer_rejects minimal_host [1; 2] 24000 2) as (_ & H2 & _).
  split; [apply H1|apply H2]; vm_compute; (discriminate || lia || reflexivity).
Defined.

(** X3: from an even number of bytes that hold at least one frame,
    [pcmToAudioBuffer] makes a buffer of as many whole frames as the 16-bit
    samples give; channel [c] of frame [i] is sample [i * numChannels + c]
    over 32768, and the samples of an incomplete last frame are left out. *)
Theorem pcmToAudioBuffer_deinterleaves
    (h : Host) (data : list Z) (rate : Z) (n : nat) :
  (length data `mod` 2 = 0)%nat ->
  (1 <= n <= max_channels h)%nat ->
  supports_rate h rate = true ->
  (n <= length data / 2)%nat ->
  Z.of_nat (length data / 2) < 2 ^ 32 ->
  exists buffer,
    pcmToAudioBuffer h data rate n = Done buffer /\
    sampleRate buffer = rate /\
    numberOfChannels buffer = n /\
    buffer_length buffer = (length data / 2 / n)%nat /\
    forall i c, (i < length data / 2 / n)%nat -> (c < n)%nat ->
      typed_get (getChannelData buffer c) i
      = JS.Fin (default 0 (int16s data !! (i * n + c)%nat) # 32768).
Proof.
  intros Heven [Hn1 Hn2] Hrate Hframes Hsize.
  rewrite pcmToAudioBuffer_spec by done. rewrite decide_True by done.
  assert (Hpos : (0 < length data / 2 / n)%nat)
    by (apply Nat.div_str_pos; lia).
  rewrite !bool_decide_false by lia. rewrite Hrate. cbn [orb negb].
  eexists. split; [done|].
  unfold numberOfChannels, getChannelData, deinterleaved.
  cbn [sampleRate buffer_length channels].
  rewrite length_fmap, length_seq, length_int16s.
  repeat split; try done.
  intros i c Hi Hc. rewrite list_lookup_fmap, lookup_seq_lt by done.
  cbn [fmap option_fmap option_map default Nat.add]. unfold typed_get, id.
  rewrite list_lookup_fmap, lookup_seq_lt by done. done.
Qed.

Lemma pcmToAudioBuffer_deinterleaves_witness :
  exists buffer,
    pcmToAudioBuffer minimal_host [0; 128; 255; 127; 1; 0; 255; 255; 7; 0] 24000 2
    = Done buffer /\
    sampleRate buffer = 24000 /\
    numberOfChannels buffer = 2%nat /\
    buffer_length buffer = 2%nat /\
    forall i c, (i < 2)%nat -> (c < 2)%nat ->
      typed_get (getChannelData buffer c) i
      = JS.Fin (default 0 (int16s [0; 128; 255; 127; 1; 0; 255; 255; 7; 0]
                             !! (i * 2 + c)%nat) # 32768).
Proof.
  apply (pcmToAudioBuffer_deinterleaves minimal_host
           [0; 128; 255; 127; 1; 0; 255; 255; 7; 0] 24000 2);
    vm_compute; (reflexivity || lia || (split; lia)).
Defined.

End Pcm.

(** ** Decoding PCM and encoding it again *)
Section PcmWav.
Import DataView Wav WavBytes Quantize Gemini.

Lemma getInt16_range (data : list Z) (offset : nat) :
  Forall (fun b => 0 <= b < 256) data ->
  -32768 <= default 0 (getInt16 data offset) < 32768.
Proof.
  intros Hbytes. unfold getInt16, getUint16, get_bytes.
  destruct (decide (offset + 2 <= length data)%nat) as [Hin|Hout];
    [|cbn [fmap option_fmap option_map default]; lia].
  cbn [fmap option_fmap option_map default].
  assert (Hlen : length (take 2 (drop offset data)) = 2%nat)
    by (rewrite length_take, length_drop; lia).
  assert (Hb : Forall (fun b => 0 <= b < 256) (take 2 (drop offset data)))
    by (by apply Forall_take, Forall_drop).
  destruct (take 2 (drop offset data)) as [|b0 [|b1 [|]]]; try done.
  apply Forall_cons in Hb as [H0 Hb]. apply Forall_cons in Hb as [H1 _].
  cbn [le_value]. unfold id. case_decide; lia.
Qed.

Lemma int16s_range (data : list Z) (j : nat) (v : Z) :
  Forall (fun b => 0 <= b < 256) data ->
  int16s data !! j = Some v -> -32768 <= v < 32768.
Proof.
  intros Hbytes Hj. unfold int16s in Hj. rewrite list_lookup_fmap in Hj.
  destruct (seq 0 (length data / 2) !! j) as [k|]; [|done].
  injection Hj as <-. by apply getInt16_range.
Qed.

(** What the encoder makes of the sample [v / 32768]. *)
Lemma scaled_pcm_sample (v : Z) :
  -32768 <= v < 32768 ->
  JS.to_integer (scaled (JS.Fin (v # 32768))) = if 0 <? v then v - 1 else v.
Proof.
  intros Hv. rewrite (scaled_spec _ (clamp_unit (v # 32768))) by done.
  assert (Hc : clamp_unit (v # 32768) = (v # 32768)%Q).
  { unfold clamp_unit.
    assert (H1 : Qlt_bool (v # 32768) (-1) = false)
      by (apply Qlt_bool_false; unfold Qle; cbn; lia).
    assert (H2 : Qlt_bool 1 (v # 32768) = false)
      by (apply Qlt_bool_false; unfold Qle; cbn; lia).
    by rewrite H1, H2. }
  rewrite Hc. unfold pcm16_of_clamped, JS.Qtrunc.
  destruct (Z.ltb_spec 0 v) as [Hpos|Hneg].
  - assert (H0 : Qlt_bool (v # 32768) 0 = false)
      by (apply Qlt_bool_false; unfold Qle; cbn; lia).
    rewrite H0. cbn [Qnum Qden Qmult].
    change (Z.pos (32768 * 1)) with 32768.
    rewrite Z.quot_div_nonneg by lia.
    symmetry. apply (Z.div_unique _ _ _ (32768 - v)); lia.
  - destruct (decide (v = 0)) as [->|Hne]; [done|].
    assert (H0 : Qlt_bool (v # 32768) 0 = true)
      by (apply Qlt_bool_iff; unfold Qlt; cbn; lia).
    rewrite H0. cbn [Qnum Qden Qmult].
    change (Z.pos (32768 * 1)) with 32768. by rewrite Z.quot_mul by lia.
Qed.

(** X4: the WAV file of a decoded PCM stream holds its samples in their
    order, each non-positive one as it was and each positive one lowered by
    one: the decoder divides by 32768, the encoder multiplies a positive
    sample by 32767. *)
Theorem audioBufferToWav_of_pcm
    (h : Host) (data : list Z) (rate : Z) (n : nat) :
  (length data `mod` 2 = 0)%nat ->
  (1 <= n <= max_channels h)%nat ->
  supports_rate h rate = true ->
  (n <= length data / 2)%nat ->
  Z.of_nat (length data / 2) < 2 ^ 32 ->
  Forall (fun b => 0 <= b < 256) data ->
  exists buffer out,
    pcmToAudioBuffer h data rate n = Done buffer /\
    audioBufferToWav buffer = Some out /\
    length out = (44 + 2 * (length data / 2 / n * n))%nat /\
    forall j v, (j < length data / 2 / n * n)%nat ->
      int16s data !! j = Some v ->
      getInt16 out (44 + 2 * j) = Some (if 0 <? v then v - 1 else v).
Proof.
  intros Heven [Hn1 Hn2] Hrate Hframes Hsize Hbytes.
  set (L := (length data / 2)%nat) in *.
  assert (Hpos : (0 < L / n)%nat) by (apply Nat.div_str_pos; lia).
  set (buffer := mkAudioBuffer rate (L / n) (deinterleaved data n)).
  assert (Hdec : pcmToAudioBuffer h data rate n = Done buffer).
  { rewrite pcmToAudioBuffer_spec by done. rewrite decide_True by done.
    fold L. rewrite !bool_decide_false by lia. by rewrite Hrate. }
  assert (Hc : numberOfChannels buffer = n).
  { unfold numberOfChannels, buffer, deinterleaved. cbn [channels].
    by rewrite length_fmap, length_seq. }
  exists buffer, (header_bytes buffer ++ data_bytes buffer).
  split; [done|]. split; [apply audioBufferToWav_bytes|]. split.
  - rewrite length_app, length_header_bytes, length_data_bytes.
    unfold data_length. rewrite Hc. cbn [buffer_length buffer]. lia.
  - intros j v Hj Hv.
    assert (Hi : (j / n < L / n)%nat) by (apply Nat.Div0.div_lt_upper_bound; lia).
    assert (Hch : (j `mod` n < n)%nat) by (apply Nat.mod_upper_bound; lia).
    assert (Hsplit : j = (j / n * n + j `mod` n)%nat)
      by (pose proof (Nat.div_mod_eq j n); lia).
    pose proof (get_bytes_sample buffer (j / n) (j `mod` n)) as Hget.
    rewrite Hc in Hget. rewrite <- Hsplit in Hget.
    unfold getInt16, getUint16. rewrite Hget by done.
    cbn [fmap option_fmap option_map]. f_equal.
    unfold sample_bytes, getChannelData, buffer, deinterleaved, typed_get.
    cbn [channels].
    rewrite list_lookup_fmap, lookup_seq_lt by done.
    cbn [fmap option_fmap option_map default Nat.add]. unfold id.
    rewrite list_lookup_fmap, length_int16s. fold L.
    rewrite lookup_seq_lt by done.
    cbn [fmap option_fmap option_map default Nat.add]. unfold id.
    rewrite <- Hsplit, Hv. cbn [default]. unfold id.
    pose proof (int16s_range data j v Hbytes Hv) as Hrange.
    rewrite scaled_pcm_sample by done.
    apply int16_le_bytes. destruct (0 <? v) eqn:E; [apply Z.ltb_lt in E|]; lia.
Qed.

Lemma audioBufferToWav_of_pcm_witness :
  exists buffer out,
    pcmToAudioBuffer minimal_host [0; 128; 255; 127; 1; 0; 255; 255] 24000 1
    = Done buffer /\
    audioBufferToWav buffer = Some out /\
    length out = 52%nat /\
    forall j v, (j < 4)%nat ->
      int16s [0; 128; 255; 127; 1; 0; 255; 255] !! j = Some v ->
      getInt16 out (44 + 2 * j) = Some (if 0 <? v then v - 1 else v).
Proof.
  apply (audioBufferToWav_of_pcm minimal_host
           [0; 128; 255; 127; 1; 0; 255; 255] 24000 1);
    try (vm_compute; (reflexivity || lia || (split; lia))).
  repeat (apply List.Forall_cons; [lia|]). apply List.Forall_nil.
Defined.

End PcmWav.

(** ** The chunks of a response *)
Section Chunks.
Import DataView Wav Gemini.

Lemma decodeBase64_bytes (atob : Text.jsstring -> option Text.jsstring)
    (base64 : Text.jsstring) :
  decodeBase64 atob base64
  = match atob base64 with
    | Some binaryString => Done (bytes_of binaryString)
    | None => Fail InvalidCharacterError
    end.
Proof.
  unfold decodeBase64. destruct (atob base64) as [bin|]; [|done]. f_equal.
  unfold Uint8Array_set, bytes_of.
  pose proof (insert_loop_fill (fun j => charCodeAt bin j mod 256)
                (length bin) [] (replicate (length bin) 0)) as H.
  cbn [length app] in H. rewrite H by (by rewrite length_replicate). clear H.
  rewrite length_replicate. apply list_eq. intros i.
  rewrite !list_lookup_fmap. unfold charCodeAt, Text.jsstring in *.
  destruct (decide (i < length bin)%nat) as [Hi|Hi].
  - rewrite lookup_seq_lt by done.
    destruct (lookup_lt_is_Some_2 bin i Hi) as [c Hc].
    cbn [fmap option_fmap option_map Nat.add]. by rewrite Hc.
  - rewrite lookup_seq_ge by lia. by rewrite lookup_ge_None_2 by lia.
Qed.

Lemma totalLength_concat (chunks : list (list Z)) : forall acc,
  foldl (fun acc curr => (acc + length curr)%nat) acc chunks
  = (acc + length (concat chunks))%nat.
Proof.
  induction chunks as [|c chunks IH]; intros acc; cbn [foldl concat].
  - simpl. lia.
  - rewrite IH, length_app. lia.
Qed.

Lemma copy_chunks_fill (chunks : list (list Z)) : forall done k,
  (length (concat chunks) <= k)%nat ->
  copy_chunks chunks (done ++ replicate k 0) (length done)
  = Done ((done ++ concat chunks) ++ replicate (k - length (concat chunks)) 0).
Proof.
  induction chunks as [|c chunks IH]; intros done k Hk; cbn [copy_chunks concat].
  - by rewrite app_nil_r, Nat.sub_0_r.
  - cbn [concat] in Hk. rewrite length_app in Hk.
    unfold Uint8Array_set_all. rewrite set_bytes_fill by (done || lia).
    cbn [mbind result_bind].
    replace (length done + length c)%nat with (length (done ++ c))
      by (by rewrite length_app).
    rewrite IH by lia. rewrite <- (app_assoc done), length_app.
    do 3 f_equal. lia.
Qed.

(** The copies of [synthesizeSpeech] never leave the array they fill: the
    chunks end up one after the other. *)
Lemma combine_concat (chunks : list (list Z)) : combine chunks = Done (concat chunks).
Proof.
  unfold combine. rewrite totalLength_concat. cbn [Nat.add].
  pose proof (copy_chunks_fill chunks [] (length (concat chunks)) (le_n _)) as H.
  cbn [length app] in H. rewrite H, Nat.sub_diag. cbn [replicate].
  by rewrite app_nil_r.
Qed.

Lemma collect_parts (atob : Text.jsstring -> option Text.jsstring)
    (stream : list (option Text.jsstring)) :
  forall (chunks : list (list Z)) (bins : list Text.jsstring),
  mapM atob (data_parts stream) = Some bins ->
  collect atob stream chunks
  = Done (chunks ++ (bytes_of <$> bins)).
Proof.
  induction stream as [|part stream IH]; intros chunks bins Hbins.
  - cbn in Hbins. injection Hbins as <-. by rewrite app_nil_r.
  - destruct part as [[|c part]|]; cbn [collect data_parts omap list_omap] in *;
      try (by apply IH).
    fold (data_parts stream) in Hbins.
    rewrite decodeBase64_bytes.
    cbn [mapM] in Hbins. fold (mapM atob) in Hbins.
    destruct (atob (c :: part)) as [bin|]; [|done].
    cbn [mbind option_bind] in Hbins.
    destruct (mapM atob (data_parts stream)) as [bins'|] eqn:E; [|done].
    cbn in Hbins. injection Hbins as <-.
    cbn [mbind result_bind]. rewrite (IH _ bins') by done.
    cbn [fmap list_fmap]. by rewrite <- app_assoc.
Qed.

Lemma collect_fails (atob : Text.jsstring -> option Text.jsstring)
    (stream : list (option Text.jsstring)) :
  forall (chunks : list (list Z)),
  mapM atob (data_parts stream) = None ->
  collect atob stream chunks = Fail InvalidCharacterError.
Proof.
  induction stream as [|part stream IH]; intros chunks Hnone; [done|].
  destruct part as [[|c part]|]; cbn [collect data_parts omap list_omap] in *;
    try (by apply IH).
  fold (data_parts stream) in Hnone.
  rewrite decodeBase64_bytes.
  cbn [mapM] in Hnone. fold (mapM atob) in Hnone.
  destruct (atob (c :: part)) as [bin|]; [|done].
  cbn [mbind option_bind] in Hnone. cbn [mbind result_bind].
  apply IH. by destruct (mapM atob (data_parts stream)).
Qed.

(** X5: when every data part of the response is base64, [synthesizeSpeech]
    decodes the bytes of all of them, joined in their order, as one PCM
    stream; where one chunk ends and the next begins does not matter. *)
Theorem synthesizeSpeech_joins_chunks (h : Host)
    (atob : Text.jsstring -> option Text.jsstring)
    (apiKey : Text.jsstring) (stream : list (option Text.jsstring))
    (bins : list Text.jsstring) :
  apiKey <> [] ->
  data_parts stream <> [] ->
  mapM atob (data_parts stream) = Some bins ->
  synthesizeSpeech h atob apiKey stream
  = pcmToAudioBuffer h (concat (bytes_of <$> bins)) 24000 1.
Proof.
  intros Hkey Hparts Hbins. unfold synthesizeSpeech.
  destruct apiKey as [|k apiKey]; [done|].
  rewrite (collect_parts atob stream [] bins) by done.
  cbn [mbind result_bind app].
  destruct bins as [|bin bins].
  - destruct (data_parts stream); [done|]. cbn in Hbins.
    destruct (atob _); [|done]. cbn in Hbins. by destruct (mapM atob _).
  - cbn [fmap list_fmap]. by rewrite combine_concat.
Qed.

Lemma synthesizeSpeech_joins_chunks_witness :
  synthesizeSpeech minimal_host (fun s => Some s) [65]
    [Some [1; 0; 3]; None; Some []; Some [2]]
  = pcmToAudioBuffer minimal_host [1; 0; 3; 2] 24000 1.
Proof.
  apply (synthesizeSpeech_joins_chunks minimal_host (fun s => Some s) [65]
           [Some [1; 0; 3]; None; Some []; Some [2]] [[1; 0; 3]; [2]]);
    (discriminate || reflexivity).
Defined.

(** X6: [synthesizeSpeech] throws "API Key is required" on an empty key
    before it looks at anything else, "No audio data generated" when no
    chunk of the response carries data, and the error of [atob] when a part
    is not base64. *)
Theorem synthesizeSpeech_errors (h : Host)
    (atob : Text.jsstring -> option Text.jsstring)
    (apiKey : Text.jsstring) (stream : list (option Text.jsstring)) :
  synthesizeSpeech h atob [] stream = Fail ApiKeyRequired /\
  (apiKey <> [] -> data_parts stream = [] ->
   synthesizeSpeech h atob apiKey stream = Fail NoAudioData) /\
  (apiKey <> [] -> mapM atob (data_parts stream) = None ->
   synthesizeSpeech h atob apiKey stream = Fail InvalidCharacterError).
Proof.
  split; [done|]. split.
  - intros Hkey Hparts. unfold synthesizeSpeech.
    destruct apiKey as [|k apiKey]; [done|].
    rewrite (collect_parts atob stream [] []) by (by rewrite Hparts). done.
  - intros Hkey Hnone. unfold synthesizeSpeech.
    destruct apiKey as [|k apiKey]; [done|].
    by rewrite collect_fails.
Qed.

Lemma synthesizeSpeech_errors_witness :
  synthesizeSpeech minimal_host (fun s => Some s) [65] [None; Some []]
  = Fail NoAudioData /\
  synthesizeSpeech minimal_host (fun _ => None) [65] [Some [1]]
  = Fail InvalidCharacterError.
Proof.
  destruct (synthesizeSpeech_errors minimal_host (fun s => Some s) [65]
              [None; Some []]) as (_ & H1 & _).
  destruct (synthesizeSpeech_errors minimal_host (fun _ => None) [65]
              [Some [1]]) as (_ & _ & H2).
  split; [apply H1|apply H2]; (discriminate || reflexivity).
Defined.

End Chunks.

(** ** Tags and words *)
Section Words.
Import Text Tags.

Lemma strip_tags_from_elem (x : Z) : forall (s : jsstring) inside,
  x ∈ strip_tags_from inside s -> x ∈ s.
Proof.
  induction s as [|c s IH]; intros inside Hx; [done|].
  cbn [strip_tags_from] in Hx. destruct inside.
  - right. by apply IH in Hx.
  - destruct ((c =? lt_sign) && has_gt s).
    + right. by apply IH in Hx.
    + apply elem_of_cons in Hx as [->|Hx]; [by left|]. right. by apply IH in Hx.
Qed.

Lemma strip_tags_from_has_gt (s : jsstring) inside :
  has_gt s = false -> has_gt (strip_tags_from inside s) = false.
Proof.
  unfold has_gt. rewrite !bool_decide_eq_false. intros Hs Hin.
  by apply Hs, (strip_tags_from_elem _ _ inside).
Qed.

Lemma strip_tags_from_no_tag : forall (s : jsstring) inside,
  has_tag (strip_tags_from inside s) = false.
Proof.
  induction s as [|c s IH]; intros inside; [by destruct inside|].
  cbn [strip_tags_from]. destruct inside; [apply IH|].
  destruct ((c =? lt_sign) && has_gt s) eqn:E; [apply IH|].
  cbn [has_tag]. rewrite IH, orb_false_r.
  apply andb_false_iff in E as [E|E]; [by rewrite E|].
  by rewrite (strip_tags_from_has_gt s false E), andb_false_r.
Qed.

Lemma strip_tags_no_tag_id : forall s : jsstring,
  has_tag s = false -> strip_tags s = s.
Proof.
  unfold strip_tags. induction s as [|c s IH]; intros Hs; [done|].
  cbn [has_tag] in Hs. apply orb_false_iff in Hs as [H1 H2].
  cbn [strip_tags_from]. rewrite H1. f_equal. by apply IH.
Qed.

Lemma strip_tags_from_sublist : forall (s : jsstring) inside,
  strip_tags_from inside s `sublist_of` s.
Proof.
  induction s as [|c s IH]; intros inside; [by destruct inside|].
  cbn [strip_tags_from]. destruct inside.
  - apply sublist_cons, IH.
  - destruct ((c =? lt_sign) && has_gt s).
    + apply sublist_cons, IH.
    + apply sublist_skip, IH.
Qed.

(** X7: what [stripSSML] returns has no tag left in it, so stripping twice
    is stripping once; a text without a tag (a [<] that no [>] follows is
    none) comes back as it is; and nothing is added or reordered. *)
Theorem stripSSML_removes_tags (s : jsstring) :
  has_tag (strip_tags s) = false /\
  strip_tags (strip_tags s) = strip_tags s /\
  (has_tag s = false <-> strip_tags s = s) /\
  strip_tags s `sublist_of` s.
Proof.
  assert (H : has_tag (strip_tags s) = false) by apply strip_tags_from_no_tag.
  split; [done|]. split; [by apply strip_tags_no_tag_id|]. split.
  - split; [apply strip_tags_no_tag_id|]. intros Heq. by rewrite <- Heq.
  - apply strip_tags_from_sublist.
Qed.

Lemma split_ws_from_nonempty : forall (s cur : jsstring) in_ws,
  split_ws_from cur in_ws s <> [].
Proof.
  induction s as [|c s IH]; intros cur in_ws; [done|].
  cbn [split_ws_from]. destruct (is_space c); [destruct in_ws|]; try done; apply IH.
Qed.

Lemma split_ws_from_no_space : forall (s cur : jsstring) in_ws,
  Forall (fun c => is_space c = false) cur ->
  Forall (Forall (fun c => is_space c = false)) (split_ws_from cur in_ws s).
Proof.
  induction s as [|c s IH]; intros cur in_ws Hcur; cbn [split_ws_from].
  - apply Forall_singleton. by apply Forall_reverse.
  - destruct (is_space c) eqn:E; [destruct in_ws|].
    + by apply IH.
    + apply Forall_cons. split; [by apply Forall_reverse|]. by apply IH.
    + apply IH. by apply Forall_cons.
Qed.

Lemma split_ws_from_concat : forall (s cur : jsstring) in_ws,
  concat (split_ws_from cur in_ws s)
  = reverse cur ++ filter (fun c => is_space c = false) s.
Proof.
  unfold jsstring.
  induction s as [|c s IH]; intros cur in_ws; cbn [split_ws_from].
  - cbn. by rewrite !app_nil_r.
  - destruct (is_space c) eqn:E; [destruct in_ws|].
    + rewrite IH. by rewrite filter_cons_False by (by rewrite E).
    + cbn [concat]. rewrite IH. cbn [reverse app].
      by rewrite filter_cons_False by (by rewrite E).
    + rewrite IH, reverse_cons, <- app_assoc.
      by rewrite filter_cons_True by done.
Qed.

Lemma split_ws_from_inner : forall (s cur : jsstring) in_ws,
  inner_nonempty (split_ws_from cur in_ws s) /\
  (cur <> [] \/ in_ws = true ->
   (1 < length (split_ws_from cur in_ws s))%nat ->
   head (split_ws_from cur in_ws s) <> Some []).
Proof.
  induction s as [|c s IH]; intros cur in_ws; cbn [split_ws_from].
  - split; [|cbn; lia]. intros i w _ Hi Hlen. cbn in Hlen. lia.
  - destruct (is_space c) eqn:E; [destruct in_ws|].
    + destruct (IH cur true) as [H1 H2]. split; [done|]. intros _. apply H2. by right.
    + destruct (IH [] true) as [H1 H2]. split.
      * intros [|i] w Hw Hi Hlen; [lia|]. cbn in Hw, Hlen.
        destruct i as [|i].
        -- intros ->. apply H2; [by right|lia|].
           by destruct (split_ws_from [] true s).
        -- apply (H1 (S i) w Hw); lia.
      * intros [Hcur|?] _; [|done]. cbn [head]. intros [= Hrev].
        apply Hcur. by rewrite <- (reverse_involutive cur), Hrev.
    + destruct (IH (c :: cur) false) as [H1 H2]. split; [done|].
      intros _. apply H2. by left.
Qed.

(** X8: the words the karaoke loop counts.  Splitting at white space gives
    at least one word, also for the empty text; no word holds white space;
    the words, one after the other, are the text without its white space;
    and only the first and the last word can be empty. *)
Theorem split_ws_words (s : jsstring) :
  (1 <= length (split_ws s))%nat /\
  Forall (Forall (fun c => is_space c = false)) (split_ws s) /\
  concat (split_ws s) = filter (fun c => is_space c = false) s /\
  (forall i w, split_ws s !! i = Some w -> (0 < i)%nat ->
     (S i < length (split_ws s))%nat -> w <> []).
Proof.
  unfold split_ws. split; [|split; [|split]].
  - pose proof (split_ws_from_nonempty s [] false).
    destruct (split_ws_from [] false s); [done|cbn; lia].
  - by apply split_ws_from_no_space.
  - by rewrite split_ws_from_concat.
  - apply split_ws_from_inner.
Qed.

End Words.

(** ** Samples that are no finite number *)
Section NotANumber.
Import DataView Wav WavBytes.

Lemma getInt16_sample (buffer : AudioBuffer) (i ch : nat) (z : Z) :
  (i < buffer_length buffer)%nat ->
  (ch < numberOfChannels buffer)%nat ->
  JS.to_integer (scaled (typed_get (getChannelData buffer ch) i)) = z ->
  -32768 <= z < 32768 ->
  getInt16 (header_bytes buffer ++ data_bytes buffer)
    (44 + 2 * (i * numberOfChannels buffer + ch)) = Some z.
Proof.
  intros Hi Hch Hz Hrange. unfold getInt16, getUint16.
  rewrite get_bytes_sample by done. cbn [fmap option_fmap option_map].
  f_equal. unfold sample_bytes. rewrite Hz. by apply int16_le_bytes.
Qed.

(** X9: the encoder writes a sample that is not a number as 0, and an
    infinite one as the largest or the smallest 16-bit value. *)
Theorem audioBufferToWav_not_finite (buffer : AudioBuffer) (i ch : nat) :
  (i < buffer_length buffer)%nat ->
  (ch < numberOfChannels buffer)%nat ->
  let sample := typed_get (getChannelData buffer ch) i in
  let offset := (44 + 2 * (i * numberOfChannels buffer + ch))%nat in
  exists out,
    audioBufferToWav buffer = Some out /\
    (sample = JS.NaN -> getInt16 out offset = Some 0) /\
    (sample = JS.PosInf -> getInt16 out offset = Some 32767) /\
    (sample = JS.NegInf -> getInt16 out offset = Some (-32768)).
Proof.
  intros Hi Hch sample offset. eexists. split; [apply audioBufferToWav_bytes|].
  repeat split; intros E; apply getInt16_sample; try done;
    fold sample; rewrite E; (reflexivity || lia).
Qed.

Lemma audioBufferToWav_not_finite_witness :
  exists out,
    audioBufferToWav (mkAudioBuffer 24000 3 [[JS.PosInf; JS.NaN; JS.NegInf]])
    = Some out /\
    getInt16 out 44 = Some 32767 /\
    getInt16 out 46 = Some 0 /\
    getInt16 out 48 = Some (-32768).
Proof.
  set (b := mkAudioBuffer 24000 3 [[JS.PosInf; JS.NaN; JS.NegInf]]).
  destruct (audioBufferToWav_not_finite b 0 0) as (out & Hout & _ & H0 & _);
    [vm_compute; lia..|].
  destruct (audioBufferToWav_not_finite b 1 0) as (out1 & Hout1 & H1 & _);
    [vm_compute; lia..|].
  destruct (audioBufferToWav_not_finite b 2 0) as (out2 & Hout2 & _ & _ & H2);
    [vm_compute; lia..|].
  rewrite Hout in Hout1, Hout2. injection Hout1 as <-. injection Hout2 as <-.
  exists out. split; [done|].
  split; [apply H0|split; [apply H1|apply H2]]; reflexivity.
Defined.

End NotANumber.

(** ** The nodes follow the sliders *)
Section Tune.
Import JS App AppWorld Tuning.

Lemma apply_source_params_tuned (props : State) (ss : list SourceNode) :
  (forall s, sourceNode props = Some s -> (s < length ss)%nat) ->
  source_tuned props (apply_source_params props ss).
Proof.
  intros Hin s Hs. unfold apply_source_params. rewrite Hs.
  destruct (lookup_lt_is_Some_2 ss s (Hin s Hs)) as [src Hsrc].
  exists (src_set_detune (pitchShift props)
            (src_set_playbackRate (playbackRate props) src)).
  rewrite !list_lookup_alter_eq, Hsrc. done.
Qed.

Lemma apply_filter_params_tuned (props : State) (fs : list FilterNode) :
  (forall f, filterNode props = Some f -> (f < length fs)%nat) ->
  filter_tuned props (apply_filter_params props fs).
Proof.
  intros Hin f Hf. unfold apply_filter_params. rewrite Hf.
  destruct (lookup_lt_is_Some_2 fs f (Hin f Hf)) as [flt Hflt].
  exists (flt_set_gain (emphasis props) flt).
  rewrite list_lookup_alter_eq, Hflt. done.
Qed.

Lemma Forall_alter_keeps {A} (P : A -> Prop) (f : A -> A) (i : nat) (l : list A) :
  (forall x, P x -> P (f x)) -> Forall P l -> Forall P (alter f i l).
Proof.
  intros Hf Hl. apply Forall_lookup. intros j x Hj.
  rewrite list_lookup_alter in Hj. destruct (decide (i = j)) as [->|].
  - destruct (l !! j) as [y|] eqn:E; [|done]. injection Hj as <-.
    apply Hf. by apply (Forall_lookup_1 P l j).
  - by apply (Forall_lookup_1 P l j).
Qed.

Lemma apply_filter_params_peaking (props : State) (fs : list FilterNode) :
  Forall peaking fs -> Forall peaking (apply_filter_params props fs).
Proof.
  intros Hfs. unfold apply_filter_params. destruct (filterNode props); [|done].
  by apply Forall_alter_keeps.
Qed.

(** A render whose parameter dependencies are the old ones leaves the nodes
    alone. *)
Lemma flush_world_nodes_same prev w :
  param_deps_same prev (st w) = true ->
  sources (flush_world prev w) = sources w /\
  filters (flush_world prev w) = filters w.
Proof.
  intros Hp. unfold flush_world. cbv zeta. rewrite Hp.
  destruct (karaoke_deps_same prev (st w)); [done|].
  unfold karaokeEffect_world.
  by destruct (isPlaying (st w)), (audioBuffer (st w)), (audioContext (st w)).
Qed.

Lemma flush_world_params prev w :
  sourceNode (st (flush_world prev w)) = sourceNode (st w) /\
  filterNode (st (flush_world prev w)) = filterNode (st w) /\
  playbackRate (st (flush_world prev w)) = playbackRate (st w) /\
  pitchShift (st (flush_world prev w)) = pitchShift (st w) /\
  emphasis (st (flush_world prev w)) = emphasis (st w).
Proof.
  destruct (flush_world_keeps prev w) as (_ & Hst & _).
  repeat split;
    [ apply (f_equal sourceNode) in Hst | apply (f_equal filterNode) in Hst
    | apply (f_equal playbackRate) in Hst | apply (f_equal pitchShift) in Hst
    | apply (f_equal emphasis) in Hst ]; exact Hst.
Qed.

Lemma tuned_params (p q : State) (ss : list SourceNode) (fs : list FilterNode) :
  sourceNode p = sourceNode q -> filterNode p = filterNode q ->
  (playbackRate p == playbackRate q)%Q -> (pitchShift p == pitchShift q)%Q ->
  (emphasis p == emphasis q)%Q ->
  source_tuned q ss /\ filter_tuned q fs -> source_tuned p ss /\ filter_tuned p fs.
Proof.
  intros Hs Hf Hr Hp He [H1 H2]. split.
  - intros s Hsrc. rewrite Hs in Hsrc. destruct (H1 s Hsrc) as (src & ? & ? & ?).
    exists src. by rewrite Hr, Hp.
  - intros f Hflt. rewrite Hf in Hflt. destruct (H2 f Hflt) as (flt & ? & ?).
    exists flt. by rewrite He.
Qed.

Lemma params_eq (p q : State) :
  params p = params q ->
  sourceNode p = sourceNode q /\ filterNode p = filterNode q /\
  playbackRate p = playbackRate q /\ pitchShift p = pitchShift q /\
  emphasis p = emphasis q.
Proof. unfold params. by intros [= -> -> -> -> ->]. Qed.

Lemma param_deps_same_params (prev next : State) :
  param_deps_same prev next = true ->
  sourceNode next = sourceNode prev /\ filterNode next = filterNode prev /\
  (playbackRate next == playbackRate prev)%Q /\
  (pitchShift next == pitchShift prev)%Q /\
  (emphasis next == emphasis prev)%Q.
Proof.
  unfold param_deps_same. rewrite !andb_true_iff.
  intros ((((Hr & Hp) & He) & Hs) & Hf).
  apply Qeq_bool_iff in Hr, Hp, He. apply bool_decide_eq_true in Hs, Hf.
  by repeat split.
Qed.

Lemma source_tuned_tuning (props : State) (ss ss' : list SourceNode) :
  (fun src => (src_playbackRate src, src_detune src)) <$> ss'
  = (fun src => (src_playbackRate src, src_detune src)) <$> ss ->
  source_tuned props ss -> source_tuned props ss'.
Proof.
  intros Heq Ht s Hs. destruct (Ht s Hs) as (src & Hsrc & Hr & Hp).
  assert (Hl : ((fun src => (src_playbackRate src, src_detune src)) <$> ss') !! s
               = Some (src_playbackRate src, src_detune src))
    by (by rewrite Heq, list_lookup_fmap, Hsrc).
  rewrite list_lookup_fmap in Hl.
  destruct (ss' !! s) as [src'|]; [|done]. cbn in Hl. injection Hl as Hr' Hp'.
  exists src'. by rewrite Hr', Hp'.
Qed.

(** Rendering leaves the nodes in tune when the handler before it either
    changed a parameter dependency or kept them in tune. *)
Lemma flush_tune prev w :
  Inv2 (flush_world prev w) ->
  Forall peaking (filters w) ->
  (param_deps_same prev (st w) = true ->
   source_tuned (st w) (sources w) /\ filter_tuned (st w) (filters w)) ->
  in_tune (flush_world prev w).
Proof.
  intros HI2 Hpk Hsame. unfold in_tune.
  destruct (flush_world_params prev w) as (Hs & Hf & Hr & Hp & He).
  pose proof (shape_flush prev w) as Hsh. unfold shape in Hsh.
  injection Hsh as Hls Hlf _.
  assert (Htune : forall ss fs,
            source_tuned (st w) ss /\ filter_tuned (st w) fs ->
            source_tuned (st (flush_world prev w)) ss /\
            filter_tuned (st (flush_world prev w)) fs).
  { intros ss fs. apply tuned_params; try done; by rewrite ?Hr, ?Hp, ?He. }
  destruct (param_deps_same prev (st w)) eqn:E.
  - destruct (flush_world_nodes_same prev w E) as [-> ->].
    destruct (Htune _ _ (Hsame eq_refl)) as [H1 H2]. done.
  - destruct (flush_world_nodes prev w E) as [Es Ef]. rewrite Es, Ef.
    destruct (Htune (apply_source_params (st w) (sources w))
                (apply_filter_params (st w) (filters w))) as [H1 H2].
    + split.
      * apply apply_source_params_tuned. intros s Hsrc. rewrite <- Hls.
        apply (inv_source _ HI2). by rewrite Hs.
      * apply apply_filter_params_tuned. intros f Hflt. rewrite <- Hlf.
        apply (inv_filter _ HI2). by rewrite Hf.
    + split; [done|]. split; [done|]. by apply apply_filter_params_peaking.
Qed.

(** A handler that leaves the tuning of the nodes alone. *)
Lemma flush_tune_kept (w w' : World) :
  Inv2 (flush_world (st w) w') ->
  in_tune w ->
  tuning w' = tuning w -> filters w' = filters w ->
  in_tune (flush_world (st w) w').
Proof.
  intros HI2 (H1 & H2 & H3) Ht Hf. apply flush_tune; [done|by rewrite Hf|].
  intros Hsame. apply param_deps_same_params in Hsame as (Hs & Hfl & Hr & Hp & He).
  rewrite Hf. apply (tuned_params _ (st w)); try done. split; [|done].
  by apply (source_tuned_tuning _ (sources w)).
Qed.

Lemma in_tune_kept (w w' : World) :
  in_tune w ->
  params (st w') = params (st w) ->
  tuning w' = tuning w -> filters w' = filters w ->
  in_tune w'.
Proof.
  intros (H1 & H2 & H3) Hp Ht Hf.
  apply params_eq in Hp as (Hs & Hfl & Hr & Hpi & He).
  unfold in_tune. rewrite Hf. split; [|split; [|done]].
  - apply (source_tuned_tuning _ (sources w)); [done|].
    intros s Hsrc. rewrite Hs in Hsrc. destruct (H1 s Hsrc) as (src & ? & ? & ?).
    exists src. by rewrite Hr, Hpi.
  - intros f Hflt. rewrite Hfl in Hflt. destruct (H2 f Hflt) as (flt & ? & ?).
    exists flt. by rewrite He.
Qed.

Lemma tuning_alter_state (v : PlaybackState) (q : bool) (s : nat) (w : World) :
  tuning (with_sources (alter (src_set_state v q) s) w) = tuning w.
Proof. unfold tuning. unfold_w. by apply fmap_alter_absorb. Qed.

Lemma tuning_stop (s : nat) (w : World) :
  tuning (stop_world s w) = tuning w /\ filters (stop_world s w) = filters w /\
  st (stop_world s w) = st w.
Proof.
  unfold stop_world. cbv zeta.
  destruct (src_state <$> sources (with_call (CallStop s) w) !! s) as [[| |]|];
    try done.
  split; [|done]. apply (tuning_alter_state Finished true s (with_call (CallStop s) w)).
Qed.

Lemma tick_world_tune cl w :
  params (st (tick_world cl w)) = params (st w) /\
  tuning (tick_world cl w) = tuning w /\
  filters (tick_world cl w) = filters w.
Proof. unfold tick_world. cbv zeta. by destruct (lt _ _). Qed.

Lemma callbacks_world_tune cbs : forall w,
  params (st (callbacks_world cbs w)) = params (st w) /\
  tuning (callbacks_world cbs w) = tuning w /\
  filters (callbacks_world cbs w) = filters w.
Proof.
  induction cbs as [|[id cl] cbs IH]; intros w; [done|].
  unfold callbacks_world. cbn [foldl snd]. fold (callbacks_world cbs (tick_world cl w)).
  destruct (IH (tick_world cl w)) as (-> & -> & ->). apply tick_world_tune.
Qed.

Lemma param_deps_changed_filter prev next :
  filterNode prev <> filterNode next -> param_deps_same prev next = false.
Proof.
  intros H. unfold param_deps_same.
  rewrite (bool_decide_eq_false_2 (filterNode prev = filterNode next)) by done.
  by rewrite andb_false_r.
Qed.

Lemma playAudio_world_nodes props buffer w :
  sourceNode (st (playAudio_world props buffer w)) = Some (length (sources w)) /\
  filters (playAudio_world props buffer w)
  = match filterNode props with
    | Some _ => filters w
    | None => filters w ++ [mkFilterNode "peaking" 3000 1 0 true]
    end.
Proof.
  unfold playAudio_world. cbv zeta.
  set (w1 := match sourceNode props with Some s => stop_world s w | None => w end).
  assert (Hw1 : length (sources w1) = length (sources w) /\ filters w1 = filters w).
  { subst w1. destruct (sourceNode props) as [s|]; [|done].
    destruct (stop_world_keeps s w) as (_ & _ & _ & _ & _ & ? & ?). done. }
  destruct Hw1 as [Hl Hf].
  destruct (filterNode props); unfold_w; by rewrite Hl, Hf.
Qed.

Lemma step_tune e w :
  enabled e w = true -> Inv2 w -> in_tune w -> in_tune (step_world e w).
Proof.
  intros Hen HI2 Ht. pose proof (step_inv2 e w HI2) as HI2'.
  pose proof Ht as (Ht1 & Ht2 & Ht3).
  destruct e as [|render buffer ctx| | | | | | |s|s|d|]; cbn [step_world] in *.
  - (* initAudio *)
    unfold initAudio_world in *. destruct (audioContext (st w)).
    + by apply flush_tune_kept.
    + apply flush_tune; [done| |].
      * unfold_w. apply Forall_app. split; [done|]. by apply Forall_singleton.
      * intros Hsame. exfalso.
        rewrite param_deps_changed_filter in Hsame; [done|].
        unfold_w. cbn. intros Heq.
        apply (inv_filter w HI2) in Heq. lia.
  - (* playAudio *)
    destruct buffer as [buffer|]; [destruct ctx as [ctx|]|];
      try (by apply flush_tune_kept).
    destruct (playAudio_world_nodes render buffer w) as [Hs Hf].
    apply flush_tune; [done| |].
    + rewrite Hf. destruct (filterNode render); [done|].
      apply Forall_app. split; [done|]. by apply Forall_singleton.
    + intros Hsame. exfalso.
      rewrite param_deps_changed in Hsame; [done|].
      rewrite Hs. intros Heq. apply (inv_source w HI2) in Heq. lia.
  - (* handleStop *)
    unfold handleStop_world in *. destruct (sourceNode (st w)) as [s|].
    + destruct (tuning_stop s w) as (H1 & H2 & H3).
      apply flush_tune_kept; try done.
    + by apply flush_tune_kept.
  - by apply flush_tune_kept.
  - by apply flush_tune_kept.
  - by apply flush_tune_kept.
  - by apply flush_tune_kept.
  - by apply flush_tune_kept.
  - (* a source reaches its end *)
    unfold finish_world. destruct (src_state <$> sources w !! s) as [[| |]|];
      try done.
    apply (in_tune_kept w); try done. apply tuning_alter_state.
  - (* the ended event *)
    unfold ended_world in *. destruct (sources w !! s) as [src|]; [|done].
    destruct (src_ended_queued src); [|done].
    destruct (src_onended src).
    + apply (flush_tune_kept w); try done.
      apply (tuning_alter_state (src_state src) false s w).
    + apply (in_tune_kept w); try done. apply tuning_alter_state.
  - (* the clock *)
    unfold advance_world. destruct (Qle_bool 0 d); [|done].
    by apply (in_tune_kept w).
  - (* a frame *)
    unfold frame_world.
    destruct (callbacks_world_tune (frames w)
                (with_frames (fun _ => []) (next_frame w) w)) as (H1 & H2 & H3).
    by apply (in_tune_kept w).
Qed.

Lemma initial_tune strict : in_tune (initial strict).
Proof. split; [|split]; done. Qed.

Lemma run_world_tune es : forall w,
  enabled_run es w = true -> Inv2 w -> in_tune w -> in_tune (run_world es w).
Proof.
  induction es as [|e es IH]; intros w Hen HI2 Ht; [done|].
  rewrite enabled_run_cons in Hen. apply andb_true_iff in Hen as [He Hes].
  cbn. apply IH; [done|by apply step_inv2|by apply step_tune].
Qed.

(** X10: whatever the order of slider moves, plays, stops and ends, after
    every event the source node the state holds has the stored rate and
    detune, and the filter node it holds is the peaking filter at 3000 Hz
    with the stored gain: a render applies what the handler before it left
    out. *)
Theorem nodes_follow_sliders (w : World) :
  reachable w ->
  (forall s, sourceNode (st w) = Some s ->
     exists src, sources w !! s = Some src /\
       (src_playbackRate src == playbackRate (st w))%Q /\
       (src_detune src == pitchShift (st w))%Q) /\
  (forall f, filterNode (st w) = Some f ->
     exists flt, filters w !! f = Some flt /\
       (flt_gain flt == emphasis (st w))%Q /\
       flt_type flt = "peaking"%string /\ flt_frequency flt = 3000%Q /\
       flt_Q flt = 1%Q /\ flt_to_destination flt = true).
Proof.
  intros (strict & es & Hen & Hrun). rewrite run_ok in Hrun. injection Hrun as <-.
  destruct (run_world_tune es (initial strict) Hen (initial_inv2 strict)
              (initial_tune strict)) as (H1 & H2 & H3).
  split; [done|]. intros f Hf. destruct (H2 f Hf) as (flt & Hflt & Hg).
  exists flt. split; [done|]. split; [done|].
  by apply (Forall_lookup_1 peaking _ f flt H3).
Qed.

Lemma nodes_follow_sliders_witness :
  (exists src, sources retuned_world !! 1%nat = Some src /\
     (src_playbackRate src == 3 # 2)%Q /\ (src_detune src == 200)%Q) /\
  (exists flt, filters retuned_world !! 1%nat = Some flt /\
     (flt_gain flt == 5)%Q).
Proof.
  destruct (nodes_follow_sliders retuned_world) as [Hs Hf].
  - apply run_world_reachable; [apply scenario_B_reachable|].
    vm_compute. reflexivity.
  - split.
    + apply (Hs 1%nat). reflexivity.
    + destruct (Hf 1%nat) as (flt & H1 & H2 & _); [reflexivity|]. eauto.
Defined.

End Tune.

(** ** Frames and ends *)
Section FramesAndEnds.
Import JS App AppWorld Examples.

(** X11: the karaoke loop never has two animation frames pending; the
    pending one is the one [animationFrameRef] names, so that the clean-up
    cancels it; and while [isPlaying] is false none is pending and the
    cursor is -1. *)
Theorem karaoke_one_pending_frame (w : World) :
  reachable w ->
  (length (frames w) <= 1)%nat /\
  (forall id cl, (id, cl) ∈ frames w -> id = animationFrameRef w) /\
  (isPlaying (st w) = false ->
   frames w = [] /\ currentWordIndex (st w) = of_Z (-1)).
Proof.
  intros Hreach. destruct (reachable_inv w Hreach) as [_ Hframes Hidle _].
  split; [|split; [|done]].
  - destruct Hframes as [->|[cl ->]]; cbn; lia.
  - intros id cl Hin. destruct Hframes as [H|[cl' H]]; rewrite H in Hin.
    + by apply not_elem_of_nil in Hin.
    + by apply list_elem_of_singleton in Hin as [= -> _].
Qed.

Lemma karaoke_one_pending_frame_witness :
  (length (frames scenario_B) <= 1)%nat /\
  (forall id cl, (id, cl) ∈ frames scenario_B -> id = animationFrameRef scenario_B) /\
  (isPlaying (st scenario_B) = false ->
   frames scenario_B = [] /\ currentWordIndex (st scenario_B) = of_Z (-1)).
Proof. apply karaoke_one_pending_frame, scenario_B_reachable. Defined.

Lemma active_statuses (w w' : World) :
  statuses w' = statuses w -> active w' = active w.
Proof.
  intros Hs. unfold active.
  assert (Hlen : length (sources w') = length (sources w)).
  { apply (f_equal length) in Hs. unfold statuses in Hs.
    by rewrite !length_fmap in Hs. }
  rewrite Hlen. apply list_filter_iff. intros id.
  unfold statuses in Hs.
  assert (Hl : src_state <$> sources w' !! id = src_state <$> sources w !! id)
    by (by rewrite <- !list_lookup_fmap, Hs).
  by rewrite Hl.
Qed.

(** X12: the [onended] callback does not ask which source has ended.  The
    [ended] event of any source, a replaced one included, leaves [isPlaying]
    false, the cursor at -1 and no frame pending, and stops no source: one
    that plays goes on playing. *)
Theorem ended_event_clears_isPlaying (w : World) (s : nat) (src : SourceNode) :
  reachable w ->
  sources w !! s = Some src ->
  src_ended_queued src = true ->
  exists w',
    step (EEnded s) w = Ok tt w' /\
    isPlaying (st w') = false /\
    currentWordIndex (st w') = of_Z (-1) /\ frames w' = [] /\
    active w' = active w.
Proof.
  intros Hreach Hsrc Hq.
  pose proof (reachable_inv2 w Hreach) as HI2.
  assert (HI' : Inv (step_world (EEnded s) w))
    by (apply step_inv; [done|by apply reachable_inv]).
  exists (step_world (EEnded s) w). split; [apply step_ok|].
  assert (Hres : isPlaying (st (step_world (EEnded s) w)) = false /\
                 statuses (step_world (EEnded s) w) = statuses w).
  { cbn [step_world]. unfold ended_world. rewrite Hsrc, Hq.
    rewrite (inv_onended w HI2 s src Hsrc).
    set (w1 := with_sources (alter (src_set_state (src_state src) false) s) w).
    destruct (flush_world_keeps (st w1) (with_st (set_isPlaying false) w1))
      as (Hs & Hst & _).
    split.
    - apply (f_equal isPlaying) in Hst. exact Hst.
    - rewrite Hs. unfold statuses, w1. unfold_w.
      apply list_eq. intros i. rewrite !list_lookup_fmap, list_lookup_alter.
      destruct (decide (s = i)) as [<-|]; [|done]. by rewrite Hsrc. }
  destruct Hres as [Hp Hs].
  destruct (inv_idle _ HI' Hp) as [Hf Hc].
  repeat split; try done. by apply active_statuses.
Qed.

Lemma ended_event_clears_isPlaying_witness :
  active replaced_world = [1%nat] /\
  isPlaying (st replaced_world) = true /\
  exists w',
    step (EEnded 0) replaced_world = Ok tt w' /\
    isPlaying (st w') = false /\
    currentWordIndex (st w') = of_Z (-1) /\ frames w' = [] /\
    active w' = [1%nat].
Proof.
  split; [reflexivity|]. split; [reflexivity|].
  apply (ended_event_clears_isPlaying replaced_world 0
           (mkSourceNode (Some two_frames) 1 0 (Some 1%nat) true Finished true)).
  - exists false, [EInitAudio; EPlay first_render (Some two_frames) (Some 0%nat);
                   EPlay (st playing_world) (Some two_frames) (Some 0%nat)].
    split; vm_compute; reflexivity.
  - reflexivity.
  - reflexivity.
Defined.




End FramesAndEnds.

(** ** The editor, the download and the API key *)
Section PanelProperties.
Import JS App Panel.

(** X14: [renderEditor] shows the text area while nothing plays, and while
    something plays one span per karaoke word, of which at most one is the
    current one; the spans before a current or a spoken one are spoken, and
    the current one is not. *)
Theorem renderEditor_spans (props : State) :
  (isPlaying props = false -> renderEditor props = Textarea (text props)) /\
  (isPlaying props = true ->
   exists spans,
     renderEditor props = Karaoke spans /\
     span_word <$> spans = Text.split_ws (Text.strip_tags (text props)) /\
     (forall i j a b, spans !! i = Some a -> spans !! j = Some b ->
        span_current a = true -> span_current b = true -> i = j) /\
     (forall i j a b, spans !! i = Some a -> spans !! j = Some b ->
        (i < j)%nat -> span_current b = true \/ span_spoken b = true ->
        span_spoken a = true) /\
     (forall i a, spans !! i = Some a -> span_current a = true ->
        span_spoken a = false)).
Proof.
  unfold renderEditor. split; intros ->; [done|].
  set (words := Text.split_ws (Text.strip_tags (text props))).
  eexists. split; [done|].
  assert (Hspan : forall i a,
            imap (fun i word =>
                    mkSpan word
                      (strict_eq (of_Z (Z.of_nat i)) (currentWordIndex props))
                      (lt (of_Z (Z.of_nat i)) (currentWordIndex props)))
              words !! i = Some a ->
            span_current a
            = strict_eq (of_Z (Z.of_nat i)) (currentWordIndex props) /\
            span_spoken a = lt (of_Z (Z.of_nat i)) (currentWordIndex props)).
  { intros i a Ha. rewrite list_lookup_imap in Ha.
    destruct (words !! i); [|done]. by injection Ha as <-. }
  assert (Hcmp : forall i : nat,
            match currentWordIndex props with
            | Fin q =>
                strict_eq (of_Z (Z.of_nat i)) (currentWordIndex props)
                = Qeq_bool (inject_Z (Z.of_nat i)) q /\
                lt (of_Z (Z.of_nat i)) (currentWordIndex props)
                = negb (Qle_bool q (inject_Z (Z.of_nat i)))
            | PosInf =>
                strict_eq (of_Z (Z.of_nat i)) (currentWordIndex props) = false /\
                lt (of_Z (Z.of_nat i)) (currentWordIndex props) = true
            | _ =>
                strict_eq (of_Z (Z.of_nat i)) (currentWordIndex props) = false /\
                lt (of_Z (Z.of_nat i)) (currentWordIndex props) = false
            end).
  { intros i. by destruct (currentWordIndex props). }
  split; [|split; [|split]].
  - apply list_eq. intros i. rewrite list_lookup_fmap, list_lookup_imap.
    by destruct (words !! i).
  - intros i j a b Ha Hb Hca Hcb.
    apply Hspan in Ha as [Ha _], Hb as [Hb _]. rewrite Hca in Ha. rewrite Hcb in Hb.
    pose proof (Hcmp i) as Hi. pose proof (Hcmp j) as Hj.
    destruct (currentWordIndex props) as [q| | |];
      destruct Hi as [Hi _], Hj as [Hj _]; try congruence.
    rewrite Hi in Ha. rewrite Hj in Hb. symmetry in Ha, Hb.
    apply Qeq_bool_iff in Ha, Hb. rewrite <- Hb in Ha.
    unfold Qeq in Ha. cbn in Ha. lia.
  - intros i j a b Ha Hb Hij Hb'.
    apply Hspan in Ha as [_ Ha], Hb as [Hcb Hsb]. rewrite Ha.
    pose proof (Hcmp i) as Hi. pose proof (Hcmp j) as Hj.
    destruct (currentWordIndex props) as [q| | |];
      destruct Hi as [_ Hi], Hj as [Hj1 Hj2]; try done;
      try (destruct Hb' as [Hb'|Hb']; congruence).
    rewrite Hi. apply negb_true_iff.
    destruct (Qle_bool q (inject_Z (Z.of_nat i))) eqn:E; [|done]. exfalso.
    apply Qle_bool_iff in E.
    assert (Hlt : (inject_Z (Z.of_nat i) < inject_Z (Z.of_nat j))%Q)
      by (unfold Qlt; cbn; lia).
    destruct Hb' as [Hb'|Hb'].
    + rewrite Hcb, Hj1 in Hb'. apply Qeq_bool_iff in Hb'.
      rewrite Hb' in Hlt. by apply (Qlt_not_le _ _ Hlt).
    + rewrite Hsb, Hj2 in Hb'. apply negb_true_iff in Hb'.
      assert (Hqj : ~ (q <= inject_Z (Z.of_nat j))%Q)
        by (intros H; apply Qle_bool_iff in H; congruence).
      apply Hqj. apply Qlt_le_weak. by apply (Qle_lt_trans _ _ _ E).
  - intros i a Ha Hca. apply Hspan in Ha as [Hc Hs]. rewrite Hs.
    rewrite Hca in Hc. pose proof (Hcmp i) as Hi.
    destruct (currentWordIndex props) as [q| | |]; destruct Hi as [Hi1 Hi2];
      try congruence.
    rewrite Hi2. rewrite Hi1 in Hc. symmetry in Hc. apply Qeq_bool_iff in Hc.
    apply negb_false_iff, Qle_bool_iff. rewrite Hc. apply Qle_refl.
Qed.

Lemma handleDownload_at_wav (fuel : nat) (props : State) (media : bool) (now : Z)
    (b : BufferObj) :
  audioBuffer props = Some b ->
  handleDownload_at (S fuel) props media now wav
  = (fun bytes => [Save (mkDownload now wav bytes)]) <$> Wav.audioBufferToWav (buf b).
Proof.
  intros Hb. cbn [handleDownload_at]. rewrite Hb.
  by destruct (Wav.audioBufferToWav (buf b)).
Qed.

Lemma handleDownload_at_ogg (fuel : nat) (props : State) (now : Z) (b : BufferObj) :
  audioBuffer props = Some b ->
  handleDownload_at (S fuel) props true now ogg
  = rest ← handleDownload_at fuel props true now wav;
    Some (Alert "Downloading as WAV." :: rest).
Proof. intros Hb. cbn [handleDownload_at]. by rewrite Hb. Qed.

(** X15: [handleDownload] does nothing without an audio buffer; with one it
    offers exactly one file, whose bytes are the WAV encoding of the buffer
    whatever format was asked for.  Asked for OGG, it says so in an alert and
    names the file [.wav] when the browser has [MediaRecorder]; when it has
    not, it names the WAV bytes [.ogg] and says nothing. *)
Theorem handleDownload_serves_wav
    (fuel : nat) (props : State) (media : bool) (now : Z) (format : Format) :
  (2 <= fuel)%nat ->
  match audioBuffer props with
  | None => handleDownload_at fuel props media now format = Some []
  | Some b =>
      exists bytes,
        Wav.audioBufferToWav (buf b) = Some bytes /\
        handleDownload_at fuel props media now format
        = Some (match format, media with
                | ogg, true => [Alert "Downloading as WAV.";
                                Save (mkDownload now wav bytes)]
                | _, _ => [Save (mkDownload now format bytes)]
                end)
  end.
Proof.
  intros Hfuel. destruct fuel as [|[|fuel]]; try lia.
  destruct (audioBuffer props) as [b|] eqn:Hb.
  - eexists. split; [apply audioBufferToWav_bytes|].
    destruct format, media.
    + by rewrite (handleDownload_at_wav _ _ _ _ b), audioBufferToWav_bytes.
    + by rewrite (handleDownload_at_wav _ _ _ _ b), audioBufferToWav_bytes.
    + rewrite (handleDownload_at_ogg _ _ _ b) by done.
      by rewrite (handleDownload_at_wav _ _ _ _ b), audioBufferToWav_bytes.
    + cbn [handleDownload_at]. rewrite Hb. by rewrite audioBufferToWav_bytes.
  - cbn [handleDownload_at]. by rewrite Hb.
Qed.

Lemma handleDownload_serves_wav_witness :
  exists bytes,
    Wav.audioBufferToWav (buf AppWorld.two_frames) = Some bytes /\
    handleDownload_at 2
      (set_audioBuffer (Some AppWorld.two_frames) AppWorld.first_render)
      false 1700000000000 ogg
    = Some [Save (mkDownload 1700000000000 ogg bytes)].
Proof.
  apply (handleDownload_serves_wav 2
           (set_audioBuffer (Some AppWorld.two_frames) AppWorld.first_render)
           false 1700000000000 ogg).
  lia.
Defined.

(** *** The API key *)

Lemma drop_space_head (s : Text.jsstring) (c : Z) :
  head (drop_space s) = Some c -> Text.is_space c = false.
Proof.
  induction s as [|x s IH]; [done|]. cbn [drop_space].
  destruct (Text.is_space x) eqn:E; [done|]. cbn. by intros [= <-].
Qed.

Lemma drop_space_fix (s : Text.jsstring) :
  (forall c, head s = Some c -> Text.is_space c = false) -> drop_space s = s.
Proof.
  destruct s as [|x s]; [done|]. intros H. cbn [drop_space].
  by rewrite (H x).
Qed.

Lemma drop_space_suffix (s : Text.jsstring) : drop_space s `suffix_of` s.
Proof.
  induction s as [|x s IH]; [done|]. cbn [drop_space].
  destruct (Text.is_space x); [|done]. by apply suffix_cons_r.
Qed.

Lemma last_suffix {A} (l k : list A) (x : A) :
  l `suffix_of` k -> last l = Some x -> last k = Some x.
Proof.
  intros [pre ->] Hl. rewrite last_app. by rewrite Hl.
Qed.

Lemma head_reverse {A} (l : list A) : head (reverse l) = last l.
Proof.
  induction l as [|x l IH] using rev_ind; [done|].
  by rewrite reverse_app, last_snoc.
Qed.

Lemma last_reverse {A} (l : list A) : last (reverse l) = head l.
Proof. by rewrite <- head_reverse, reverse_involutive. Qed.

(** A trimmed string starts and ends with no white space. *)
Lemma trim_ends (s : Text.jsstring) (c : Z) :
  head (trim s) = Some c \/ last (trim s) = Some c -> Text.is_space c = false.
Proof.
  unfold trim. rewrite head_reverse, last_reverse.
  set (t := drop_space s). set (u := drop_space (reverse t)).
  intros [H|H].
  - apply (drop_space_head s). fold t. rewrite <- last_reverse.
    apply (last_suffix u); [apply drop_space_suffix|done].
  - by apply (drop_space_head (reverse t)).
Qed.

Lemma trim_fix (s : Text.jsstring) :
  (forall c, head s = Some c \/ last s = Some c -> Text.is_space c = false) ->
  trim s = s.
Proof.
  intros H. unfold trim.
  rewrite (drop_space_fix s) by (intros c Hc; apply H; by left).
  rewrite (drop_space_fix (reverse s)).
  - apply reverse_involutive.
  - intros c Hc. rewrite head_reverse in Hc. apply H. by right.
Qed.

Lemma trim_idemp (s : Text.jsstring) : trim (trim s) = trim s.
Proof. apply trim_fix, trim_ends. Qed.

Lemma api_step_invariant (e : api_event) (api : Api) :
  (isApiConnected api = true <-> apiKey api <> []) /\ trim (apiKey api) = apiKey api ->
  (isApiConnected (api_step e api) = true <-> apiKey (api_step e api) <> []) /\
  trim (apiKey (api_step e api)) = apiKey (api_step e api).
Proof.
  intros [H1 H2]. destruct e as [v| |]; cbn [api_step].
  - done.
  - unfold handleConnectApi.
    destruct (decide (0 < length (trim (tempApiKey api)))%nat) as [Hlen|]; [|done].
    cbn [isApiConnected apiKey]. split; [|apply trim_idemp].
    split; [|done]. intros _ Heq. rewrite Heq in Hlen. cbn in Hlen. lia.
  - done.
Qed.

Lemma synthesizeSpeech_key_accepted (h : Gemini.Host)
    (atob : Text.jsstring -> option Text.jsstring)
    (key : Text.jsstring) (stream : list (option Text.jsstring)) :
  key <> [] ->
  Gemini.synthesizeSpeech h atob key stream <> Gemini.Fail Gemini.ApiKeyRequired.
Proof.
  intros Hkey. unfold Gemini.synthesizeSpeech.
  destruct key as [|k key]; [done|].
  destruct (mapM atob (Gemini.data_parts stream)) as [bins|] eqn:E.
  - rewrite (collect_parts atob stream [] bins E). cbn [mbind Gemini.result_bind app].
    destruct (Gemini.bytes_of <$> bins) as [|chunk chunks]; [done|].
    rewrite combine_concat. cbn [mbind Gemini.result_bind].
    unfold Gemini.pcmToAudioBuffer, Gemini.Int16Array_of.
    destruct (decide _); [|done]. cbn [mbind Gemini.result_bind].
    unfold Gemini.createBuffer. by destruct (_ || _).
  - by rewrite (collect_fails atob stream [] E).
Qed.

(** X16: the component is connected exactly when it holds a key; the key it
    holds is trimmed, so neither empty nor white space; and with it the
    services' own check never throws "API Key is required". *)
Theorem api_key_connected (api : Api) :
  api_reachable api ->
  (isApiConnected api = true <-> apiKey api <> []) /\
  trim (apiKey api) = apiKey api /\
  (isApiConnected api = true ->
   forall h atob stream,
     Gemini.synthesizeSpeech h atob (apiKey api) stream
     <> Gemini.Fail Gemini.ApiKeyRequired).
Proof.
  intros [es <-].
  assert (H : (isApiConnected (foldl (fun api e => api_step e api) api_initial es)
               = true
               <-> apiKey (foldl (fun api e => api_step e api) api_initial es) <> []) /\
              trim (apiKey (foldl (fun api e => api_step e api) api_initial es))
              = apiKey (foldl (fun api e => api_step e api) api_initial es)).
  { induction es as [|e es IH] using rev_ind; [done|].
    rewrite foldl_app. cbn [foldl]. by apply api_step_invariant. }
  destruct H as [H1 H2]. split; [done|]. split; [done|].
  intros Hc h atob stream. apply synthesizeSpeech_key_accepted. by apply H1.
Qed.

Lemma api_key_connected_witness :
  (isApiConnected (mkApi [107; 101; 121] [32; 107; 101; 121; 32] true) = true
   <-> [107; 101; 121] <> []) /\
  trim [107; 101; 121] = [107; 101; 121] /\
  (isApiConnected (mkApi [107; 101; 121] [32; 107; 101; 121; 32] true) = true ->
   forall h atob stream,
     Gemini.synthesizeSpeech h atob [107; 101; 121] stream
     <> Gemini.Fail Gemini.ApiKeyRequired).
Proof.
  apply (api_key_connected (mkApi [107; 101; 121] [32; 107; 101; 121; 32] true)).
  exists [ETempApiKey [32; 107; 101; 121; 32]; EConnect]. reflexivity.
Defined.

End PanelProperties.

(** ** The handlers that call the service *)
Section SessionWorlds.
Import JS App AppWorld Panel Session.

Local Ltac unfold_h :=
  unfold mbind, mret, H_bind, H_ret, hbind, hret, hget, hmodify, hthrow in *.

Lemma lift_ok {A} (m : M A) (a : A) (w' : World) (s : Shell) :
  m (world s) = Ok a w' -> lift m s = Returned a (mkShell w' (ui s) (log s)).
Proof. intros Hm. unfold lift. by rewrite Hm. Qed.

Lemma rendered_ok {A} (h : H A) (a : A) (s s' : Shell) :
  h s = Returned a s' ->
  rendered h s
  = Returned a (mkShell (flush_world (st (world s)) (world s')) (ui s') (log s')).
Proof.
  intros Hh. unfold rendered. cbv zeta. rewrite Hh. unfold_h.
  by rewrite (lift_ok _ tt _ _ (flush_ok _ _)).
Qed.

Lemma meanwhile_ok (es : list event) (s : Shell) :
  meanwhile es s = Returned tt (mkShell (run_world es (world s)) (ui s) (log s)).
Proof. apply lift_ok, run_ok. Qed.

Lemma handleSynthesis_click_ok (s : Shell) :
  isApiConnected (api (ui s)) = true ->
  blank (text (st (world s))) = false ->
  exists ctx,
    audioContext (st (click_world (world s))) = Some ctx /\
    rendered (handleSynthesis_click (st (world s)) (ui s)) s
    = Returned
        (Some (mkRequest (text (st (world s))) (selectedEmotion (ui s))
                 (selectedVoice (ui s)) ctx (apiKey (api (ui s)))))
        (mkShell (click_world (world s))
           (set_processing (mkProcessing false true 50 "Synthesizing Audio...") (ui s))
           (log s)).
Proof.
  intros Hc Hb. destruct s as [w u l]. cbn [world ui log] in *.
  unfold click_world. cbv zeta.
  set (w1 := initAudio_world (st w) w).
  set (w2 := match sourceNode (st w) with Some s => stop_world s w1 | None => w1 end).
  set (w3 := with_st (set_isPlaying false) w2).
  set (w4 := match audioContext (st w) with
             | Some _ => w3
             | None => with_st (set_audioContext (Some (contexts w3)))
                         (with_contexts (S (contexts w3)) w3)
             end).
  set (ctx := default (contexts w3) (audioContext (st w))).
  assert (Hrun : handleSynthesis_click (st w) u (mkShell w u l)
                 = Returned
                     (Some (mkRequest (text (st w)) (selectedEmotion u)
                              (selectedVoice u) ctx (apiKey (api u))))
                     (mkShell w4
                        (set_processing
                           (mkProcessing false true 50 "Synthesizing Audio...") u) l)).
  { unfold handleSynthesis_click. rewrite Hc, Hb. cbn [negb]. unfold_h.
    rewrite (lift_ok _ tt w1) by apply initAudio_ok. cbn [world ui log].
    assert (Hstop : match sourceNode (st w) with
                    | Some s => lift (try_catch (source_stop s))
                    | None => fun s => Returned tt s
                    end (mkShell w1 u l) = Returned tt (mkShell w2 u l)).
    { subst w2. destruct (sourceNode (st w)); [|done].
      by rewrite (lift_ok _ tt (stop_world n w1)) by apply try_stop_world. }
    rewrite Hstop. cbn [world ui log].
    rewrite (lift_ok _ tt w3) by done. cbn [world ui log].
    unfold setProcessing, hmodify, with_ui. cbn [world ui log].
    subst w4 ctx. destruct (audioContext (st w)) as [c|]; [done|].
    unfold new_AudioContext. unfold lift at 1. cbn [world ui log with_world default].
    unfold id. by rewrite (lift_ok _ tt _) by done. }
  exists ctx. split.
  - destruct (flush_world_keeps (st w) w4) as (_ & Hst & _).
    apply (f_equal audioContext) in Hst. cbn in Hst. rewrite Hst.
    subst ctx w4 w3. destruct (audioContext (st w)) as [c|] eqn:Ec.
    + subst w2 w1. unfold initAudio_world. rewrite Ec. cbn.
      destruct (sourceNode (st w)) as [s|]; [|done].
      by rewrite (proj1 (stop_world_keeps s w)).
    + done.
  - by rewrite (rendered_ok _ _ _ _ Hrun).
Qed.


Lemma flush_world_st prev w :
  st (flush_world prev w)
  = set_currentWordIndex (currentWordIndex (st (flush_world prev w))) (st w).
Proof.
  destruct (flush_world_keeps prev w) as (_ & Hst & _).
  destruct (st (flush_world prev w)), (st w). cbn in *. by injection Hst as -> -> -> -> -> -> -> -> ->.
Qed.

Lemma tick_world_st cl w :
  st (tick_world cl w)
  = set_currentWordIndex (currentWordIndex (st (tick_world cl w))) (st w).
Proof.
  destruct (tick_world_keeps cl w) as (_ & _ & _ & Hst).
  destruct (st (tick_world cl w)), (st w). cbn in *. by injection Hst as -> -> -> -> -> -> -> -> ->.
Qed.

Lemma flush_world_playing prev w id :
  is_playing (flush_world prev w) id <-> is_playing w id.
Proof.
  destruct (flush_world_keeps prev w) as (Hs & _). unfold is_playing. by rewrite Hs.
Qed.

Lemma flush_world_length prev w :
  length (sources (flush_world prev w)) = length (sources w).
Proof. pose proof (shape_flush prev w) as H. unfold shape in H. congruence. Qed.

Lemma shape_length_filters prev w :
  length (filters (flush_world prev w)) = length (filters w).
Proof. pose proof (shape_flush prev w) as H. unfold shape in H. congruence. Qed.

Lemma calm_refl w : calm w w.
Proof. unfold calm. repeat split; try done. intros H. by right. Qed.

Lemma calm_trans w1 w2 w3 : calm w1 w2 -> calm w2 w3 -> calm w1 w3.
Proof.
  intros (A1 & A2 & A3 & A4 & A5 & A6 & A7) (B1 & B2 & B3 & B4 & B5 & B6 & B7).
  unfold calm. split; [|split; [|split; [|split; [|split; [|split]]]]].
  - intros id H. by apply A1, B1.
  - congruence.
  - congruence.
  - congruence.
  - intros H. by apply A5, B5.
  - intros H. destruct (A6 H) as [Ha Hf].
    assert (H2 : is_Some (audioContext (st w2))) by (by rewrite Ha).
    destruct (B6 H2) as [Hb Hg]. split; congruence.
  - intros H. destruct (B7 H) as [Hc|Hf]; [by left|].
    destruct (A7 Hf) as [Hc|Hf1]; [|by right].
    destruct (B6 Hc) as [Hb _]. left. by rewrite Hb.
Qed.

(** A render after a change of the state that leaves the nodes alone. *)
Lemma calm_flush (w w0 : World) :
  calm w w0 -> calm w (flush_world (st w) w0).
Proof.
  intros (A1 & A2 & A3 & A4 & A5 & A6 & A7).
  pose proof (flush_world_st (st w) w0) as Hst.
  unfold calm. rewrite Hst, flush_world_length. cbn.
  repeat split; try done; try (by apply A6).
  intros id H. by apply A1, (flush_world_playing (st w)).
Qed.


Lemma calm_state (f : State -> State) (w : World) :
  (forall s, sourceNode (f s) = sourceNode s) ->
  (forall s, audioBuffer (f s) = audioBuffer s) ->
  (forall s, isPlaying (f s) = true -> isPlaying s = true) ->
  (forall s, audioContext (f s) = audioContext s) ->
  (forall s, filterNode (f s) = filterNode s) ->
  calm w (flush_world (st w) (with_st f w)).
Proof.
  intros H1 H2 H3 H4 H5. apply calm_flush. unfold calm. unfold_w.
  rewrite H1, H2, H4, H5. repeat split; try done; [apply H3|]. intros H. by right.
Qed.

Lemma calm_sources (w w' : World) :
  st w' = st w ->
  (forall id, is_playing w' id -> is_playing w id) ->
  length (sources w') = length (sources w) ->
  calm w w'.
Proof.
  intros Hst Hp Hl. unfold calm. rewrite Hst.
  repeat split; try done. intros H. by right.
Qed.

Lemma calm_step e w : quiet e = true -> calm w (step_world e w).
Proof.
  intros Hq. destruct e as [|render buffer ctx| | | | | | |s|s|d|]; try done;
    cbn [step_world].
  - (* initAudio *)
    apply calm_flush. unfold initAudio_world.
    destruct (audioContext (st w)) as [c|] eqn:Ec; [apply calm_refl|].
    unfold calm. unfold_w. cbn. rewrite Ec.
    repeat split; try done; try (by intros [? ?]). intros _. by left.
  - (* handleStop *)
    apply calm_flush. unfold handleStop_world.
    destruct (sourceNode (st w)) as [s|] eqn:Es; [|apply calm_refl].
    destruct (stop_world_keeps s w) as (Hst & _ & _ & _ & _ & _ & Hl).
    unfold calm. unfold_w. rewrite Hst. cbn.
    repeat split; try done.
    + intros id H. by apply (stop_world_playing s w id).
    + intros H. by right.
  - by apply (calm_state (set_playbackRate v)).
  - by apply (calm_state (set_pitchShift v)).
  - by apply (calm_state (set_emphasis v)).
  - by apply (calm_state (set_text v)).
  - (* a source reaches its end *)
    unfold finish_world. destruct (src_state <$> sources w !! s) as [[| |]|];
      try apply calm_refl.
    apply calm_sources; [done| |unfold_w; by rewrite length_alter].
    intros id H. by apply is_playing_end in H as [? _].
  - (* the ended event *)
    unfold ended_world. destruct (sources w !! s) as [src|] eqn:Es; [|apply calm_refl].
    destruct (src_ended_queued src); [|apply calm_refl].
    assert (Hsame : forall id,
               is_playing (with_sources (alter (src_set_state (src_state src) false) s) w) id
               -> is_playing w id).
    { intros id. rewrite !is_playing_lookup. unfold_w.
      rewrite list_lookup_alter. destruct (decide (s = id)) as [->|]; [|done].
      rewrite Es. simpl. intros (src' & [= <-] & Hp). eauto. }
    destruct (src_onended src).
    + unfold_w. apply (calm_trans _ (with_sources (alter (src_set_state (src_state src) false) s) w)).
      * apply calm_sources; [done|done|unfold_w; by rewrite length_alter].
      * apply (calm_flush (with_sources (alter (src_set_state (src_state src) false) s) w)).
        unfold calm. unfold_w. cbn. repeat split; try done. intros H. by right.
    + apply calm_sources; [done|done|unfold_w; by rewrite length_alter].
  - (* the clock *)
    unfold advance_world. destruct (Qle_bool 0 d); [|apply calm_refl].
    by apply calm_sources.
  - (* a frame *)
    unfold frame_world, callbacks_world.
    apply (calm_trans _ (with_frames (fun _ => []) (next_frame w) w));
      [by apply calm_sources|].
    generalize (with_frames (fun _ => []) (next_frame w) w).
    induction (frames w) as [|[id cl] fs IH]; intros w0; [apply calm_refl|].
    cbn [foldl snd]. apply (calm_trans _ (tick_world cl w0)); [|apply IH].
    destruct (tick_world_keeps cl w0) as (Hs & _).
    pose proof (tick_world_st cl w0) as Hst.
    unfold calm. rewrite Hst, Hs. cbn. unfold is_playing, statuses. rewrite Hs.
    repeat split; try done. intros H. by right.
Qed.

Lemma calm_run es : forall w,
  Forall (fun e => quiet e = true) es -> calm w (run_world es w).
Proof.
  induction es as [|e es IH]; intros w Hq; [apply calm_refl|].
  apply Forall_cons in Hq as [He Hes]. cbn.
  apply (calm_trans _ (step_world e w)); [by apply calm_step|by apply IH].
Qed.

Lemma quiet_enabled_run es : forall w,
  Forall (fun e => quiet e = true) es -> enabled_run es w = true.
Proof.
  induction es as [|e es IH]; intros w Hq; [done|].
  apply Forall_cons in Hq as [He Hes]. rewrite enabled_run_cons, IH by done.
  by destruct e.
Qed.


Lemma blank_nodes_eq (a b : State) :
  set_filterNode None (set_audioContext None a)
  = set_filterNode None (set_audioContext None b) ->
  set_audioContext None (set_filterNode None a)
  = set_audioContext None (set_filterNode None b).
Proof.
  destruct a, b. unfold set_filterNode, set_audioContext. cbn. congruence.
Qed.

(** The world after the first segment of [handleSynthesis]. *)
Lemma click_world_facts (w : World) :
  Inv w -> Inv2 w ->
  let w' := click_world w in
  Inv w' /\ Inv2 w' /\
  (forall id, ~ is_playing w' id) /\
  isPlaying (st w') = false /\
  length (sources w') = length (sources w) /\
  sourceNode (st w') = sourceNode (st w) /\
  audioBuffer (st w') = audioBuffer (st w) /\
  text (st w') = text (st w) /\
  is_Some (audioContext (st w')) /\
  filterNode (st w')
  = match audioContext (st w) with
    | Some _ => filterNode (st w)
    | None => Some (length (filters w))
    end /\
  contexts w' = (contexts w + match audioContext (st w) with
                              | Some _ => 0
                              | None => 2
                              end)%nat /\
  length (filters w') = (length (filters w) + match audioContext (st w) with
                                               | Some _ => 0
                                               | None => 1
                                               end)%nat.
Proof.
  intros HI HI2. pose proof HI as [Hact Hone Hidle Hclock].
  pose proof HI2 as [Hsrc Hflt Hon Hplay].
  unfold click_world. cbv zeta.
  set (w1 := initAudio_world (st w) w).
  set (w2 := match sourceNode (st w) with Some s => stop_world s w1 | None => w1 end).
  set (w3 := with_st (set_isPlaying false) w2).
  set (w4 := match audioContext (st w) with
             | Some _ => w3
             | None => with_st (set_audioContext (Some (contexts w3)))
                         (with_contexts (S (contexts w3)) w3)
             end).
  assert (H1 : sources w1 = sources w /\ frames w1 = frames w /\
               animationFrameRef w1 = animationFrameRef w /\
               startTimeRef w1 = startTimeRef w /\ currentTime w1 = currentTime w /\
               set_filterNode None (set_audioContext None (st w1))
               = set_filterNode None (set_audioContext None (st w))).
  { subst w1. unfold initAudio_world. by destruct (audioContext (st w)). }
  destruct H1 as (H1s & H1f & H1r & H1t & H1c & H1st).
  assert (H2 : st w2 = st w1 /\ frames w2 = frames w1 /\
               animationFrameRef w2 = animationFrameRef w1 /\
               startTimeRef w2 = startTimeRef w1 /\ currentTime w2 = currentTime w1 /\
               filters w2 = filters w1 /\
               length (sources w2) = length (sources w1) /\
               contexts w2 = contexts w1 /\
               shape w2 = shape w1).
  { subst w2. destruct (sourceNode (st w)) as [s|]; [|done].
    destruct (stop_world_keeps s w1) as (? & ? & ? & ? & ? & ? & ?).
    repeat split; try done; [|apply shape_stop].
    unfold stop_world. cbv zeta.
    by destruct (src_state <$> sources (with_call (CallStop s) w1) !! s) as [[| |]|]. }
  destruct H2 as (H2st & H2f & H2r & H2t & H2c & H2fl & H2l & H2x & H2sh).
  assert (Hsilent : forall id, ~ is_playing w2 id).
  { intros id Hid. subst w2. destruct (sourceNode (st w)) as [s|] eqn:Es.
    - apply stop_world_playing in Hid as [Hp Hne].
      assert (Hp' : is_playing w id)
        by (unfold is_playing, statuses in *; by rewrite <- H1s).
      apply Hact in Hp'. congruence.
    - assert (Hp' : is_playing w id)
        by (unfold is_playing, statuses in *; by rewrite <- H1s).
      apply Hact in Hp'. congruence. }
  assert (H4 : sources w4 = sources w2 /\ frames w4 = frames w2 /\
               animationFrameRef w4 = animationFrameRef w2 /\
               startTimeRef w4 = startTimeRef w2 /\ currentTime w4 = currentTime w2 /\
               filters w4 = filters w2 /\
               set_audioContext None (st w4)
               = set_audioContext None (set_isPlaying false (st w2)))
    by (subst w4 w3; by destruct (audioContext (st w))).
  destruct H4 as (H4s & H4f & H4r & H4t & H4c & H4fl & H4st).
  assert (Hf4 : forall (A : Type) (p : State -> A),
             (forall v s, p (set_audioContext v s) = p s) ->
             (forall v s, p (set_filterNode v s) = p s) ->
             (forall v s, p (set_isPlaying v s) = p s) ->
             p (st w4) = p (st w)).
  { intros A p Pc Pf Pp.
    rewrite <- (Pc None (st w4)), H4st, Pc, Pp, H2st.
    rewrite <- (Pf None (st w1)), <- (Pc None (set_filterNode None (st w1))).
    rewrite <- (Pf None (st w)), <- (Pc None (set_filterNode None (st w))).
    f_equal. by apply blank_nodes_eq. }
  assert (Hplay4 : isPlaying (st w4) = false).
  { transitivity (isPlaying (set_audioContext None (st w4))); [done|].
    by rewrite H4st. }
  assert (Hsilent4 : forall id, ~ is_playing w4 id).
  { intros id Hid. apply (Hsilent id). unfold is_playing, statuses in *.
    by rewrite <- H4s. }
  assert (Hctx4 : is_Some (audioContext (st w4))).
  { subst w4 w3. destruct (audioContext (st w)) as [c|] eqn:Ec; [|by eexists].
    cbn. rewrite H2st. subst w1. unfold initAudio_world. rewrite Ec. by eexists. }
  assert (Hflt4 : filterNode (st w4)
                  = match audioContext (st w) with
                    | Some _ => filterNode (st w)
                    | None => Some (length (filters w))
                    end).
  { transitivity (filterNode (st w1)).
    - transitivity (filterNode (set_audioContext None (st w4))); [done|].
      rewrite H4st. cbn. by rewrite H2st.
    - subst w1. unfold initAudio_world. by destruct (audioContext (st w)). }
  pose proof (flush_world_st (st w) w4) as Hst.
  set (w' := flush_world (st w) w4) in *.
  assert (HI' : Inv w').
  { apply flush_inv.
    - intros id Hid. by apply Hsilent4 in Hid.
    - unfold one_frame. by rewrite H4f, H4r, H2f, H2r, H1f, H1r.
    - intros Hk _. apply karaoke_deps_same_isPlaying in Hk.
      rewrite Hplay4 in Hk. rewrite H4f, H2f, H1f.
      rewrite (Hf4 _ currentWordIndex) by done. by apply Hidle.
    - by rewrite H4t, H4c, H2t, H2c, H1t, H1c. }
  assert (Hlen4 : length (sources w4) = length (sources w))
    by (by rewrite H4s, H2l, H1s).
  assert (Hfl4 : length (filters w4)
                 = (length (filters w) + match audioContext (st w) with
                                          | Some _ => 0
                                          | None => 1
                                          end)%nat).
  { rewrite H4fl, H2fl. subst w1. unfold initAudio_world.
    destruct (audioContext (st w)); unfold_w; [lia|].
    rewrite length_app. simpl. lia. }
  assert (HI2' : Inv2 w').
  { apply flush_inv2. split.
    - intros s. rewrite (Hf4 _ sourceNode) by done. rewrite Hlen4. apply Hsrc.
    - intros f. rewrite Hflt4, Hfl4.
      destruct (audioContext (st w)).
      + intros Hf. apply Hflt in Hf. lia.
      + intros [= <-]. lia.
    - intros id src. rewrite H4s. intros Hid.
      assert (Ho : (src_onended <$> sources w2) !! id = Some (src_onended src))
        by (by rewrite list_lookup_fmap, Hid).
      unfold shape in H2sh. injection H2sh as _ _ H2o.
      rewrite H2o, H1s, list_lookup_fmap in Ho.
      destruct (sources w !! id) as [src0|] eqn:E; [|done].
      simpl in Ho. injection Ho as <-. by apply (Hon id).
    - by rewrite Hplay4. }
  split; [done|]. split; [done|].
  split; [intros id Hid; apply (Hsilent4 id); by apply (flush_world_playing (st w))|].
  rewrite Hst. cbn.
  assert (Hl' : length (sources w') = length (sources w))
    by (subst w'; by rewrite flush_world_length).
  assert (Hfl' : length (filters w') = length (filters w4))
    by (subst w'; by rewrite shape_length_filters).
  rewrite Hl', Hfl', Hfl4, Hflt4, Hplay4.
  rewrite (Hf4 _ sourceNode), (Hf4 _ audioBuffer), (Hf4 _ text) by done.
  repeat split; try done.
  destruct (flush_world_keeps (st w) w4) as (_ & _ & _ & _ & _ & Hx & _).
  fold w' in Hx. rewrite Hx. subst w4 w3.
  destruct (audioContext (st w)) as [c|] eqn:Ec; unfold_w; rewrite H2x; subst w1;
    unfold initAudio_world; rewrite Ec; unfold_w; lia.
Qed.


Lemma proj_alter_same {A} (p : SourceNode -> A) (f : SourceNode -> SourceNode)
    (s : nat) (ss : list SourceNode) :
  (forall x, p (f x) = p x) -> p <$> alter f s ss = p <$> ss.
Proof.
  intros Hf. apply list_eq. intros i.
  rewrite !list_lookup_fmap, list_lookup_alter.
  destruct (decide (s = i)) as [->|]; [|done].
  destruct (ss !! i); simpl; [by rewrite Hf|done].
Qed.

(** Rendering changes the rate and the detune of a source, nothing else of
    it. *)
Lemma flush_world_proj {A} (p : SourceNode -> A) prev w :
  (forall v x, p (src_set_playbackRate v x) = p x) ->
  (forall v x, p (src_set_detune v x) = p x) ->
  p <$> sources (flush_world prev w) = p <$> sources w.
Proof.
  intros Hr Hd.
  assert (Hp : forall props w0,
             p <$> sources (paramEffect_world props w0) = p <$> sources w0).
  { intros props w0. unfold paramEffect_world.
    destruct (sourceNode props), (filterNode props); unfold_w;
      rewrite ?proj_alter_same; done. }
  assert (Hk : forall props w0, sources (karaokeEffect_world props w0) = sources w0).
  { intros props w0. unfold karaokeEffect_world.
    by destruct (isPlaying props), (audioBuffer props), (audioContext props). }
  unfold flush_world. cbv zeta.
  destruct (karaoke_deps_same prev (st w)), (param_deps_same prev (st w));
    rewrite ?Hk, ?Hp; done.
Qed.

Lemma karaoke_deps_changed_isPlaying prev next :
  isPlaying prev <> isPlaying next -> karaoke_deps_same prev next = false.
Proof.
  intros H. destruct (karaoke_deps_same prev next) eqn:E; [|done].
  by apply karaoke_deps_same_isPlaying in E.
Qed.

(** [playAudio] on a silent component, from a render that holds its source
    node and no filter node or its filter node. *)
Lemma play_facts (w : World) (props : State) (buffer : BufferObj) (ctx : nat) :
  Inv w -> Inv2 w ->
  sourceNode props = sourceNode (st w) ->
  filterNode props = None \/ filterNode props = filterNode (st w) ->
  isPlaying (st w) = false ->
  audioBuffer (st w) = Some buffer ->
  is_Some (audioContext (st w)) ->
  let w' := step_world (EPlay props (Some buffer) (Some ctx)) w in
  let n := length (sources w) in
  Inv w' /\ Inv2 w' /\
  active w' = [n] /\
  sourceNode (st w') = Some n /\
  isPlaying (st w') = true /\
  audioBuffer (st w') = Some buffer /\
  audioContext (st w') = audioContext (st w) /\
  is_Some (filterNode (st w')) /\
  (exists src, sources w' !! n = Some src /\
     src_buffer src = Some buffer /\ src_output src = filterNode (st w')) /\
  frames w' = [(animationFrameRef w', karaoke_closure (st w') buffer)].
Proof.
  intros HI HI2 Hsrc Hflt Hplay Hbuf Hctx. cbv zeta.
  assert (Hen : enabled (EPlay props (Some buffer) (Some ctx)) w = true)
    by (by apply bool_decide_eq_true).
  pose proof (step_inv _ w Hen HI) as HI'.
  pose proof (step_inv2 (EPlay props (Some buffer) (Some ctx)) w HI2) as HI2'.
  destruct (play_step w props buffer ctx HI Hsrc) as (Hs' & Hact' & _ & _ & Hlen').
  revert HI' HI2' Hs' Hact' Hlen'. cbn [step_world].
  set (pw := playAudio_world props buffer w).
  intros HI' HI2' Hs' Hact' Hlen'.
  pose proof (flush_world_st (st w) pw) as Hst.
  destruct (stopped_world_keeps w) as (Hst1 & Hlen1 & Hf1 & _ & _).
  assert (Hpw : isPlaying (st pw) = true /\
                audioBuffer (st pw) = Some buffer /\
                audioContext (st pw) = audioContext (st w) /\
                is_Some (filterNode (st pw)) /\
                (exists src, sources pw !! length (sources w) = Some src /\
                   src_buffer src = Some buffer /\
                   src_output src = filterNode (st pw)) /\
                one_frame pw).
  { subst pw. unfold playAudio_world. cbv zeta. rewrite Hsrc.
    fold (stopped_world w).
    assert (Hone : one_frame (stopped_world w)).
    { destruct HI as [_ Hone _ _]. unfold stopped_world.
      destruct (sourceNode (st w)) as [s|]; [|done].
      destruct (stop_world_keeps s w) as (_ & Hf & Hr & _).
      unfold one_frame. by rewrite Hf, Hr. }
    destruct Hflt as [Hn|Hs].
    - rewrite Hn. unfold_w. cbn. rewrite Hst1, Hbuf.
      split; [done|]. split; [done|]. split; [done|]. split; [by eexists|].
      split; [|exact Hone].
      eexists. rewrite <- Hlen1. rewrite list_lookup_middle by done. done.
    - rewrite Hs. destruct (filterNode (st w)) as [f|] eqn:Ef.
      + unfold_w. cbn. rewrite Hst1, Hbuf, Ef.
        split; [done|]. split; [done|]. split; [done|]. split; [by eexists|].
        split; [|exact Hone].
        eexists. rewrite <- Hlen1. rewrite list_lookup_middle by done. done.
      + unfold_w. cbn. rewrite Hst1, Hbuf.
        split; [done|]. split; [done|]. split; [done|]. split; [by eexists|].
        split; [|exact Hone].
        eexists. rewrite <- Hlen1. rewrite list_lookup_middle by done. done. }
  destruct Hpw as (Hp & Hb & Hc & Hf & (src & Hsrc' & Hsb & Hso) & Hone).
  pose proof (flush_world_karaoke (st w) pw Hone) as Hk. cbv zeta in Hk.
  rewrite karaoke_deps_changed_isPlaying in Hk by congruence.
  rewrite Hp, Hb, Hc in Hk. destruct Hctx as [c Hctx]. rewrite Hctx in Hk.
  destruct Hk as [Hfr Hst'].
  set (w' := flush_world (st w) pw) in *.
  split; [done|]. split; [done|]. split; [done|]. split; [done|].
  rewrite Hst'. rewrite Hp, Hb, Hc, Hctx.
  split; [done|]. split; [done|]. split; [done|]. split; [done|].
  split; [|done].
  assert (Hlt : (length (sources w) < length (sources w'))%nat) by lia.
  apply lookup_lt_is_Some_2 in Hlt as [src' Hsrc''].
  exists src'. split; [done|].
  pose proof (flush_world_proj src_buffer (st w) pw (fun _ _ => eq_refl)
                (fun _ _ => eq_refl)) as Pb.
  pose proof (flush_world_proj src_output (st w) pw (fun _ _ => eq_refl)
                (fun _ _ => eq_refl)) as Po.
  apply (f_equal (fun l => l !! length (sources w))) in Pb.
  apply (f_equal (fun l => l !! length (sources w))) in Po.
  rewrite !list_lookup_fmap in Pb. rewrite !list_lookup_fmap in Po.
  fold w' in Pb, Po. rewrite Hsrc'', Hsrc' in Pb. rewrite Hsrc'', Hsrc' in Po.
  cbn in Pb, Po. injection Pb as Pb. injection Po as Po. by rewrite Pb, Po.
Qed.


Lemma handleSynthesis_answer_done (props : State) (uprops : Ui)
    (b : Wav.AudioBuffer) (id : nat) (now1 now2 : Z) (s : Shell) :
  let buffer := mkBufferObj id b in
  let item :=
    mkHistoryItem now1 (text props) (Text.strip_tags (text props))
      (selectedEmotion uprops) (selectedVoice uprops) now2
      (WavBytes.header_bytes b ++ WavBytes.data_bytes b) in
  rendered (handleSynthesis_answer props uprops (Gemini.Done b) id now1 now2) s
  = Returned (Some (buffer, item))
      (mkShell (step_world (ESetAudioBuffer (Some buffer)) (world s)) (ui s)
         (log s ++ [SaveRequested item])).
Proof.
  cbv zeta.
  assert (Hrun : handleSynthesis_answer props uprops (Gemini.Done b) id now1 now2 s
                 = Returned
                     (Some (mkBufferObj id b,
                            mkHistoryItem now1 (text props)
                              (Text.strip_tags (text props))
                              (selectedEmotion uprops) (selectedVoice uprops) now2
                              (WavBytes.header_bytes b ++ WavBytes.data_bytes b)))
                     (mkShell
                        (with_st (set_audioBuffer (Some (mkBufferObj id b))) (world s))
                        (ui s)
                        (log s ++ [SaveRequested
                                     (mkHistoryItem now1 (text props)
                                        (Text.strip_tags (text props))
                                        (selectedEmotion uprops) (selectedVoice uprops)
                                        now2
                                        (WavBytes.header_bytes b
                                         ++ WavBytes.data_bytes b))]))).
  { unfold handleSynthesis_answer, try_else. unfold_h.
    unfold lift, setAudioBuffer, modify. by rewrite audioBufferToWav_bytes. }
  by rewrite (rendered_ok _ _ _ _ Hrun).
Qed.

Lemma handleSynthesis_answer_fail (props : State) (uprops : Ui)
    (e : Gemini.error) (id : nat) (now1 now2 : Z) (s : Shell) :
  rendered (handleSynthesis_answer props uprops (Gemini.Fail e) id now1 now2) s
  = Returned None
      (mkShell (world s)
         (set_processing (mkProcessing false false 0 "Synthesis Failed") (ui s))
         (log s ++ [ErrorLogged])).
Proof.
  assert (Hrun : handleSynthesis_answer props uprops (Gemini.Fail e) id now1 now2 s
                 = Returned None
                     (mkShell (world s)
                        (set_processing
                           (mkProcessing false false 0 "Synthesis Failed") (ui s))
                        (log s ++ [ErrorLogged]))) by done.
  rewrite (rendered_ok _ _ _ _ Hrun). cbn [world ui log].
  by rewrite flush_world_refl.
Qed.

Lemma handleSynthesis_saved_ok (props : State) (buffer : BufferObj) (ctx : nat)
    (s : Shell) :
  rendered (handleSynthesis_saved props buffer ctx true) s
  = Returned tt
      (mkShell (step_world (EPlay props (Some buffer) (Some ctx)) (world s))
         (set_processing (mkProcessing false false 100 "Ready") (ui s))
         (log s ++ [HistoryRequested])).
Proof.
  assert (Hrun : handleSynthesis_saved props buffer ctx true s
                 = Returned tt
                     (mkShell (playAudio_world props buffer (world s))
                        (set_processing (mkProcessing false false 100 "Ready") (ui s))
                        (log s ++ [HistoryRequested]))).
  { unfold handleSynthesis_saved, try_else. unfold_h.
    unfold loadHistory, setProcessing, hmodify.
    by rewrite (lift_ok _ tt _ _ (playAudio_ok _ _ _ _)). }
  by rewrite (rendered_ok _ _ _ _ Hrun).
Qed.

Lemma handleSynthesis_saved_fail (props : State) (buffer : BufferObj) (ctx : nat)
    (s : Shell) :
  rendered (handleSynthesis_saved props buffer ctx false) s
  = Returned tt
      (mkShell (world s)
         (set_processing (mkProcessing false false 0 "Synthesis Failed") (ui s))
         (log s ++ [ErrorLogged])).
Proof.
  assert (Hrun : handleSynthesis_saved props buffer ctx false s
                 = Returned tt
                     (mkShell (world s)
                        (set_processing
                           (mkProcessing false false 0 "Synthesis Failed") (ui s))
                        (log s ++ [ErrorLogged]))) by done.
  rewrite (rendered_ok _ _ _ _ Hrun). cbn [world ui log].
  by rewrite flush_world_refl.
Qed.

(** What [calm] keeps of a silent, sound world. *)
Lemma calm_silent (w w' : World) :
  calm w w' ->
  (forall id, ~ is_playing w id) -> isPlaying (st w) = false ->
  is_Some (audioContext (st w)) ->
  (forall id, ~ is_playing w' id) /\ isPlaying (st w') = false /\
  is_Some (audioContext (st w')) /\
  length (sources w') = length (sources w) /\
  sourceNode (st w') = sourceNode (st w) /\
  filterNode (st w') = filterNode (st w) /\
  audioBuffer (st w') = audioBuffer (st w).
Proof.
  intros (A1 & A2 & A3 & A4 & A5 & A6 & A7) Hs Hp Hc.
  destruct (A6 Hc) as [Hc' Hf'].
  split; [intros id Hid; by apply (Hs id), A1|].
  split; [destruct (isPlaying (st w')); [|done]; rewrite A5 in Hp; done|].
  split; [by rewrite Hc'|]. done.
Qed.


Lemma run_world_inv2 es : forall w, Inv2 w -> Inv2 (run_world es w).
Proof.
  induction es as [|e es IH]; intros w HI; [done|].
  cbn. apply IH. by apply step_inv2.
Qed.

Lemma waiting_click (w0 : World) :
  Inv w0 -> Inv2 w0 ->
  waiting w0 (click_world w0) /\
  audioBuffer (st (click_world w0)) = audioBuffer (st w0) /\
  text (st (click_world w0)) = text (st w0).
Proof.
  intros HI HI2.
  destruct (click_world_facts w0 HI HI2)
    as (H1 & H2 & H3 & H4 & H5 & H6 & H7 & H8 & H9 & H10 & _).
  unfold waiting. done.
Qed.

Lemma waiting_run (w0 w : World) (es : list event) :
  Forall (fun e => quiet e = true) es ->
  waiting w0 w ->
  waiting w0 (run_world es w) /\
  audioBuffer (st (run_world es w)) = audioBuffer (st w).
Proof.
  intros Hq (H1 & H2 & H3 & H4 & H5 & H6 & H7 & H8).
  destruct (calm_silent w (run_world es w) (calm_run es w Hq) H3 H4 H5)
    as (C1 & C2 & C3 & C4 & C5 & C6 & C7).
  unfold waiting. rewrite C4, C5, C6. split; [|done].
  split; [apply run_world_inv; [by apply quiet_enabled_run|done]|].
  split; [by apply run_world_inv2|]. done.
Qed.

Lemma waiting_load (w0 w : World) (v : option BufferObj) :
  waiting w0 w ->
  waiting w0 (step_world (ESetAudioBuffer v) w) /\
  audioBuffer (st (step_world (ESetAudioBuffer v) w)) = v.
Proof.
  intros (H1 & H2 & H3 & H4 & H5 & H6 & H7 & H8).
  pose proof (step_inv (ESetAudioBuffer v) w eq_refl H1) as HI.
  pose proof (step_inv2 (ESetAudioBuffer v) w H2) as HI2.
  revert HI HI2. cbn [step_world].
  pose proof (flush_world_st (st w) (with_st (set_audioBuffer v) w)) as Hst.
  pose proof (flush_world_length (st w) (with_st (set_audioBuffer v) w)) as Hl.
  intros HI HI2. unfold waiting. rewrite Hst, Hl. cbn. split; [|done].
  split; [done|]. split; [done|].
  split; [intros id Hid; apply (H3 id); by apply flush_world_playing in Hid|].
  done.
Qed.


Lemma handleOptimization_click_ok (deep : bool) (s : Shell) :
  isApiConnected (api (ui s)) = true ->
  blank (text (st (world s))) = false ->
  rendered (handleOptimization_click (st (world s)) (ui s) deep) s
  = Returned true
      (mkShell (step_world EInitAudio (world s))
         (set_processing
            (mkProcessing true false 30
               (if deep then "Thinking Protocol Active..." else "Polishing..."))
            (ui s))
         (log s)).
Proof.
  intros Hc Hb.
  assert (Hrun : handleOptimization_click (st (world s)) (ui s) deep s
                 = Returned true
                     (mkShell (initAudio_world (st (world s)) (world s))
                        (set_processing
                           (mkProcessing true false 30
                              (if deep then "Thinking Protocol Active..."
                               else "Polishing..."))
                           (ui s))
                        (log s))).
  { unfold handleOptimization_click. rewrite Hc, Hb. cbn [negb]. unfold_h.
    by rewrite (lift_ok _ tt _ _ (initAudio_ok _ _)). }
  by rewrite (rendered_ok _ _ _ _ Hrun).
Qed.

Lemma handleOptimization_answer_some (optimized : Text.jsstring) (s : Shell) :
  rendered (handleOptimization_answer (Some optimized)) s
  = Returned tt
      (mkShell (step_world (ESetText optimized) (world s))
         (set_processing
            (mkProcessing false (isSynthesizing (processing (ui s))) 100
               "Optimization Complete")
            (ui s))
         (log s ++ [TimerSet 2000])).
Proof.
  assert (Hrun : handleOptimization_answer (Some optimized) s
                 = Returned tt
                     (mkShell (with_st (set_text optimized) (world s))
                        (set_processing
                           (mkProcessing false (isSynthesizing (processing (ui s)))
                              100 "Optimization Complete")
                           (ui s))
                        (log s ++ [TimerSet 2000]))) by done.
  by rewrite (rendered_ok _ _ _ _ Hrun).
Qed.

Lemma handleOptimization_answer_none (s : Shell) :
  rendered (handleOptimization_answer None) s
  = Returned tt
      (mkShell (world s)
         (set_processing (mkProcessing false false 0 "Optimization Failed") (ui s))
         (log s ++ [ErrorLogged])).
Proof.
  assert (Hrun : handleOptimization_answer None s
                 = Returned tt
                     (mkShell (world s)
                        (set_processing
                           (mkProcessing false false 0 "Optimization Failed") (ui s))
                        (log s ++ [ErrorLogged]))) by done.
  rewrite (rendered_ok _ _ _ _ Hrun). cbn [world ui log].
  by rewrite flush_world_refl.
Qed.

(** Only [setText] changes the text. *)
Lemma step_world_text (e : event) (w : World) :
  text (st (step_world e w))
  = match e with ESetText v => v | _ => text (st w) end.
Proof.
  destruct e as [|render buffer ctx| | | | | | |s|s|d|]; cbn [step_world];
    try (rewrite flush_world_st; done).
  - rewrite flush_world_st. cbn. unfold initAudio_world.
    by destruct (audioContext (st w)).
  - destruct buffer as [buffer|]; [destruct ctx as [ctx|]|];
      rewrite flush_world_st; try done.
    cbn. unfold playAudio_world. cbv zeta.
    assert (Hs : st (match sourceNode render with
                     | Some s => stop_world s w
                     | None => w
                     end) = st w).
    { destruct (sourceNode render) as [s|]; [apply stop_world_keeps|done]. }
    destruct (filterNode render); unfold_w; cbn; by rewrite Hs.
  - rewrite flush_world_st. cbn. unfold handleStop_world.
    destruct (sourceNode (st w)) as [s|]; [|done].
    unfold_w. cbn. by rewrite (proj1 (stop_world_keeps s w)).
  - unfold finish_world. by destruct (src_state <$> sources w !! s) as [[| |]|].
  - unfold ended_world. destruct (sources w !! s) as [src|]; [|done].
    destruct (src_ended_queued src); [|done].
    destruct (src_onended src); [|done]. by rewrite flush_world_st.
  - unfold advance_world. by destruct (Qle_bool 0 d).
  - unfold frame_world, callbacks_world.
    change (text (st w))
      with (text (st (with_frames (fun _ => []) (next_frame w) w))).
    generalize (with_frames (fun _ => []) (next_frame w) w).
    induction (frames w) as [|[id cl] fs IH]; intros w0; [done|].
    cbn [foldl snd]. rewrite IH, tick_world_st. done.
Qed.

Lemma run_world_text (es : list event) : forall w,
  text (st (run_world es w)) = typed es (text (st w)).
Proof.
  induction es as [|e es IH]; intros w; [done|].
  cbn [run_world typed foldl]. rewrite <- (step_world_text e w). apply IH.
Qed.

Lemma typed_same (es : list event) (text : Text.jsstring) :
  Forall (fun e => forall v, e <> ESetText v) es -> typed es text = text.
Proof.
  revert text. induction es as [|e es IH]; intros text Hes; [done|].
  apply Forall_cons in Hes as [He Hes]. cbn [typed foldl].
  destruct e; try (by apply IH). by destruct (He v).
Qed.

Lemma blank_trimmed_or (response : option Text.jsstring) (text : Text.jsstring) :
  blank text = false -> blank (trimmed_or response text) = false.
Proof.
  intros Hb. unfold trimmed_or.
  destruct response as [t|]; cbn [fmap option_fmap option_map]; [|done].
  destruct (trim t) as [|c u] eqn:Et; [done|].
  unfold blank. rewrite <- Et, trim_idemp, Et. by apply bool_decide_eq_false.
Qed.













(** With an audio context, only [playAudio] creates a node, and nothing
    creates a context. *)
Lemma quiet_step_counts (e : event) (w : World) :
  quiet e = true -> is_Some (audioContext (st w)) ->
  contexts (step_world e w) = contexts w /\
  length (filters (step_world e w)) = length (filters w).
Proof.
  intros Hq [c Hc].
  assert (Hflush : forall prev w0,
             contexts (flush_world prev w0) = contexts w0 /\
             length (filters (flush_world prev w0)) = length (filters w0)).
  { intros prev w0. destruct (flush_world_keeps prev w0) as (_ & _ & _ & _ & _ & Hx & _).
    by rewrite shape_length_filters. }
  destruct e as [|render buffer ctx| |v|v|v|v| |s|s|d|]; try done;
    cbn [step_world];
    try (match goal with
         | |- context [flush_world (st w) (with_st ?f w)] =>
             apply (Hflush (st w) (with_st f w))
         end).
  - destruct (Hflush (st w) (initAudio_world (st w) w)) as [-> ->].
    unfold initAudio_world. by rewrite Hc.
  - destruct (Hflush (st w) (handleStop_world (st w) w)) as [-> ->].
    unfold handleStop_world. destruct (sourceNode (st w)) as [s|]; [|done].
    unfold_w. rewrite (proj1 (proj2 (proj2 (proj2 (proj2 (proj2 (stop_world_keeps s w))))))).
    split; [|done]. unfold stop_world. cbv zeta.
    by destruct (src_state <$> sources (with_call (CallStop s) w) !! s) as [[| |]|].
  - unfold finish_world. by destruct (src_state <$> sources w !! s) as [[| |]|].
  - unfold ended_world. destruct (sources w !! s) as [src|]; [|done].
    destruct (src_ended_queued src); [|done].
    destruct (src_onended src); [|done].
    apply (Hflush _ (with_st (set_isPlaying false)
                       (with_sources (alter (src_set_state (src_state src) false) s)
                          w))).
  - unfold advance_world. by destruct (Qle_bool 0 d).
  - unfold frame_world, callbacks_world.
    change (contexts w) with (contexts (with_frames (fun _ => []) (next_frame w) w)).
    change (filters w) with (filters (with_frames (fun _ => []) (next_frame w) w)).
    generalize (with_frames (fun _ => []) (next_frame w) w).
    induction (frames w) as [|[id cl] fs IH]; intros w0; [done|].
    cbn [foldl snd]. destruct (IH (tick_world cl w0)) as [-> ->].
    unfold tick_world. cbv zeta. by destruct (lt _ _).
Qed.

Lemma quiet_run_counts (es : list event) : forall w,
  Forall (fun e => quiet e = true) es -> is_Some (audioContext (st w)) ->
  contexts (run_world es w) = contexts w /\
  length (filters (run_world es w)) = length (filters w) /\
  audioContext (st (run_world es w)) = audioContext (st w).
Proof.
  induction es as [|e es IH]; intros w Hq Hc; [done|].
  apply Forall_cons in Hq as [He Hes]. cbn [run_world foldl].
  destruct (quiet_step_counts e w He Hc) as [H1 H2].
  destruct (calm_step e w He) as (_ & _ & _ & _ & _ & H6 & _).
  destruct (H6 Hc) as [Hc' _].
  destruct (IH (step_world e w) Hes) as (I1 & I2 & I3); [by rewrite Hc'|].
  fold (run_world es (step_world e w)). rewrite I1, I2, I3. done.
Qed.

(** The first synthesis of a component without an audio context. *)
Lemma click_world_first (w : World) :
  audioContext (st w) = None ->
  audioContext (st (click_world w)) = Some (S (contexts w)) /\
  contexts (click_world w) = (contexts w + 2)%nat /\
  length (filters (click_world w)) = (length (filters w) + 1)%nat.
Proof.
  intros Ec. unfold click_world. cbv zeta.
  rewrite flush_world_st, shape_length_filters.
  destruct (flush_world_keeps (st w)
              (match audioContext (st w) with
               | Some _ =>
                   with_st (set_isPlaying false)
                     (match sourceNode (st w) with
                      | Some s => stop_world s (initAudio_world (st w) w)
                      | None => initAudio_world (st w) w
                      end)
               | None =>
                   with_st
                     (set_audioContext
                        (Some (contexts
                                 (with_st (set_isPlaying false)
                                    (match sourceNode (st w) with
                                     | Some s => stop_world s (initAudio_world (st w) w)
                                     | None => initAudio_world (st w) w
                                     end)))))
                     (with_contexts
                        (S (contexts
                              (with_st (set_isPlaying false)
                                 (match sourceNode (st w) with
                                  | Some s => stop_world s (initAudio_world (st w) w)
                                  | None => initAudio_world (st w) w
                                  end))))
                        (with_st (set_isPlaying false)
                           (match sourceNode (st w) with
                            | Some s => stop_world s (initAudio_world (st w) w)
                            | None => initAudio_world (st w) w
                            end)))
               end))
    as (_ & _ & _ & _ & _ & -> & _).
  rewrite Ec.
  set (w1 := initAudio_world (st w) w).
  assert (H1 : contexts w1 = S (contexts w) /\
               length (filters w1) = (length (filters w) + 1)%nat).
  { subst w1. unfold initAudio_world. rewrite Ec. unfold_w.
    rewrite length_app. done. }
  destruct H1 as [H1c H1f].
  assert (H2 : contexts (match sourceNode (st w) with
                         | Some s => stop_world s w1
                         | None => w1
                         end) = contexts w1 /\
               filters (match sourceNode (st w) with
                        | Some s => stop_world s w1
                        | None => w1
                        end) = filters w1).
  { destruct (sourceNode (st w)) as [s|]; [|done].
    split; [|apply stop_world_keeps]. unfold stop_world. cbv zeta.
    by destruct (src_state <$> sources (with_call (CallStop s) w1) !! s) as [[| |]|]. }
  destruct H2 as [H2c H2f]. unfold_w. cbn. rewrite H2c, H2f, H1c, H1f.
  repeat split; try done. lia.
Qed.

Lemma handleSynthesis_ok
    (h : Gemini.Host) (atob : Text.jsstring -> option Text.jsstring)
    (stream : list (option Text.jsstring)) (id : nat) (now1 now2 : Z)
    (es1 es2 : list event) (b : Wav.AudioBuffer) (s0 : Shell) :
  isApiConnected (api (ui s0)) = true ->
  blank (text (st (world s0))) = false ->
  Gemini.synthesizeSpeech h atob (apiKey (api (ui s0))) stream = Gemini.Done b ->
  exists ctx u l,
    handleSynthesis h atob stream id now1 now2 true es1 es2 s0
    = Returned tt
        (mkShell
           (step_world (EPlay (st (world s0)) (Some (mkBufferObj id b)) (Some ctx))
              (run_world es2
                 (step_world (ESetAudioBuffer (Some (mkBufferObj id b)))
                    (run_world es1 (click_world (world s0))))))
           u l).
Proof.
  intros Hc Hb Hsynth.
  destruct (handleSynthesis_click_ok s0 Hc Hb) as (ctx & Hctx & Hclick).
  exists ctx. eexists _, _.
  unfold handleSynthesis. unfold_h. rewrite Hclick, meanwhile_ok.
  cbn [world ui log req_apiKey req_ctx]. rewrite Hsynth.
  rewrite (handleSynthesis_answer_done _ _ b id now1 now2).
  rewrite meanwhile_ok. cbn [world ui log].
  rewrite handleSynthesis_saved_ok. cbn [world ui log]. reflexivity.
Qed.


Lemma ready_shell_sound : sound ready_shell.
Proof.
  unfold sound, ready_shell. cbn [world]. split; [|split].
  - apply run_world_inv; [done|apply initial_inv].
  - apply run_world_inv2, initial_inv2.
  - intros [f Hf]. vm_compute in Hf. discriminate.
Qed.

End SessionWorlds.

Section SessionProperties.
Import JS App AppWorld Panel Session.

Local Ltac unfold_h :=
  unfold mbind, mret, H_bind, H_ret, hbind, hret, hget, hmodify, hthrow in *.




(** X18: a synthesis that fails.  When the service throws (no key, no
    audio, text that is not base64, a request that fails), or when the
    history does not take the item, the handler still returns: the error is
    logged, the status is Synthesis Failed, and nothing plays, not even what
    played before the click.  After an error of the service the component
    keeps the audio it had; when only the history has failed it holds the new
    audio, which was never played. *)
Theorem handleSynthesis_fails
    (h : Gemini.Host) (atob : Text.jsstring -> option Text.jsstring)
    (stream : list (option Text.jsstring)) (id : nat) (now1 now2 : Z)
    (saved : bool) (es1 es2 : list event) (s0 : Shell) :
  sound s0 ->
  isApiConnected (api (ui s0)) = true ->
  blank (text (st (world s0))) = false ->
  Forall (fun e => quiet e = true) es1 ->
  Forall (fun e => quiet e = true) es2 ->
  saved = false
  \/ (exists e, Gemini.synthesizeSpeech h atob (apiKey (api (ui s0))) stream
                = Gemini.Fail e) ->
  exists s3,
    handleSynthesis h atob stream id now1 now2 saved es1 es2 s0 = Returned tt s3 /\
    sound s3 /\
    active (world s3) = [] /\
    isPlaying (st (world s3)) = false /\
    sourceNode (st (world s3)) = sourceNode (st (world s0)) /\
    processing (ui s3) = mkProcessing false false 0 "Synthesis Failed" /\
    last (log s3) = Some ErrorLogged /\
    audioBuffer (st (world s3))
    = match Gemini.synthesizeSpeech h atob (apiKey (api (ui s0))) stream with
      | Gemini.Done b => Some (mkBufferObj id b)
      | Gemini.Fail _ => audioBuffer (st (world s0))
      end.
Proof.
  intros (HI & HI2 & Hnodes) Hc Hb Hq1 Hq2 Hfail.
  destruct (handleSynthesis_click_ok s0 Hc Hb) as (ctx & Hctx & Hclick).
  destruct (waiting_click (world s0) HI HI2) as (W1 & B1 & _).
  destruct (waiting_run _ _ es1 Hq1 W1) as (W1' & B1').
  rewrite B1 in B1'.
  assert (Hsound : forall w u l, waiting (world s0) w -> sound (mkShell w u l)).
  { intros w u l (I & I2 & _ & _ & Hsome & _). unfold sound. cbn [world]. done. }
  assert (Hidle : forall w, waiting (world s0) w ->
            active w = [] /\ isPlaying (st w) = false /\
            sourceNode (st w) = sourceNode (st (world s0))).
  { intros w (_ & _ & Hsil & Hp & _ & _ & Hs & _).
    split; [by apply active_nil|done]. }
  unfold handleSynthesis. unfold_h. rewrite Hclick, meanwhile_ok.
  cbn [world ui log req_apiKey req_ctx].
  destruct (Gemini.synthesizeSpeech h atob (apiKey (api (ui s0))) stream)
    as [b|e] eqn:Hsynth.
  - destruct Hfail as [->|[e He]]; [|done].
    set (buffer := mkBufferObj id b).
    destruct (waiting_load _ _ (Some buffer) W1') as (W2 & B2).
    destruct (waiting_run _ _ es2 Hq2 W2) as (W2' & B2').
    rewrite B2 in B2'.
    rewrite (handleSynthesis_answer_done _ _ b id now1 now2).
    rewrite meanwhile_ok. cbn [world ui log].
    rewrite handleSynthesis_saved_fail. cbn [world ui log].
    eexists. split; [reflexivity|]. cbn [world ui log].
    destruct (Hidle _ W2') as (Ha & Hp & Hs).
    split; [by apply Hsound|]. rewrite last_snoc. done.
  - rewrite handleSynthesis_answer_fail. cbn [world ui log].
    eexists. split; [reflexivity|]. cbn [world ui log].
    destruct (Hidle _ W1') as (Ha & Hp & Hs).
    split; [by apply Hsound|]. rewrite last_snoc. done.
Qed.


Lemma handleSynthesis_fails_witness :
  exists s3,
    handleSynthesis Gemini.minimal_host (fun s => Some s) [None]
      7 1000 1001 true [EAdvance 1] [] ready_shell = Returned tt s3 /\
    active (world s3) = [] /\
    processing (ui s3) = mkProcessing false false 0 "Synthesis Failed" /\
    audioBuffer (st (world s3)) = None.
Proof.
  destruct (handleSynthesis_fails Gemini.minimal_host (fun s => Some s) [None]
              7 1000 1001 true [EAdvance 1] [] ready_shell)
    as (s3 & H1 & _ & H2 & _ & _ & H3 & _ & H4).
  - apply ready_shell_sound.
  - reflexivity.
  - vm_compute. reflexivity.
  - by repeat constructor.
  - by repeat constructor.
  - right. exists Gemini.NoAudioData. vm_compute. reflexivity.
  - exists s3. split; [exact H1|]. split; [exact H2|]. split; [exact H3|exact H4].
Defined.

(** X19: without a key a click on Generate or on one of the Polish buttons
    alerts and does nothing else; with a key and a blank text it does
    nothing at all.  In both cases no audio context or node is created, what
    plays is not stopped, and no status is shown. *)
Theorem handlers_need_key_and_text
    (h : Gemini.Host) (atob : Text.jsstring -> option Text.jsstring)
    (stream : list (option Text.jsstring)) (id : nat) (now1 now2 : Z)
    (saved deep : bool) (r : reply) (es1 es2 : list event) (s : Shell) :
  (isApiConnected (api (ui s)) = false ->
   handleSynthesis h atob stream id now1 now2 saved es1 es2 s
   = Returned tt (with_entry (Alerted "Please connect your Gemini API Key first.") s) /\
   handleOptimization deep r es1 s
   = Returned tt
       (with_entry (Alerted "Please connect your Gemini API Key below first.") s)) /\
  (isApiConnected (api (ui s)) = true ->
   blank (text (st (world s))) = true ->
   handleSynthesis h atob stream id now1 now2 saved es1 es2 s = Returned tt s /\
   handleOptimization deep r es1 s = Returned tt s).
Proof.
  split.
  - intros Hc. unfold handleSynthesis, handleOptimization. unfold_h.
    assert (H1 : rendered (handleSynthesis_click (st (world s)) (ui s)) s
                 = Returned None
                     (with_entry (Alerted "Please connect your Gemini API Key first.") s)).
    { assert (Hrun : handleSynthesis_click (st (world s)) (ui s) s
                     = Returned None
                         (with_entry
                            (Alerted "Please connect your Gemini API Key first.") s))
        by (unfold handleSynthesis_click; by rewrite Hc).
      rewrite (rendered_ok _ _ _ _ Hrun). cbn [world ui log with_entry].
      by rewrite flush_world_refl. }
    assert (H2 : rendered (handleOptimization_click (st (world s)) (ui s) deep) s
                 = Returned false
                     (with_entry
                        (Alerted "Please connect your Gemini API Key below first.") s)).
    { assert (Hrun : handleOptimization_click (st (world s)) (ui s) deep s
                     = Returned false
                         (with_entry
                            (Alerted "Please connect your Gemini API Key below first.")
                            s))
        by (unfold handleOptimization_click; by rewrite Hc).
      rewrite (rendered_ok _ _ _ _ Hrun). cbn [world ui log with_entry].
      by rewrite flush_world_refl. }
    by rewrite H1, H2.
  - intros Hc Hb. unfold handleSynthesis, handleOptimization. unfold_h.
    assert (H1 : rendered (handleSynthesis_click (st (world s)) (ui s)) s
                 = Returned None s).
    { assert (Hrun : handleSynthesis_click (st (world s)) (ui s) s = Returned None s)
        by (unfold handleSynthesis_click; by rewrite Hc, Hb).
      rewrite (rendered_ok _ _ _ _ Hrun). rewrite flush_world_refl. by destruct s. }
    assert (H2 : rendered (handleOptimization_click (st (world s)) (ui s) deep) s
                 = Returned false s).
    { assert (Hrun : handleOptimization_click (st (world s)) (ui s) deep s
                     = Returned false s)
        by (unfold handleOptimization_click; by rewrite Hc, Hb).
      rewrite (rendered_ok _ _ _ _ Hrun). rewrite flush_world_refl. by destruct s. }
    by rewrite H1, H2.
Qed.

(** X20: an optimisation.  When the service answers, the text becomes the
    answer, trimmed, or the text of the click when the answer has no text or
    only white space: in both cases a text that is not blank, and what was
    typed while the request ran is lost.  When the request fails the text
    stays as it was typed, and the status is Optimization Failed. *)
Theorem handleOptimization_text
    (deep : bool) (r : reply) (es : list event) (s0 : Shell) :
  isApiConnected (api (ui s0)) = true ->
  apiKey (api (ui s0)) <> [] ->
  blank (text (st (world s0))) = false ->
  exists s2,
    handleOptimization deep r es s0 = Returned tt s2 /\
    match r with
    | Replied response =>
        text (st (world s2)) = trimmed_or response (text (st (world s0))) /\
        blank (text (st (world s2))) = false /\
        processing (ui s2) = mkProcessing false false 100 "Optimization Complete" /\
        log s2 = log s0 ++ [TimerSet 2000]
    | Rejected =>
        text (st (world s2)) = typed es (text (st (world s0))) /\
        processing (ui s2) = mkProcessing false false 0 "Optimization Failed" /\
        log s2 = log s0 ++ [ErrorLogged]
    end.
Proof.
  intros Hc Hkey Hb. unfold handleOptimization. unfold_h.
  rewrite (handleOptimization_click_ok deep s0 Hc Hb), meanwhile_ok.
  cbn [world ui log].
  assert (Hopt : (if deep
                  then optimizeTextWithThinking (text (st (world s0)))
                         (selectedEmotion (ui s0)) (apiKey (api (ui s0))) r
                  else quickPolishText (text (st (world s0)))
                         (apiKey (api (ui s0))) r)
                 = match r with
                   | Rejected => None
                   | Replied response =>
                       Some (trimmed_or response (text (st (world s0))))
                   end).
  { unfold optimizeTextWithThinking, quickPolishText.
    destruct (apiKey (api (ui s0))); [done|]. by destruct deep. }
  rewrite Hopt. destruct r as [|response].
  - rewrite handleOptimization_answer_none. cbn [world ui log].
    eexists. split; [reflexivity|]. cbn [world ui log].
    rewrite run_world_text, step_world_text. done.
  - rewrite handleOptimization_answer_some. cbn [world ui log processing
      set_processing isSynthesizing].
    eexists. split; [reflexivity|]. cbn [world ui log].
    rewrite step_world_text. split; [done|]. split; [|done].
    by apply blank_trimmed_or.
Qed.


Lemma handleOptimization_text_witness :
  exists s2,
    handleOptimization false (Replied (Some [32; 88; 32])) [ESetText [89]] ready_shell
    = Returned tt s2 /\
    text (st (world s2)) = [88].
Proof.
  destruct (handleOptimization_text false (Replied (Some [32; 88; 32]))
              [ESetText [89]] ready_shell)
    as (s2 & H1 & H2 & _).
  - reflexivity.
  - discriminate.
  - vm_compute. reflexivity.
  - exists s2. split; [exact H1|exact H2].
Defined.




(** X22: [restoreHistoryItem] loads the text, the emotion and the voice of
    the item, and never starts or stops a source: what plays goes on, and
    the audio of the item is not played.  Its audio is loaded only when an
    audio context exists, which is after the first click on Generate or
    Polish; without one the component keeps the audio it had.  When the
    context rejects the blob, the handler throws after the text is loaded
    and leaves the side bar open. *)
Theorem restoreHistoryItem_loads
    (item : HistoryItem) (decoded : option BufferObj) (s : Shell) :
  let r := restoreHistoryItem item decoded s in
  text (st (world (shell_of r))) = item_text item /\
  selectedEmotion (ui (shell_of r)) = item_emotion item /\
  selectedVoice (ui (shell_of r)) = item_voice item /\
  statuses (world (shell_of r)) = statuses (world s) /\
  calls (world (shell_of r)) = calls (world s) /\
  isPlaying (st (world (shell_of r))) = isPlaying (st (world s)) /\
  match audioContext (st (world s)), decoded with
  | Some _, Some buffer =>
      r = Returned tt (shell_of r) /\
      audioBuffer (st (world (shell_of r))) = Some buffer /\
      historyOpen (ui (shell_of r)) = false
  | Some _, None =>
      r = Thrown (shell_of r) /\
      audioBuffer (st (world (shell_of r))) = audioBuffer (st (world s)) /\
      historyOpen (ui (shell_of r)) = historyOpen (ui s)
  | None, _ =>
      r = Returned tt (shell_of r) /\
      audioBuffer (st (world (shell_of r))) = audioBuffer (st (world s)) /\
      historyOpen (ui (shell_of r)) = false
  end.
Proof.
  cbv zeta. unfold restoreHistoryItem. unfold_h.
  set (w := world s).
  set (w1 := step_world (ESetText (item_text item)) w).
  assert (Hclick : rendered (restoreHistoryItem_click item) s
                   = Returned tt
                       (mkShell w1
                          (set_selectedVoice (item_voice item)
                             (set_selectedEmotion (item_emotion item) (ui s)))
                          (log s))).
  { assert (Hrun : restoreHistoryItem_click item s
                   = Returned tt
                       (mkShell (with_st (set_text (item_text item)) w)
                          (set_selectedVoice (item_voice item)
                             (set_selectedEmotion (item_emotion item) (ui s)))
                          (log s))) by done.
    by rewrite (rendered_ok _ _ _ _ Hrun). }
  rewrite Hclick.
  assert (H1 : statuses w1 = statuses w /\ calls w1 = calls w /\
               isPlaying (st w1) = isPlaying (st w) /\
               audioBuffer (st w1) = audioBuffer (st w) /\
               text (st w1) = item_text item).
  { subst w1. cbn [step_world].
    destruct (flush_world_keeps (st w) (with_st (set_text (item_text item)) w))
      as (Hs & _ & _ & _ & Hc & _).
    rewrite Hs, Hc, flush_world_st. done. }
  destruct H1 as (Hs1 & Hc1 & Hp1 & Hb1 & Ht1). clearbody w1.
  set (u1 := set_selectedVoice _ _).
  destruct (audioContext (st w)) as [c|] eqn:Ec;
    [destruct decoded as [buffer|]|].
  - set (w2 := step_world (ESetAudioBuffer (Some buffer)) w1).
    assert (Hread : rendered (restoreHistoryItem_read (st w) (Some buffer))
                      (mkShell w1 u1 (log s))
                    = Returned tt (mkShell w2 (set_historyOpen false u1) (log s))).
    { assert (Hrun : restoreHistoryItem_read (st w) (Some buffer)
                       (mkShell w1 u1 (log s))
                     = Returned tt
                         (mkShell (with_st (set_audioBuffer (Some buffer)) w1)
                            (set_historyOpen false u1) (log s)))
        by (unfold restoreHistoryItem_read; by rewrite Ec).
      by rewrite (rendered_ok _ _ _ _ Hrun). }
    rewrite Hread. cbn [shell_of world ui log].
    subst w2. cbn [step_world].
    destruct (flush_world_keeps (st w1) (with_st (set_audioBuffer (Some buffer)) w1))
      as (Hs & _ & _ & _ & Hc & _).
    rewrite Hs, Hc, flush_world_st. cbn. rewrite Ht1, Hp1. done.
  - assert (Hread : rendered (restoreHistoryItem_read (st w) None)
                      (mkShell w1 u1 (log s))
                    = Thrown (mkShell w1 u1 (log s))).
    { unfold rendered. cbv zeta.
      assert (Hrun : restoreHistoryItem_read (st w) None (mkShell w1 u1 (log s))
                     = Thrown (mkShell w1 u1 (log s)))
        by (unfold restoreHistoryItem_read; by rewrite Ec).
      rewrite Hrun. unfold_h.
      rewrite (lift_ok _ tt _ _ (flush_ok _ _)). cbn [world ui log].
      by rewrite flush_world_refl. }
    rewrite Hread. cbn [shell_of world ui log]. done.
  - assert (Hread : rendered (restoreHistoryItem_read (st w) decoded)
                      (mkShell w1 u1 (log s))
                    = Returned tt (mkShell w1 (set_historyOpen false u1) (log s))).
    { assert (Hrun : restoreHistoryItem_read (st w) decoded (mkShell w1 u1 (log s))
                     = Returned tt
                         (mkShell w1 (set_historyOpen false u1) (log s)))
        by (unfold restoreHistoryItem_read; by rewrite Ec).
      rewrite (rendered_ok _ _ _ _ Hrun). cbn [world ui log].
      by rewrite flush_world_refl. }
    rewrite Hread. cbn [shell_of world ui log]. done.
Qed.


(** X23: the first click on Generate of a component without an audio
    context creates two audio contexts and, with the answer, two filters:
    [initAudio] creates a context and a filter, the handler does not see
    them in its render and creates a second context, and [playAudio], from
    the same render, a second filter.  The state ends with the second of
    each, and the source plays through the second filter. *)
Theorem first_synthesis_creates_two_contexts
    (h : Gemini.Host) (atob : Text.jsstring -> option Text.jsstring)
    (stream : list (option Text.jsstring)) (id : nat) (now1 now2 : Z)
    (es1 es2 : list event) (b : Wav.AudioBuffer) (s0 : Shell) :
  sound s0 ->
  isApiConnected (api (ui s0)) = true ->
  blank (text (st (world s0))) = false ->
  Forall (fun e => quiet e = true) es1 ->
  Forall (fun e => quiet e = true) es2 ->
  Gemini.synthesizeSpeech h atob (apiKey (api (ui s0))) stream = Gemini.Done b ->
  audioContext (st (world s0)) = None ->
  exists s3,
    handleSynthesis h atob stream id now1 now2 true es1 es2 s0 = Returned tt s3 /\
    contexts (world s3) = (contexts (world s0) + 2)%nat /\
    audioContext (st (world s3)) = Some (S (contexts (world s0))) /\
    length (filters (world s3)) = (length (filters (world s0)) + 2)%nat /\
    filterNode (st (world s3)) = Some (S (length (filters (world s0)))) /\
    exists src,
      sources (world s3) !! length (sources (world s0)) = Some src /\
      src_output src = Some (S (length (filters (world s0)))).
Proof.
  intros (HI & HI2 & Hnodes) Hc Hb Hq1 Hq2 Hsynth Hnone.
  destruct (handleSynthesis_ok h atob stream id now1 now2 es1 es2 b s0 Hc Hb Hsynth)
    as (ctx & u & l & Hrun).
  set (w0 := world s0) in *. set (buffer := mkBufferObj id b) in *.
  assert (Hfnone : filterNode (st w0) = None).
  { destruct (filterNode (st w0)) eqn:Ef; [|done].
    destruct Hnodes as [? Hx]; [by eexists|]. by rewrite Hnone in Hx. }
  destruct (click_world_first w0 Hnone) as (C1 & C2 & C3).
  destruct (waiting_click w0 HI HI2) as (W1 & _ & _).
  set (w1 := click_world w0) in *.
  pose proof W1 as (_ & _ & _ & _ & Hsome1 & _).
  destruct (quiet_run_counts es1 w1 Hq1 Hsome1) as (N1 & N2 & N3).
  destruct (waiting_run _ _ es1 Hq1 W1) as (W1' & _).
  set (w1' := run_world es1 w1) in *.
  destruct (waiting_load _ _ (Some buffer) W1') as (W2 & B2).
  set (w2 := step_world (ESetAudioBuffer (Some buffer)) w1') in *.
  assert (M : contexts w2 = contexts w1' /\ length (filters w2) = length (filters w1')
              /\ audioContext (st w2) = audioContext (st w1')).
  { subst w2. cbn [step_world].
    destruct (flush_world_keeps (st w1') (with_st (set_audioBuffer (Some buffer)) w1'))
      as (_ & _ & _ & _ & _ & Hx & _).
    rewrite Hx, shape_length_filters, flush_world_st. done. }
  destruct M as (M1 & M2 & M3).
  pose proof W2 as (_ & _ & _ & _ & Hsome2 & _).
  destruct (quiet_run_counts es2 w2 Hq2 Hsome2) as (K1 & K2 & K3).
  destruct (waiting_run _ _ es2 Hq2 W2) as (W2' & B2').
  rewrite B2 in B2'.
  set (w2' := run_world es2 w2) in *.
  destruct W2' as (I2 & I22 & Hsil & Hplay & Hsome & Hlen & Hsrc & Hflt).
  destruct (play_facts w2' (st w0) buffer ctx I2 I22 (eq_sym Hsrc) (or_introl Hfnone)
              Hplay B2' Hsome)
    as (_ & _ & _ & _ & _ & _ & P7 & _ & (src & P9 & _ & P9o) & _).
  assert (Hfin : contexts (step_world (EPlay (st w0) (Some buffer) (Some ctx)) w2')
                 = contexts w2' /\
                 length (filters (step_world (EPlay (st w0) (Some buffer) (Some ctx))
                                    w2'))
                 = S (length (filters w2')) /\
                 filterNode (st (step_world (EPlay (st w0) (Some buffer) (Some ctx))
                                   w2'))
                 = Some (length (filters w2'))).
  { cbn [step_world].
    destruct (flush_world_keeps (st w2') (playAudio_world (st w0) buffer w2'))
      as (_ & _ & _ & _ & _ & Hx & _).
    rewrite Hx, shape_length_filters, flush_world_st.
    destruct (playAudio_world_nodes (st w0) buffer w2') as (_ & Hf).
    rewrite Hf, Hfnone, length_app. cbn [length].
    unfold playAudio_world. cbv zeta. rewrite Hfnone.
    assert (Hstop : contexts (match sourceNode (st w0) with
                              | Some s => stop_world s w2'
                              | None => w2'
                              end) = contexts w2' /\
                    filters (match sourceNode (st w0) with
                             | Some s => stop_world s w2'
                             | None => w2'
                             end) = filters w2').
    { destruct (sourceNode (st w0)) as [s|]; [|done].
      split; [|apply stop_world_keeps]. unfold stop_world. cbv zeta.
      by destruct (src_state <$> sources (with_call (CallStop s) w2') !! s)
        as [[| |]|]. }
    destruct Hstop as [Hsc Hsf]. unfold_w. cbn. rewrite Hsc, Hsf.
    split; [done|]. split; [lia|done]. }
  destruct Hfin as (F1 & F2 & F3).
  eexists. split; [exact Hrun|]. cbn [world].
  rewrite F1, F2, F3, P7, K1, K2, K3, M1, M2, M3, N1, N2, N3, C1, C2, C3.
  split; [done|]. split; [done|]. split; [lia|].
  split; [f_equal; lia|].
  exists src. rewrite <- Hlen. split; [done|].
  rewrite P9o, F3, K2, M2, N2, C3. f_equal. lia.
Qed.

Lemma first_synthesis_creates_two_contexts_witness :
  exists s3,
    handleSynthesis Gemini.minimal_host (fun s => Some s) [Some [1; 0; 3; 2]]
      7 1000 1001 true [EAdvance 1] [EFrame] ready_shell = Returned tt s3 /\
    contexts (world s3) = 2%nat /\
    audioContext (st (world s3)) = Some 1%nat /\
    length (filters (world s3)) = 2%nat /\
    filterNode (st (world s3)) = Some 1%nat.
Proof.
  destruct (first_synthesis_creates_two_contexts Gemini.minimal_host
              (fun s => Some s) [Some [1; 0; 3; 2]] 7 1000 1001 [EAdvance 1] [EFrame]
              two_samples ready_shell)
    as (s3 & H1 & H2 & H3 & H4 & H5 & _).
  - apply ready_shell_sound.
  - reflexivity.
  - vm_compute. reflexivity.
  - by repeat constructor.
  - by repeat constructor.
  - vm_compute. reflexivity.
  - reflexivity.
  - exists s3. split; [exact H1|]. split; [exact H2|]. split; [exact H3|].
    split; [exact H4|exact H5].
Defined.

End SessionProperties.

(** ** The bars of the visualiser *)
Section VisualizerProperties.
Import Visualizer.

Lemma draw_loop (dataArray : list Z) : forall n i rects,
  iter_from i n
    (fun i '(x, rects) =>
       let barHeight := (inject_Z (default 0%Z (dataArray !! i)) / 2)%Q in
       ((x + (inject_Z canvas_width / inject_Z (Z.of_nat frequencyBinCount)
              * (5 # 2) + 1))%Q,
        rects ++ [mkRect x (inject_Z canvas_height - barHeight)%Q
                    (inject_Z canvas_width / inject_Z (Z.of_nat frequencyBinCount)
                     * (5 # 2))%Q
                    barHeight]))
    (bar_x i, rects)
  = (bar_x (i + n),
     rects ++
     ((fun j =>
         mkRect (bar_x j)
           (inject_Z canvas_height - inject_Z (default 0%Z (dataArray !! j)) / 2)%Q
           (inject_Z canvas_width / inject_Z (Z.of_nat frequencyBinCount) * (5 # 2))%Q
           (inject_Z (default 0%Z (dataArray !! j)) / 2)%Q)
        <$> seq i n)).
Proof.
  induction n as [|n IH]; intros i rects.
  - cbn [iter_from seq fmap list_fmap]. by rewrite Nat.add_0_r, app_nil_r.
  - cbn [iter_from seq fmap list_fmap]. cbv zeta.
    change (bar_x i + (inject_Z canvas_width / inject_Z (Z.of_nat frequencyBinCount)
                       * (5 # 2) + 1))%Q with (bar_x (S i)).
    rewrite IH. rewrite <- app_assoc. cbn [app].
    by replace (S i + n)%nat with (i + S n)%nat by lia.
Qed.

Lemma bar_x_closed (i : nat) : (bar_x i == inject_Z (Z.of_nat i) * (407 # 32))%Q.
Proof.
  induction i as [|i IH]; [done|].
  change (bar_x (S i))
    with (bar_x i + (inject_Z canvas_width / inject_Z (Z.of_nat frequencyBinCount)
                     * (5 # 2) + 1))%Q.
  rewrite IH. rewrite Nat2Z.inj_succ. unfold Z.succ. rewrite inject_Z_plus.
  change (inject_Z canvas_width / inject_Z (Z.of_nat frequencyBinCount) * (5 # 2) + 1)%Q
    with (600 / 128 * (5 # 2) + 1)%Q.
  field.
Qed.


Lemma draw_bars (dataArray : list Z) :
  draw dataArray
  = (fun j =>
       mkRect (bar_x j)
         (inject_Z canvas_height - inject_Z (default 0%Z (dataArray !! j)) / 2)%Q
         (inject_Z canvas_width / inject_Z (Z.of_nat frequencyBinCount) * (5 # 2))%Q
         (inject_Z (default 0%Z (dataArray !! j)) / 2)%Q)
      <$> seq 0 frequencyBinCount.
Proof.
  unfold draw. cbv zeta. change 0%Q with (bar_x 0) at 1.
  by rewrite draw_loop.
Qed.

(** X24: one call of [draw] fills 128 bars, one for each frequency bin: bar
    [i] is 11.71875 wide, starts at 12.71875 [i], stands on the bottom edge
    of the canvas and is half the byte of its bin high, at most 127.5 of the
    128.  The canvas is 600 wide: the bars from 48 on start beyond its right
    edge, so that 80 of the 128 bins are never seen; the bars up to 46 are
    inside. *)
Theorem visualizer_bars (dataArray : list Z) :
  length dataArray = frequencyBinCount ->
  Forall (fun b => 0 <= b < 256) dataArray ->
  length (draw dataArray) = 128%nat /\
  forall i r, draw dataArray !! i = Some r ->
    (rect_x r == inject_Z (Z.of_nat i) * (407 # 32))%Q /\
    (rect_w r == 375 # 32)%Q /\
    (exists b, dataArray !! i = Some b /\ (rect_h r == inject_Z b / 2)%Q) /\
    (rect_y r + rect_h r == 128)%Q /\
    (0 <= rect_h r)%Q /\ (1 # 2 <= rect_y r)%Q /\
    ((48 <= i)%nat -> (600 <= rect_x r)%Q) /\
    ((i <= 46)%nat -> (rect_x r + rect_w r <= 600)%Q).
Proof.
  intros Hlen Hbytes. rewrite draw_bars. split; [by rewrite length_fmap, length_seq|].
  intros i r Hr. rewrite list_lookup_fmap in Hr.
  destruct (seq 0 frequencyBinCount !! i) as [j|] eqn:Ej; [|done].
  apply lookup_seq in Ej as [-> Hi]. cbn [Nat.add] in *.
  injection Hr as <-. cbn [rect_x rect_y rect_w rect_h].
  assert (Hb : exists b, dataArray !! i = Some b /\ 0 <= b < 256).
  { destruct (lookup_lt_is_Some_2 dataArray i) as [b Hb]; [by rewrite Hlen|].
    exists b. split; [done|].
    by apply (proj1 (Forall_lookup _ dataArray) Hbytes i b). }
  destruct Hb as (b & Hb & Hrange). rewrite Hb. cbn [default]. unfold id.
  pose proof (bar_x_closed i) as Hx.
  change (inject_Z canvas_width / inject_Z (Z.of_nat frequencyBinCount) * (5 # 2))%Q
    with (600 / 128 * (5 # 2))%Q.
  change (inject_Z canvas_height) with 128%Q.
  assert (Hw : (600 / 128 * (5 # 2) == 375 # 32)%Q) by reflexivity.
  assert (Hh : (0 <= inject_Z b / 2)%Q /\ (inject_Z b / 2 <= 255 # 2)%Q).
  { unfold Qle, Qdiv, Qmult, Qinv, inject_Z. cbn. lia. }
  destruct Hh as [Hh0 Hh1].
  split; [done|]. split; [done|]. split; [by exists b|].
  split; [field|]. split; [done|]. split.
  - apply (Qle_trans _ (128 - (255 # 2))); [done|].
    apply Qplus_le_r, Qopp_le_compat. done.
  - split.
    + intros H48. rewrite Hx. unfold Qle, Qmult, inject_Z. cbn. lia.
    + intros H46. rewrite Hx, Hw. unfold Qle, Qmult, Qplus, inject_Z. cbn. lia.
Qed.

Lemma visualizer_bars_witness :
  length (draw (replicate 128 255)) = 128%nat /\
  forall i r, draw (replicate 128 255) !! i = Some r ->
    (rect_x r == inject_Z (Z.of_nat i) * (407 # 32))%Q /\
    (rect_w r == 375 # 32)%Q /\
    (exists b, replicate 128 255 !! i = Some b /\ (rect_h r == inject_Z b / 2)%Q) /\
    (rect_y r + rect_h r == 128)%Q /\
    (0 <= rect_h r)%Q /\ (1 # 2 <= rect_y r)%Q /\
    ((48 <= i)%nat -> (600 <= rect_x r)%Q) /\
    ((i <= 46)%nat -> (rect_x r + rect_w r <= 600)%Q).
Proof.
  apply (visualizer_bars (replicate 128 255)).
  - reflexivity.
  - apply Forall_replicate. lia.
Defined.

End VisualizerProperties.
